(** * Block metadata fetcher: shallow embedding of package [block]

    The development follows the Go source of the fetcher function by
    function: [loadMeta], [Fetch], and the filters [ConsistencyDelayMetaFilter],
    [IgnoreDeletionMarkFilter], [ReplicaLabelRemover] and [DeduplicateFilter].
    Go maps are stdpp [gmap]s, Go slices are lists, [*metadata.Meta] pointers
    are addresses into an explicit heap, and the object store, the local disk
    cache and the wall clock are explicit environment values. *)

From Stdlib Require Import ZArith Lia.
From stdpp Require Import gmap strings list fin_maps sorting.

Set Warnings "-register-all".
Open Scope Z_scope.

(** ** ULIDs

    [ulid.ULID] is a [[16]byte]: 6 bytes of big-endian millisecond timestamp
    followed by 10 bytes of entropy.  It is modelled by the 128-bit number the
    16 bytes spell out, so that [ULID.Compare] (a byte-wise comparison) is the
    comparison of numbers. *)

Abbreviation ulid := N (only parsing).

(** [id.Time()]: the first 6 bytes. *)
Definition ulid_Time (id : ulid) : Z :=
  Z.of_N ((id / 2 ^ 80) mod 2 ^ 48)%N.

(** [ulid.MustNew(ms, nil)]: timestamp [ms], zero entropy. *)
Definition ulid_MustNew (ms : Z) : ulid := (Z.to_N ms * 2 ^ 80)%N.

(** [a.Compare(b)]: -1, 0 or 1. *)
Definition ulid_Compare (a b : ulid) : Z :=
  match N.compare a b with Lt => -1 | Eq => 0 | Gt => 1 end.

(** Conversions to the Go integer types, with their wrap-around. *)
Definition uint64 (z : Z) : Z := z mod 2 ^ 64.

(** ** Errors

    Only the shape [errors.Cause] looks at is kept: the two sentinels, opaque
    errors raised by the bucket or the file system, [errors.Errorf] and
    [errors.Wrap]. *)

Inductive error : Type :=
| ErrorSyncMetaNotFound
| ErrorSyncMetaCorrupted
| ExternalError (msg : string)
| Errorf (msg : string)
| MultiError (errs : list error)
| Wrap (e : error) (msg : string).

Fixpoint Cause (e : error) : error :=
  match e with
  | Wrap e' _ => Cause e'
  | _ => e
  end.

(** ** Block descriptors *)

(** Modelled from the spec: the constants of package [metadata] are not part
    of the sources at hand.  "version (integer, currently 1)" and
    "Thanos.Source ∈ {bucket-repair, compactor, compactor-repair}". *)
Definition MetaVersion1 : Z := 1.
Definition BucketRepairSource : string := "bucket-repair".
Definition CompactorSource : string := "compactor".
Definition CompactorRepairSource : string := "compactor-repair".

Record Meta : Type := mkMeta {
  ULID : ulid;
  MinTime : Z;
  MaxTime : Z;
  Version : Z;
  Compaction_Sources : list ulid;
  Thanos_Labels : gmap string string;
  Thanos_Downsample_Resolution : Z;
  Thanos_Source : string
}.

Definition set_Thanos_Labels (m : Meta) (l : gmap string string) : Meta :=
  {| ULID := ULID m; MinTime := MinTime m; MaxTime := MaxTime m;
     Version := Version m; Compaction_Sources := Compaction_Sources m;
     Thanos_Labels := l;
     Thanos_Downsample_Resolution := Thanos_Downsample_Resolution m;
     Thanos_Source := Thanos_Source m |}.

(** The heap of [metadata.Meta] objects; a [*metadata.Meta] is an index into
    it.  Go never frees an object that is still referenced, so the heap only
    grows.  The label map of a descriptor is reachable through its descriptor
    only, and is stored inline. *)
Abbreviation ptr := nat (only parsing).
Abbreviation Heap := (list Meta) (only parsing).

Definition alloc (h : Heap) (m : Meta) : ptr * Heap := (length h, h ++ [m]).

(** ** Metrics *)

Definition corruptedMeta : string := "corrupted-meta-json".
Definition noMeta : string := "no-meta-json".
Definition loadedMeta : string := "loaded".
Definition failedMeta : string := "failed".
Definition labelExcludedMeta : string := "label-excluded".
Definition timeExcludedMeta : string := "time-excluded".
Definition tooFreshMeta : string := "too-fresh".
Definition duplicateMeta : string := "duplicate".
Definition replicaRemovedMeta : string := "replica-label-removed".
Definition markedForDeletionMeta : string := "marked-for-deletion".

(** Modelled from the spec: [extprom.TxGaugeVec] is not part of the sources at
    hand.  "A TxGaugeVec holds a staging copy of label->value and an active
    copy. ResetTx(): zero the staging copy and preset any declared label
    permutations to zero. WithLabelValues(...).Inc(): mutate staging only.
    Submit(): atomically swap staging into active." *)
Record TxGaugeVec : Type := mkTx {
  tx_presets : list string;
  tx_staging : gmap string Z;
  tx_active : gmap string Z
}.

Definition NewTxGaugeVec (presets : list string) : TxGaugeVec :=
  {| tx_presets := presets;
     tx_staging := list_to_map ((λ l, (l, 0)) <$> presets);
     tx_active := ∅ |}.

Definition ResetTx (g : TxGaugeVec) : TxGaugeVec :=
  {| tx_presets := tx_presets g;
     tx_staging := list_to_map ((λ l, (l, 0)) <$> tx_presets g);
     tx_active := tx_active g |}.

(** The staged value of a label; an unset gauge reads zero. *)
Definition tx_get (g : TxGaugeVec) (label : string) : Z :=
  default 0 (tx_staging g !! label).

Definition tx_Add (g : TxGaugeVec) (label : string) (n : Z) : TxGaugeVec :=
  {| tx_presets := tx_presets g;
     tx_staging := <[label := tx_get g label + n]> (tx_staging g);
     tx_active := tx_active g |}.

(** [g.WithLabelValues(label).Inc()] *)
Definition tx_Inc (g : TxGaugeVec) (label : string) : TxGaugeVec :=
  tx_Add g label 1.

(** [g.WithLabelValues(label).Set(v)] *)
Definition tx_Set (g : TxGaugeVec) (label : string) (v : Z) : TxGaugeVec :=
  {| tx_presets := tx_presets g;
     tx_staging := <[label := v]> (tx_staging g);
     tx_active := tx_active g |}.

Definition Submit (g : TxGaugeVec) : TxGaugeVec :=
  {| tx_presets := tx_presets g;
     tx_staging := tx_staging g;
     tx_active := tx_staging g |}.

(** [syncMetrics]; the duration histogram is left out. *)
Record syncMetrics : Type := mkMetrics {
  syncs : Z;
  syncFailures : Z;
  synced : TxGaugeVec;
  modified : TxGaugeVec
}.

Definition newSyncMetrics : syncMetrics :=
  {| syncs := 0;
     syncFailures := 0;
     synced := NewTxGaugeVec
       [corruptedMeta; noMeta; loadedMeta; tooFreshMeta; failedMeta;
        labelExcludedMeta; timeExcludedMeta; duplicateMeta;
        markedForDeletionMeta];
     modified := NewTxGaugeVec [replicaRemovedMeta] |}.

Definition with_synced (m : syncMetrics) (g : TxGaugeVec) : syncMetrics :=
  {| syncs := syncs m; syncFailures := syncFailures m;
     synced := g; modified := modified m |}.

Definition with_modified (m : syncMetrics) (g : TxGaugeVec) : syncMetrics :=
  {| syncs := syncs m; syncFailures := syncFailures m;
     synced := synced m; modified := g |}.

(** ** ConsistencyDelayMetaFilter *)

(** [time.Millisecond], in nanoseconds. *)
Definition Millisecond : Z := 1000000.

Record ConsistencyDelayMetaFilter : Type := mkConsistencyDelay {
  consistencyDelay : Z  (* a [time.Duration]: int64 nanoseconds *)
}.

(** The condition of the [if] in [ConsistencyDelayMetaFilter.Filter]; [now] is
    the reading of [ulid.Now()].  Both sides of [<] are uint64; the division
    of durations is Go's truncating integer division. *)
Definition tooFresh (f : ConsistencyDelayMetaFilter) (now : Z)
    (id : ulid) (meta : Meta) : bool :=
  bool_decide (uint64 (uint64 now - ulid_Time id)
               < uint64 (consistencyDelay f ÷ Millisecond))
  && negb (String.eqb (Thanos_Source meta) BucketRepairSource)
  && negb (String.eqb (Thanos_Source meta) CompactorSource)
  && negb (String.eqb (Thanos_Source meta) CompactorRepairSource).

(** One iteration of [for id, meta := range metas].  The entries of [metas]
    always point to live objects; an address outside the heap is skipped. *)
Definition ConsistencyDelay_body (f : ConsistencyDelayMetaFilter) (now : Z)
    (h : Heap) (st : gmap ulid ptr * syncMetrics) (e : ulid * ptr)
    : gmap ulid ptr * syncMetrics :=
  match h !! e.2 with
  | Some meta =>
      if tooFresh f now e.1 meta
      then (delete e.1 st.1, with_synced st.2 (tx_Inc (synced st.2) tooFreshMeta))
      else st
  | None => st
  end.

(** [ConsistencyDelayMetaFilter.Filter]; it always returns a nil error, so
    only the updated map and metrics are returned. *)
Definition ConsistencyDelayMetaFilter_Filter (f : ConsistencyDelayMetaFilter)
    (now : Z) (h : Heap) (metas : gmap ulid ptr) (metrics : syncMetrics)
    : gmap ulid ptr * syncMetrics :=
  foldl (ConsistencyDelay_body f now h) (metas, metrics) (map_to_list metas).

(** ** ReplicaLabelRemover *)

Record ReplicaLabelRemover : Type := mkReplicaLabelRemover {
  replicaLabels : list string
}.

(** One iteration of [for _, replicaLabel := range r.replicaLabels], for the
    descriptor at address [p].  [labels := meta.Thanos.Labels] copies a map
    reference, so [delete(labels, replicaLabel)] updates the label map of the
    object at [p] in place. *)
Definition ReplicaLabelRemover_inner (p : ptr) (st : Heap * syncMetrics)
    (replicaLabel : string) : Heap * syncMetrics :=
  match st.1 !! p with
  | Some meta =>
      match Thanos_Labels meta !! replicaLabel with
      | Some _ =>
          (<[p := set_Thanos_Labels meta (delete replicaLabel (Thanos_Labels meta))]> st.1,
           with_modified st.2 (tx_Inc (modified st.2) replicaRemovedMeta))
      | None => st
      end
  | None => st
  end.

(** [ReplicaLabelRemover.Modify].  The closing assignment
    [metas[u].Thanos.Labels = labels] stores the reference it was read from
    and changes nothing; [metas] itself is not changed, and the error is
    always nil. *)
Definition ReplicaLabelRemover_Modify (r : ReplicaLabelRemover)
    (h : Heap) (metas : gmap ulid ptr) (metrics : syncMetrics)
    : Heap * syncMetrics :=
  foldl (λ st e, foldl (ReplicaLabelRemover_inner e.2) st (replicaLabels r))
        (h, metrics) (map_to_list metas).

(** ** IgnoreDeletionMarkFilter *)

Record DeletionMark : Type := mkDeletionMark {
  dm_ID : ulid;
  dm_DeletionTime : Z;  (* Unix seconds *)
  dm_Version : Z
}.

(** The outcomes of [metadata.ReadDeletionMark] that the filter tells apart:
    a mark, [ErrorDeletionMarkNotFound], an error whose cause is
    [ErrorUnmarshalDeletionMark], any other error. *)
Inductive ReadDeletionMarkResult : Type :=
| MarkRead (dm : DeletionMark)
| MarkNotFound
| MarkUnmarshalError (e : error)
| MarkOtherError (e : error).

Record IgnoreDeletionMarkFilter : Type := mkIgnoreDeletionMark {
  delay : Z;  (* a [time.Duration] *)
  deletionMarkMap : gmap ulid DeletionMark
}.

(** What the filter reads from its surroundings: the bucket [f.bkt], seen
    through [ReadDeletionMark], and the clock.  [since_exceeds t d] stands for
    the float64 comparison
    [time.Since(time.Unix(t, 0)).Seconds() > d.Seconds()], which is left
    abstract. *)
Record MarkEnv : Type := mkMarkEnv {
  ReadDeletionMark : ulid → ReadDeletionMarkResult;
  since_exceeds : Z → Z → bool
}.

Definition NewIgnoreDeletionMarkFilter (d : Z) : IgnoreDeletionMarkFilter :=
  {| delay := d; deletionMarkMap := ∅ |}.


Definition with_deletionMarkMap (f : IgnoreDeletionMarkFilter)
    (m : gmap ulid DeletionMark) : IgnoreDeletionMarkFilter :=
  {| delay := delay f; deletionMarkMap := m |}.

(** The state the loop of [IgnoreDeletionMarkFilter.Filter] works on. *)
Record MarkState : Type := mkMarkState {
  ms_filter : IgnoreDeletionMarkFilter;
  ms_metas : gmap ulid ptr;
  ms_metrics : syncMetrics
}.

(** [for id := range metas { ... }], with its early [return err]. *)
Fixpoint IgnoreDeletionMark_range (env : MarkEnv) (ids : list ulid)
    (st : MarkState) : option error * MarkState :=
  match ids with
  | [] => (None, st)
  | id :: rest =>
      match ReadDeletionMark env id with
      | MarkNotFound => IgnoreDeletionMark_range env rest st
      | MarkUnmarshalError _ => IgnoreDeletionMark_range env rest st
      | MarkOtherError e => (Some e, st)
      | MarkRead deletionMark =>
          let f := with_deletionMarkMap (ms_filter st)
                     (<[id := deletionMark]> (deletionMarkMap (ms_filter st))) in
          if since_exceeds env (dm_DeletionTime deletionMark) (delay f)
          then IgnoreDeletionMark_range env rest
                 {| ms_filter := f;
                    ms_metas := delete id (ms_metas st);
                    ms_metrics := with_synced (ms_metrics st)
                      (tx_Inc (synced (ms_metrics st)) markedForDeletionMeta) |}
          else IgnoreDeletionMark_range env rest
                 {| ms_filter := f;
                    ms_metas := ms_metas st;
                    ms_metrics := ms_metrics st |}
      end
  end.

(** [IgnoreDeletionMarkFilter.Filter] *)
Definition IgnoreDeletionMarkFilter_Filter (env : MarkEnv)
    (f : IgnoreDeletionMarkFilter) (metas : gmap ulid ptr)
    (m : syncMetrics) : option error * MarkState :=
  IgnoreDeletionMark_range env (map_to_list metas).*1
    {| ms_filter := with_deletionMarkMap f ∅;
       ms_metas := metas;
       ms_metrics := m |}.

(** ** DeduplicateFilter *)

Record DeduplicateFilter : Type := mkDeduplicateFilter {
  duplicateIDs : list ulid
}.

Definition NewDeduplicateFilter : DeduplicateFilter := {| duplicateIDs := [] |}.

Definition DuplicateIDs (f : DeduplicateFilter) : list ulid := duplicateIDs f.

(** Modelled from the spec: [Node] and [NewNode] are declared in a file that is
    not part of the sources at hand.  "Build a forest rooted at a synthetic
    root"; a node embeds the descriptor it was made from ([node.Compaction],
    [node.ULID]) and has a slice of children. *)
Inductive Node : Type := mkNode {
  node_Meta : Meta;
  Children : list Node
}.

Definition NewNode (meta : Meta) : Node := mkNode meta [].

(** [contains(s1, s2)]: every element of [s2] occurs in [s1]. *)
Definition contains (s1 s2 : list ulid) : bool :=
  forallb (λ a, existsb (λ e, ulid_Compare a e =? 0) s1) s2.

(** [addNodeBySources(root, add)].  The Go function updates the tree in place
    and always returns [true]; here the updated tree is returned.  The inner
    function is the [for _, node := range root.Children] loop: it yields the
    updated children when some child takes [add], and [None] when the loop
    ends with [rootNode == nil]. *)
Fixpoint addNodeBySources (root : Node) (add : Node) : Node :=
  let parent_of (node : Node) := Compaction_Sources (node_Meta node) in
  let childSources := Compaction_Sources (node_Meta add) in
  match root with
  | mkNode m children =>
      let fix range (nodes : list Node) : option (list Node) :=
        match nodes with
        | [] => None
        | node :: rest =>
            if contains (parent_of node) childSources
               && contains childSources (parent_of node)
            then Some (mkNode (node_Meta node) (Children node ++ [add]) :: rest)
            else if contains (parent_of node) childSources
            then Some (addNodeBySources node add :: rest)
            else cons node <$> range rest
        end in
      match range children with
      | Some children' => mkNode m children'
      | None => mkNode m (children ++ [add])
      end
  end.

(** The IDs of all proper descendants of a node. *)
Fixpoint descendantIDs (n : Node) : list ulid :=
  match n with
  | mkNode _ children =>
      flat_map (λ c, ULID (node_Meta c) :: descendantIDs c) children
  end.

(** Modelled from the spec: [getNonRootIDs] is not part of the sources at
    hand.  "Every non-root node whose parent is not the synthetic root is a
    duplicate. Collect these IDs." *)
Definition getNonRootIDs (root : Node) : list ulid :=
  flat_map descendantIDs (Children root).

(** The [less] function given to [sort.Slice]. *)
Definition sources_less (a b : Meta) : bool :=
  let ilen := Z.of_nat (length (Compaction_Sources a)) in
  let jlen := Z.of_nat (length (Compaction_Sources b)) in
  if ilen =? jlen then ulid_Compare (ULID a) (ULID b) <? 0
  else ilen - jlen >? 0.

(** [a] may stand before [b] in a slice sorted by [sources_less]. *)
Definition sources_le (a b : Meta) : Prop := sources_less b a = false.

Global Instance sources_le_dec a b : Decision (sources_le a b).
Proof. unfold sources_le. apply _. Defined.

(** [sort.Slice(metaSlice, less)].  [sort.Slice] is not stable; it is modelled
    by a merge sort.  On a slice without ties for [less], as the blocks of a
    bucket make, all sorting algorithms agree ([sort_Slice_unique]). *)
Definition sort_Slice (metaSlice : list Meta) : list Meta :=
  merge_sort sources_le metaSlice.

(** What [filterForResolution] updates: the filter object, [metas] and the
    [synced] gauges. *)
Record DedupState : Type := mkDedupState {
  ds_filter : DeduplicateFilter;
  ds_metas : gmap ulid ptr;
  ds_synced : TxGaugeVec
}.

(** The body of [for _, id := range duplicateULIDs]. *)
Definition dedup_drop (st : DedupState) (id : ulid) : DedupState :=
  {| ds_filter :=
       match ds_metas st !! id with
       | Some _ => {| duplicateIDs := duplicateIDs (ds_filter st) ++ [id] |}
       | None => ds_filter st
       end;
     ds_metas := delete id (ds_metas st);
     ds_synced := tx_Inc (ds_synced st) duplicateMeta |}.

(** [DeduplicateFilter.filterForResolution].  The slice holds the descriptors
    the pointers of the Go slice point to: nothing writes to them while the
    filter runs, and [NewNode] copies them anyway. *)
Definition filterForResolution (root : Node) (metaSlice : list Meta)
    (st : DedupState) : DedupState :=
  let sorted := sort_Slice metaSlice in
  let root := foldl (λ r meta, addNodeBySources r (NewNode meta)) root sorted in
  let duplicateULIDs := getNonRootIDs root in
  foldl dedup_drop st duplicateULIDs.

(** The zero-valued descriptor with [ULID: ulid.MustNew(uint64(0), nil)]. *)
Definition rootMeta : Meta :=
  {| ULID := ulid_MustNew 0; MinTime := 0; MaxTime := 0; Version := 0;
     Compaction_Sources := []; Thanos_Labels := ∅;
     Thanos_Downsample_Resolution := 0; Thanos_Source := "" |}.

(** The first loop of [DeduplicateFilter.Filter]: group by resolution. *)
Definition metasByResolution (h : Heap) (metas : gmap ulid ptr) : gmap Z (list Meta) :=
  foldl (λ acc e,
           match h !! e.2 with
           | Some meta =>
               let res := Thanos_Downsample_Resolution meta in
               <[res := default [] (acc !! res) ++ [meta]]> acc
           | None => acc
           end)
        ∅ (map_to_list metas).

(** [DeduplicateFilter.Filter].  The goroutines, one per resolution, are run
    one after the other, in the iteration order of the map.  The error is
    always nil. *)
Definition DeduplicateFilter_Filter (f : DeduplicateFilter) (h : Heap)
    (metas : gmap ulid ptr) (metrics : syncMetrics) : DedupState :=
  foldl (λ st e, filterForResolution (NewNode rootMeta) e.2 st)
        {| ds_filter := f; ds_metas := metas; ds_synced := synced metrics |}
        (map_to_list (metasByResolution h metas)).

(** ** The object store and the local cache, as [loadMeta] sees them *)

Inductive ExistsResult : Type :=
| ExistsError (e : error)
| ExistsOk (ok : bool).

(** [json.Unmarshal] of the bytes of a [meta.json]. *)
Inductive UnmarshalResult : Type :=
| UnmarshalError (e : error)
| Unmarshaled (m : Meta).

(** [bkt.Get] followed by [ioutil.ReadAll]: an error that
    [bkt.IsObjNotFoundErr] accepts, another error of [Get], an error of
    [ReadAll], or the content. *)
Inductive GetResult : Type :=
| GetObjNotFound (e : error)
| GetError (e : error)
| ReadAllError (e : error)
| GetContent (content : UnmarshalResult).

(** The bucket during one [Fetch]: the block directories [Iter] hands to the
    callback before it ends (names that [IsBlockDir] rejects are left out),
    the error [Iter] ends with, and the answers about each [meta.json]. *)
Record Bucket : Type := mkBucket {
  bkt_Iter : list ulid;
  bkt_Iter_err : option error;
  bkt_Exists : ulid → ExistsResult;
  bkt_Get : ulid → GetResult
}.

(** A block directory under [cacheDir]: a [meta.json] that [metadata.Read]
    accepts, or something it fails on with an error other than
    [os.ErrNotExist].  The best-effort operations on the local directory
    ([os.RemoveAll], [os.MkdirAll], [metadata.Write], [fileutil.ReadDir]) are
    taken to succeed. *)
Inductive DiskEntry : Type :=
| DiskMeta (m : Meta)
| DiskBroken (e : error).

(** The mutable surroundings of the fetcher: the heap of descriptors, the
    local cache directory, and the filter objects that the registered filters
    are methods of. *)
Record World : Type := mkWorld {
  heap : Heap;
  disk : gmap ulid DiskEntry;
  dedupFilter : DeduplicateFilter;
  markFilter : IgnoreDeletionMarkFilter
}.

Definition with_heap (w : World) (h : Heap) : World :=
  {| heap := h; disk := disk w;
     dedupFilter := dedupFilter w; markFilter := markFilter w |}.

Definition with_disk (w : World) (d : gmap ulid DiskEntry) : World :=
  {| heap := heap w; disk := d;
     dedupFilter := dedupFilter w; markFilter := markFilter w |}.

(** ** MetaFetcher *)

(** What a filter leaves behind: its error, and [metas], the metrics and the
    surroundings as it updated them. *)
Record FilterResult : Type := mkFilterResult {
  fr_err : option error;
  fr_metas : gmap ulid ptr;
  fr_metrics : syncMetrics;
  fr_world : World
}.

(** [type MetaFetcherFilter func(ctx, metas, metrics, incompleteView) error] *)
Definition MetaFetcherFilter : Type :=
  gmap ulid ptr → syncMetrics → bool → World → FilterResult.

Record MetaFetcher : Type := mkMetaFetcher {
  concurrency : Z;
  cacheDir : string;
  metrics : syncMetrics;
  filters : list MetaFetcherFilter;
  cached : gmap ulid ptr
}.

(** [NewMetaFetcher]; [os.MkdirAll] of the cache directory is taken to
    succeed. *)
Definition NewMetaFetcher (concurrency : Z) (dir : string)
    (filters : list MetaFetcherFilter) : MetaFetcher :=
  {| concurrency := concurrency;
     cacheDir := if decide (dir = "") then "" else dir +:+ "/meta-syncer";
     metrics := newSyncMetrics;
     filters := filters;
     cached := ∅ |}.

Inductive LoadResult : Type :=
| Loaded (m : ptr)
| LoadFailed (e : error).

(** [MetaFetcher.loadMeta] *)
Definition loadMeta (s : MetaFetcher) (bkt : Bucket) (id : ulid) (w : World)
    : LoadResult * World :=
  match bkt_Exists bkt id with
  | ExistsError err => (LoadFailed (Wrap err "meta.json file exists"), w)
  | ExistsOk false => (LoadFailed ErrorSyncMetaNotFound, w)
  | ExistsOk true =>
      match cached s !! id with
      | Some m => (Loaded m, w)
      | None =>
          (* Best effort load from local dir. *)
          let local : option Meta * World :=
            if decide (cacheDir s = "") then (None, w)
            else match disk w !! id with
                 | Some (DiskMeta m) => (Some m, w)
                 | Some (DiskBroken _) => (None, with_disk w (delete id (disk w)))
                 | None => (None, w)
                 end in
          match local with
          | (Some m, w) =>
              let (p, h) := alloc (heap w) m in (Loaded p, with_heap w h)
          | (None, w) =>
              match bkt_Get bkt id with
              | GetObjNotFound err =>
                  (LoadFailed (Wrap ErrorSyncMetaNotFound "object not found"), w)
              | GetError err => (LoadFailed (Wrap err "get meta file"), w)
              | ReadAllError err => (LoadFailed (Wrap err "read meta file"), w)
              | GetContent (UnmarshalError err) =>
                  (LoadFailed (Wrap ErrorSyncMetaCorrupted "meta.json unmarshal"), w)
              | GetContent (Unmarshaled m) =>
                  if decide (Version m ≠ MetaVersion1)
                  then (LoadFailed (Errorf "unexpected meta file version"), w)
                  else
                    let (p, h) := alloc (heap w) m in
                    (* Best effort cache in local dir. *)
                    let d := if decide (cacheDir s = "") then disk w
                             else <[id := DiskMeta m]> (disk w) in
                    (Loaded p, with_disk (with_heap w h) d)
              end
          end
      end
  end.

(** What the workers of one [Fetch] share. *)
Record Collected : Type := mkCollected {
  c_metas : gmap ulid ptr;
  c_partial : gmap ulid error;
  c_metaErrs : list error;
  c_synced : TxGaugeVec;
  c_world : World
}.

(** The body of [for id := range ch] in a worker.  The workers take the IDs
    off the channel one at a time and merge their results under one mutex;
    they are run here in the order of the channel. *)
Definition worker_body (s : MetaFetcher) (bkt : Bucket) (c : Collected)
    (id : ulid) : Collected :=
  match loadMeta s bkt id (c_world c) with
  | (Loaded meta, w) =>
      {| c_metas := <[id := meta]> (c_metas c); c_partial := c_partial c;
         c_metaErrs := c_metaErrs c; c_synced := c_synced c; c_world := w |}
  | (LoadFailed err, w) =>
      match Cause err with
      | ErrorSyncMetaNotFound =>
          {| c_metas := c_metas c; c_partial := <[id := err]> (c_partial c);
             c_metaErrs := c_metaErrs c;
             c_synced := tx_Inc (c_synced c) noMeta; c_world := w |}
      | ErrorSyncMetaCorrupted =>
          {| c_metas := c_metas c; c_partial := <[id := err]> (c_partial c);
             c_metaErrs := c_metaErrs c;
             c_synced := tx_Inc (c_synced c) corruptedMeta; c_world := w |}
      | _ =>
          {| c_metas := c_metas c; c_partial := c_partial c;
             c_metaErrs := c_metaErrs c ++ [err];
             c_synced := tx_Inc (c_synced c) failedMeta; c_world := w |}
      end
  end.

(** Everything [Fetch] does up to [wg.Wait()]. *)
Definition collect (s : MetaFetcher) (bkt : Bucket) (w : World) : Collected :=
  foldl (worker_body s bkt)
        {| c_metas := ∅; c_partial := ∅; c_metaErrs := [];
           c_synced := ResetTx (synced (metrics s)); c_world := w |}
        (bkt_Iter bkt).

(** [for _, f := range s.filters], with its early return. *)
Fixpoint run_filters (fs : list MetaFetcherFilter) (incompleteView : bool)
    (metas : gmap ulid ptr) (m : syncMetrics) (w : World) : FilterResult :=
  match fs with
  | [] => {| fr_err := None; fr_metas := metas; fr_metrics := m; fr_world := w |}
  | f :: rest =>
      let r := f metas m incompleteView w in
      match fr_err r with
      | Some err => r
      | None => run_filters rest incompleteView (fr_metas r) (fr_metrics r) (fr_world r)
      end
  end.

(** What [Fetch] returns and leaves behind.  A nil map is the empty map. *)
Record FetchResult : Type := mkFetchResult {
  ret_metas : gmap ulid ptr;
  ret_partial : gmap ulid error;
  ret_err : option error;
  ret_fetcher : MetaFetcher;
  ret_world : World
}.

Definition with_state (s : MetaFetcher) (m : syncMetrics) (c : gmap ulid ptr)
    : MetaFetcher :=
  {| concurrency := concurrency s; cacheDir := cacheDir s; metrics := m;
     filters := filters s; cached := c |}.

(** The deferred function of [Fetch]: count a failed sync. *)
Definition deferred (err : option error) (m : syncMetrics) : syncMetrics :=
  match err with
  | Some _ => {| syncs := syncs m; syncFailures := syncFailures m + 1;
                 synced := synced m; modified := modified m |}
  | None => m
  end.

(** [MetaFetcher.Fetch] *)
Definition Fetch (s : MetaFetcher) (bkt : Bucket) (w : World) : FetchResult :=
  let m0 := {| syncs := syncs (metrics s) + 1;
               syncFailures := syncFailures (metrics s);
               synced := synced (metrics s); modified := modified (metrics s) |} in
  let c := collect s bkt w in
  let m1 := with_synced m0 (c_synced c) in
  match bkt_Iter_err bkt with
  | Some err =>
      let err := Wrap err "MetaFetcher: iter bucket" in
      {| ret_metas := ∅; ret_partial := ∅; ret_err := Some err;
         ret_fetcher := with_state s (deferred (Some err) m1) (cached s);
         ret_world := c_world c |}
  | None =>
      let metas := c_metas c in
      let incompleteView := bool_decide (0 < length (c_metaErrs c))%nat in
      (* Only for complete view of blocks update the cache. *)
      let cached' := if incompleteView then cached s else metas in
      let w1 :=
        if incompleteView then c_world c
        else if decide (cacheDir s = "") then c_world c
        else with_disk (c_world c)
               (filter (λ e, is_Some (metas !! e.1)) (disk (c_world c))) in
      let r := run_filters (filters s) incompleteView metas m1 w1 in
      match fr_err r with
      | Some err =>
          let err := Wrap err "filter metas" in
          {| ret_metas := ∅; ret_partial := ∅; ret_err := Some err;
             ret_fetcher := with_state s (deferred (Some err) (fr_metrics r)) cached';
             ret_world := fr_world r |}
      | None =>
          let metas := fr_metas r in
          let m2 := with_synced (fr_metrics r)
                      (Submit (tx_Set (synced (fr_metrics r)) loadedMeta
                                      (Z.of_nat (size metas)))) in
          let m3 := with_modified m2 (Submit (modified m2)) in
          let err := if incompleteView
                     then Some (Wrap (MultiError (c_metaErrs c)) "incomplete view")
                     else None in
          {| ret_metas := metas; ret_partial := c_partial c; ret_err := err;
             ret_fetcher := with_state s (deferred err m3) cached';
             ret_world := fr_world r |}
      end
  end.

(** ** The filters as [MetaFetcherFilter] method values *)

Definition ConsistencyDelay_filter (f : ConsistencyDelayMetaFilter) (now : Z)
    : MetaFetcherFilter :=
  λ metas m _ w,
    let r := ConsistencyDelayMetaFilter_Filter f now (heap w) metas m in
    {| fr_err := None; fr_metas := r.1; fr_metrics := r.2; fr_world := w |}.

Definition ReplicaLabelRemover_filter (r : ReplicaLabelRemover) : MetaFetcherFilter :=
  λ metas m _ w,
    let r := ReplicaLabelRemover_Modify r (heap w) metas m in
    {| fr_err := None; fr_metas := metas; fr_metrics := r.2;
       fr_world := with_heap w r.1 |}.

Definition IgnoreDeletionMark_filter (env : MarkEnv) : MetaFetcherFilter :=
  λ metas m _ w,
    let r := IgnoreDeletionMarkFilter_Filter env (markFilter w) metas m in
    {| fr_err := r.1; fr_metas := ms_metas r.2; fr_metrics := ms_metrics r.2;
       fr_world := {| heap := heap w; disk := disk w;
                      dedupFilter := dedupFilter w;
                      markFilter := ms_filter r.2 |} |}.

Definition Deduplicate_filter : MetaFetcherFilter :=
  λ metas m _ w,
    let r := DeduplicateFilter_Filter (dedupFilter w) (heap w) metas m in
    {| fr_err := None; fr_metas := ds_metas r;
       fr_metrics := with_synced m (ds_synced r);
       fr_world := {| heap := heap w; disk := disk w;
                      dedupFilter := ds_filter r;
                      markFilter := markFilter w |} |}.

(** * Notions used to state the properties *)

(** ** Maps *)

Definition delete_all {V} (ks : list N) (m : gmap N V) : gmap N V :=
  foldl (λ m k, delete k m) m ks.

(** ** ConsistencyDelayMetaFilter *)

(** The entry is one the loop of the filter drops. *)
Definition cd_drops (f : ConsistencyDelayMetaFilter) (now : Z) (h : list Meta)
    (e : N * nat) : bool :=
  match h !! e.2 with
  | Some meta => tooFresh f now e.1 meta
  | None => false
  end.

Definition count_tooFresh (μ : syncMetrics) : syncMetrics :=
  with_synced μ (tx_Inc (synced μ) tooFreshMeta).

(** ** IgnoreDeletionMarkFilter *)



(** ** Loading descriptors *)

(** How the load of one descriptor ends, as the [switch] of the worker tells
    the cases apart. *)
Inductive Outcome : Type := OutLoaded | OutNotFound | OutCorrupted | OutFailed.

Global Instance Outcome_eq_dec : EqDecision Outcome.
Proof. solve_decision. Defined.

Definition classify (r : LoadResult) : Outcome :=
  match r with
  | Loaded _ => OutLoaded
  | LoadFailed err =>
      match Cause err with
      | ErrorSyncMetaNotFound => OutNotFound
      | ErrorSyncMetaCorrupted => OutCorrupted
      | _ => OutFailed
      end
  end.

(** How [loadMeta] of [id] ends when it runs in the surroundings [w]. *)
Definition load_outcome (s : MetaFetcher) (bkt : Bucket) (w : World) (id : N) : Outcome :=
  classify (loadMeta s bkt id w).1.

(** The descriptor the local cache directory holds for [id], if it is
    enabled and holds a readable one. *)
Definition local_hit (s : MetaFetcher) (w : World) (id : N) : option Meta :=
  if decide (cacheDir s = "") then None
  else match disk w !! id with
       | Some (DiskMeta m) => Some m
       | _ => None
       end.

(** How reading [meta.json] from the bucket ends. *)
Definition remote_outcome (bkt : Bucket) (id : N) : Outcome :=
  match bkt_Get bkt id with
  | GetObjNotFound _ => OutNotFound
  | GetError err => classify (LoadFailed (Wrap err ""))
  | ReadAllError err => classify (LoadFailed (Wrap err ""))
  | GetContent (UnmarshalError _) => OutCorrupted
  | GetContent (Unmarshaled m) =>
      if decide (Version m ≠ MetaVersion1) then OutFailed else OutLoaded
  end.

(** The gauge a worker counts an outcome in. *)
Definition outcome_label (o : Outcome) : option string :=
  match o with
  | OutLoaded => None
  | OutNotFound => Some noMeta
  | OutCorrupted => Some corruptedMeta
  | OutFailed => Some failedMeta
  end.

(** The state of the workers before the first block. *)
Definition collect_init (s : MetaFetcher) (w : World) : Collected :=
  {| c_metas := ∅; c_partial := ∅; c_metaErrs := [];
     c_synced := ResetTx (synced (metrics s)); c_world := w |}.

(** How many of the blocks seen end in a given outcome. *)
Definition count_outcome (s : MetaFetcher) (bkt : Bucket) (w : World)
    (o : Outcome) (ids : list N) : nat :=
  length (filter (λ id, load_outcome s bkt w id = o) ids).

(** What holds of the maps of the workers after the blocks [ids]. *)
Record collect_inv (s : MetaFetcher) (bkt : Bucket) (w : World)
    (ids : list N) (c : Collected) : Prop := {
  inv_outcome : ∀ id, load_outcome s bkt (c_world c) id = load_outcome s bkt w id;
  inv_metas : ∀ id, is_Some (c_metas c !! id)
                    ↔ id ∈ ids ∧ load_outcome s bkt w id = OutLoaded;
  inv_partial : ∀ id, is_Some (c_partial c !! id)
                      ↔ id ∈ ids ∧ (load_outcome s bkt w id = OutNotFound
                                    ∨ load_outcome s bkt w id = OutCorrupted);
  inv_errs : length (c_metaErrs c) = count_outcome s bkt w OutFailed ids;
  inv_synced : ∀ o label, outcome_label o = Some label →
                 tx_get (c_synced c) label = Z.of_nat (count_outcome s bkt w o ids)
}.

(** ** Fetch *)

(** A filter that only takes entries out of [metas]. *)
Definition shrinking (f : MetaFetcherFilter) : Prop :=
  ∀ metas m incompleteView w, fr_metas (f metas m incompleteView w) ⊆ metas.

(** [Fetch] handed its maps back: it returned no error, or the error that
    tells of an incomplete view. *)
Definition returned_maps (r : FetchResult) : Prop :=
  ret_err r = None
  ∨ ∃ errs, ret_err r = Some (Wrap (MultiError errs) "incomplete view").


(** ** DeduplicateFilter *)

(** The loop over the children in [addNodeBySources], as a function of its
    own. *)
Fixpoint add_range (add : Node) (nodes : list Node) : option (list Node) :=
  match nodes with
  | [] => None
  | node :: rest =>
      if contains (Compaction_Sources (node_Meta node))
                  (Compaction_Sources (node_Meta add))
         && contains (Compaction_Sources (node_Meta add))
                     (Compaction_Sources (node_Meta node))
      then Some (mkNode (node_Meta node) (Children node ++ [add]) :: rest)
      else if contains (Compaction_Sources (node_Meta node))
                       (Compaction_Sources (node_Meta add))
      then Some (addNodeBySources node add :: rest)
      else cons node <$> add_range add rest
  end.

(** The descriptors of all proper descendants of a node. *)
Fixpoint subtree_metas (n : Node) : list Meta :=
  match n with
  | mkNode _ children =>
      flat_map (λ c, node_Meta c :: subtree_metas c) children
  end.

(** The descriptors below the children of the root. *)
Definition nonroot_metas (root : Node) : list Meta :=
  flat_map subtree_metas (Children root).

(** The tree after the insertion of a slice, in order. *)
Definition build (root : Node) (metaSlice : list Meta) : Node :=
  foldl (λ r meta, addNodeBySources r (NewNode meta)) root metaSlice.

(** The sources of [m] are among the sources of [c]. *)
Definition covers (c m : Meta) : bool :=
  contains (Compaction_Sources c) (Compaction_Sources m).

(** The descriptors of a slice that some descriptor standing before them, in
    the slice or in [seen], covers. *)
Fixpoint dup_metas (seen : list Meta) (metaSlice : list Meta) : list Meta :=
  match metaSlice with
  | [] => []
  | m :: rest =>
      (if existsb (λ c, covers c m) seen then [m] else [])
      ++ dup_metas (seen ++ [m]) rest
  end.

(** The children of the root cover exactly what the descriptors inserted so
    far cover. *)
Definition roots_cover (root : Node) (seen : list Meta) : Prop :=
  ∀ m, existsb (λ c, covers c m) (node_Meta <$> Children root)
       = existsb (λ c, covers c m) seen.

(** The IDs that [filterForResolution] goes through, for all resolutions. *)
Definition all_duplicateULIDs (h : Heap) (metas : gmap ulid ptr) : list ulid :=
  flat_map (λ e, getNonRootIDs (build (NewNode rootMeta) (sort_Slice e.2)))
           (map_to_list (metasByResolution h metas)).

(** The IDs the loop over [duplicateULIDs] appends to [duplicateIDs]. *)
Fixpoint appended_ids (ids : list ulid) (metas : gmap ulid ptr) : list ulid :=
  match ids with
  | [] => []
  | id :: rest =>
      (if metas !! id is Some _ then [id] else []) ++ appended_ids rest (delete id metas)
  end.

(** Every entry of [metas] points to a descriptor that carries the ID it is
    filed under. *)
Definition metas_keyed (h : Heap) (metas : gmap ulid ptr) : Prop :=
  ∀ id p, metas !! id = Some p → ∃ m, h !! p = Some m ∧ ULID m = id.

(** [c] makes [m] a duplicate: same resolution, sorted before it, and covering
    its sources. *)
Definition dominates (c m : Meta) : bool :=
  (Thanos_Downsample_Resolution c =? Thanos_Downsample_Resolution m)
  && sources_less c m && covers c m.

(** Some block of [metas] dominates [m]. *)
Definition dominated (h : Heap) (metas : gmap ulid ptr) (m : Meta) : bool :=
  existsb (λ e, match h !! e.2 with
                | Some c => dominates c m
                | None => false
                end) (map_to_list metas).

(** [s1] is a strict subset of [s2]. *)
Definition strict_subset (s1 s2 : list ulid) : Prop :=
  (∀ x, x ∈ s1 → x ∈ s2) ∧ ∃ y, y ∈ s2 ∧ y ∉ s1.

(** The descriptors the entries of [metas] point to. *)
Definition derefs (h : Heap) (metas : gmap ulid ptr) : list Meta :=
  omap (λ e, h !! e.2) (map_to_list metas).

(** [c] outranks [m], in terms of the source lists as sets: [c] has the
    resolution of [m], every source of [m] is a source of [c], and [c] lists
    more sources than [m], or as many and has the smaller ULID. *)
Definition outranks (c m : Meta) : Prop :=
  Thanos_Downsample_Resolution c = Thanos_Downsample_Resolution m
  ∧ (∀ x, x ∈ Compaction_Sources m → x ∈ Compaction_Sources c)
  ∧ ((length (Compaction_Sources m) < length (Compaction_Sources c))%nat
     ∨ (length (Compaction_Sources c) = length (Compaction_Sources m)
        ∧ (ULID c < ULID m)%N)).

(** Some block of [metas] outranks [m]. *)
Definition outranked (h : Heap) (metas : gmap ulid ptr) (m : Meta) : Prop :=
  ∃ idC pC C, metas !! idC = Some pC ∧ h !! pC = Some C ∧ outranks C m.




(** * Sample inputs *)

Definition future_meta : Meta :=
  {| ULID := ulid_MustNew 2000; MinTime := 0; MaxTime := 0; Version := 1;
     Compaction_Sources := [ulid_MustNew 2000]; Thanos_Labels := ∅;
     Thanos_Downsample_Resolution := 0; Thanos_Source := "sidecar" |}.

Definition mark_env_example : MarkEnv :=
  {| ReadDeletionMark := λ id,
       if decide (id = 1%N) then MarkRead {| dm_ID := 1; dm_DeletionTime := 50; dm_Version := 1 |}
       else if decide (id = 2%N) then MarkRead {| dm_ID := 2; dm_DeletionTime := 990; dm_Version := 1 |}
       else if decide (id = 3%N) then MarkUnmarshalError (ExternalError "unexpected end of JSON input")
       else MarkNotFound;
     since_exceeds := λ t d, bool_decide (d < (1000 - t) * 1000000000) |}.

Definition mark_metas_example : gmap N nat :=
  list_to_map [(1%N, 0%nat); (2%N, 1%nat); (3%N, 2%nat); (4%N, 3%nat)].

(** A block as a sidecar uploads it: one source, itself, and the external
    labels [ext1] and [replica]. *)
Definition sample_meta (id : N) (version : Z) : Meta :=
  {| ULID := id; MinTime := 0; MaxTime := 7200000; Version := version;
     Compaction_Sources := [id];
     Thanos_Labels := list_to_map [("ext1", "value1"); ("replica", "1")];
     Thanos_Downsample_Resolution := 0; Thanos_Source := "sidecar" |}.

(** A bucket with four block directories: 1 and 2 hold a descriptor, 3 holds
    no [meta.json], the [meta.json] of 4 is not JSON. *)
Definition sample_bucket : Bucket :=
  {| bkt_Iter := [1; 2; 3; 4]%N;
     bkt_Iter_err := None;
     bkt_Exists := λ id, ExistsOk (bool_decide (id ≠ 3%N));
     bkt_Get := λ id,
       if decide (id = 4%N)
       then GetContent (UnmarshalError (ExternalError "invalid character"))
       else GetContent (Unmarshaled (sample_meta id 1)) |}.

(** A bucket with a block, 5, whose descriptor has version 2. *)
Definition version2_bucket : Bucket :=
  {| bkt_Iter := [1; 5]%N;
     bkt_Iter_err := None;
     bkt_Exists := λ id, ExistsOk true;
     bkt_Get := λ id,
       GetContent (Unmarshaled (sample_meta id (if decide (id = 5%N) then 2 else 1))) |}.

(** A bucket whose [Exists] times out on block 2. *)
Definition flaky_bucket : Bucket :=
  {| bkt_Iter := [1; 2]%N;
     bkt_Iter_err := None;
     bkt_Exists := λ id,
       if decide (id = 2%N) then ExistsError (ExternalError "i/o timeout")
       else ExistsOk true;
     bkt_Get := λ id, GetContent (Unmarshaled (sample_meta id 1)) |}.

(** The enumeration hands out blocks 1 and 3 and then fails; block 3 holds no
    [meta.json]. *)
Definition cancelled_bucket : Bucket :=
  {| bkt_Iter := [1; 3]%N;
     bkt_Iter_err := Some (ExternalError "context canceled");
     bkt_Exists := λ id, ExistsOk (bool_decide (id ≠ 3%N));
     bkt_Get := λ id, GetContent (Unmarshaled (sample_meta id 1)) |}.

Definition sample_world : World :=
  {| heap := []; disk := ∅;
     dedupFilter := NewDeduplicateFilter;
     markFilter := NewIgnoreDeletionMarkFilter 0 |}.

Definition sample_filters : list MetaFetcherFilter :=
  [ReplicaLabelRemover_filter {| replicaLabels := ["replica"; "rule_replica"] |};
   Deduplicate_filter].

Definition sample_fetcher : MetaFetcher := NewMetaFetcher 4 "" sample_filters.

(** Four blocks for the deduplication: 1 is the compaction of the sources 10
    and 11, 2 holds source 10 alone, 3 holds source 12, and 4 is a 5-minute
    downsampling of all three sources. *)
Definition dedup_block (id : N) (sources : list N) (res : Z) : Meta :=
  {| ULID := id; MinTime := 0; MaxTime := 7200000; Version := 1;
     Compaction_Sources := sources; Thanos_Labels := ∅;
     Thanos_Downsample_Resolution := res; Thanos_Source := "compactor" |}.

Definition dedup_heap : list Meta :=
  [dedup_block 1 [10; 11]%N 0; dedup_block 2 [10]%N 0;
   dedup_block 3 [12]%N 0; dedup_block 4 [10; 11; 12]%N 300000].

Definition dedup_metas : gmap N nat :=
  list_to_map [(1%N, 0%nat); (2%N, 1%nat); (3%N, 2%nat); (4%N, 3%nat)].

(** A filter that files the descriptor at address 0 under the ID 3 as well. *)
Definition adding_filter : MetaFetcherFilter :=
  λ metas m _ w,
    {| fr_err := None; fr_metas := <[3%N := 0%nat]> metas;
       fr_metrics := m; fr_world := w |}.



(** Block 1 lists its one source twice; block 2 holds it and another one. *)
Definition repeated_heap : list Meta :=
  [dedup_block 1 [10; 10]%N 0; dedup_block 2 [10; 11]%N 0].

(** The descriptor filed under the ID 1 carries the ULID 7. *)
Definition miskeyed_heap : list Meta :=
  [dedup_block 7 [10]%N 0; dedup_block 2 [10; 11]%N 0].

Definition two_metas : gmap N nat :=
  list_to_map [(1%N, 0%nat); (2%N, 1%nat)].



(** * Further parts of the fetcher *)

(** ** TimePartitionMetaFilter *)

(** Modelled from the spec: [model.TimeOrDurationValue] is not part of the
    sources at hand.  "Config bounds are either absolute instants or
    durations relative to the current time, resolved at each filter
    invocation."  The filter is given the two instants
    [f.minTime.PrometheusTimestamp()] and [f.maxTime.PrometheusTimestamp()]
    resolve to during the call. *)
Record TimePartitionMetaFilter : Type := mkTimePartition {
  minTime : Z;
  maxTime : Z
}.

(** The condition of the [if] in [TimePartitionMetaFilter.Filter]. *)
Definition inTimePartition (f : TimePartitionMetaFilter) (m : Meta) : bool :=
  (MaxTime m >=? minTime f) && (MinTime m <=? maxTime f).

(** One iteration of [for id, m := range metas]. *)
Definition TimePartition_body (f : TimePartitionMetaFilter) (h : Heap)
    (st : gmap ulid ptr * syncMetrics) (e : ulid * ptr)
    : gmap ulid ptr * syncMetrics :=
  match h !! e.2 with
  | Some m =>
      if inTimePartition f m then st
      else (delete e.1 st.1,
            with_synced st.2 (tx_Inc (synced st.2) timeExcludedMeta))
  | None => st
  end.

(** [TimePartitionMetaFilter.Filter]; the error is always nil. *)
Definition TimePartitionMetaFilter_Filter (f : TimePartitionMetaFilter)
    (h : Heap) (metas : gmap ulid ptr) (metrics : syncMetrics)
    : gmap ulid ptr * syncMetrics :=
  foldl (TimePartition_body f h) (metas, metrics) (map_to_list metas).


(** ** LabelShardedMetaFilter *)

(** [labels.Label] *)
Record Label : Type := mkLabel {
  Name : string;
  Value : string
}.

Definition blockIDLabel : string := "__block_id".

(** The filter with what it takes from the libraries it is built on:
    [relabel_Process lbls] stands for
    [relabel.Process(lbls, f.relabelConfig...)] and [ulid_String] for
    [id.String()]. *)
Record LabelShardedMetaFilter : Type := mkLabelSharded {
  relabel_Process : list Label → list Label;
  ulid_String : ulid → string
}.

(** The label vector [lbls] the filter builds for a block: the block ID
    first, then the external labels in the iteration order of the map. *)
Definition shard_labels (f : LabelShardedMetaFilter) (id : ulid) (m : Meta)
    : list Label :=
  {| Name := blockIDLabel; Value := ulid_String f id |}
  :: ((λ kv, {| Name := kv.1; Value := kv.2 |}) <$> map_to_list (Thanos_Labels m)).

(** One iteration of [for id, m := range metas]. *)
Definition LabelSharded_body (f : LabelShardedMetaFilter) (h : Heap)
    (st : gmap ulid ptr * syncMetrics) (e : ulid * ptr)
    : gmap ulid ptr * syncMetrics :=
  match h !! e.2 with
  | Some m =>
      if bool_decide (length (relabel_Process f (shard_labels f e.1 m)) = 0%nat)
      then (delete e.1 st.1,
            with_synced st.2 (tx_Inc (synced st.2) labelExcludedMeta))
      else st
  | None => st
  end.

(** [LabelShardedMetaFilter.Filter]; the error is always nil. *)
Definition LabelShardedMetaFilter_Filter (f : LabelShardedMetaFilter)
    (h : Heap) (metas : gmap ulid ptr) (metrics : syncMetrics)
    : gmap ulid ptr * syncMetrics :=
  foldl (LabelSharded_body f h) (metas, metrics) (map_to_list metas).

(** ** Notions used to state the further properties *)

(** Counting one block in a gauge of [synced]. *)
Definition count_in (label : string) : syncMetrics → syncMetrics :=
  λ μ, with_synced μ (tx_Inc (synced μ) label).

(** The entries the loop of [TimePartitionMetaFilter.Filter] drops. *)
Definition tp_drops (f : TimePartitionMetaFilter) (h : Heap)
    (e : ulid * ptr) : bool :=
  match h !! e.2 with
  | Some m => negb (inTimePartition f m)
  | None => false
  end.

(** The entries the loop of [LabelShardedMetaFilter.Filter] drops. *)
Definition ls_drops (f : LabelShardedMetaFilter) (h : Heap)
    (e : ulid * ptr) : bool :=
  match h !! e.2 with
  | Some m => bool_decide (length (relabel_Process f (shard_labels f e.1 m)) = 0%nat)
  | None => false
  end.

(** Every entry of [metas] points to a descriptor in the heap. *)
Definition metas_live (h : Heap) (metas : gmap ulid ptr) : Prop :=
  ∀ id p, metas !! id = Some p → is_Some (h !! p).

(** The block has a mark that parsed and whose delay is over. *)
Definition mark_expired (env : MarkEnv) (d : Z) (id : ulid) : bool :=
  match ReadDeletionMark env id with
  | MarkRead dm => since_exceeds env (dm_DeletionTime dm) d
  | _ => false
  end.

(** Reading the mark of the block fails with an error the filter gives up
    on. *)
Definition mark_fails (env : MarkEnv) (id : ulid) : bool :=
  match ReadDeletionMark env id with
  | MarkOtherError _ => true
  | _ => false
  end.

(** The label map of a descriptor once [delete(labels, replicaLabel)] has run
    for every label of the list. *)
Definition strip_labels (ls : list string) (l : gmap string string)
    : gmap string string :=
  foldl (λ l k, delete k l) l ls.

Definition strip_meta (ls : list string) (m : Meta) : Meta :=
  set_Thanos_Labels m (strip_labels ls (Thanos_Labels m)).

(** The number of external labels the descriptors of the heap hold. *)
Definition total_labels (h : Heap) : nat :=
  sum_list ((λ m, size (Thanos_Labels m)) <$> h).

(** What the gauge [modified] shows for [replicaRemovedMeta]. *)
Definition removed (μ : syncMetrics) : Z :=
  tx_get (modified μ) replicaRemovedMeta.

(** What a gauge vector shows to a scrape: the value of the active copy. *)
Definition published (g : TxGaugeVec) (label : string) : Z :=
  default 0 (tx_active g !! label).

(** A filter that leaves no fewer descriptors in the heap than it found. *)
Definition heap_growing (f : MetaFetcherFilter) : Prop :=
  ∀ metas m incompleteView w,
    (length (heap w) ≤ length (heap (fr_world (f metas m incompleteView w))))%nat.

(** A filter that leaves the descriptors and the local cache directory as
    they are. *)
Definition keeps_store (f : MetaFetcherFilter) : Prop :=
  ∀ metas m incompleteView w,
    heap (fr_world (f metas m incompleteView w)) = heap w
    ∧ disk (fr_world (f metas m incompleteView w)) = disk w.

(** The surroundings after the best-effort cleanup of the local cache
    directory that follows a complete view. *)
Definition cleanup (s : MetaFetcher) (c : Collected) : World :=
  if decide (cacheDir s = "") then c_world c
  else with_disk (c_world c)
         (filter (λ e, is_Some (c_metas c !! e.1)) (disk (c_world c))).

(** * The rate-limited logger ([pkg/logging/limit.go]) *)

(** A value handed to [Log] as an [interface{}]: a string, or a value of some
    other dynamic type (never equal to a string, and no operand for
    [.(string)]). *)
Inductive iface : Type :=
| IString (s : string)
| IUint32 (n : Z)
| IOther (tag : nat).

Definition messageKey : string := "msg".

Definition uint32 (z : Z) : Z := z mod 2 ^ 32.

Record occurrence : Type := mkOccurrence {
  lastSeen : Z;
  current : Z
}.

(** [rateLimitedLogger].  The map owns the only pointers to the occurrences,
    so it holds them by value.  The wrapped [logger] is given by the error it
    returns for a line, and by the lines it has been handed so far; a line
    is the key-values bound by [log.With] and the key-values of [Log].  The
    answers of [limiter.Allow()] depend on the clock and are an input of each
    call. *)
Record rateLimitedLogger : Type := mkRateLimitedLogger {
  logger_Log : list iface → list iface → option error;
  occurrences : gmap string occurrence;
  written : list (list iface * list iface)
}.

(** [Limit]: the logger as it is created. *)
Definition Limit (logger : list iface → list iface → option error)
    : rateLimitedLogger :=
  {| logger_Log := logger; occurrences := ∅; written := [] |}.

(** How [for i := range keyvals] ends: without a message, in the panic of
    [keyvals[i+1].(string)] (index out of range, or not a string), or with
    the message. *)
Inductive Scan : Type :=
| ScanNone
| ScanPanic
| ScanMsg (msg : string).

Definition is_messageKey (v : option iface) : bool :=
  match v with
  | Some (IString s) => String.eqb s messageKey
  | _ => false
  end.

(** The loop, over the indices that are left. *)
Fixpoint scan_from (keyvals : list iface) (indices : list nat) : Scan :=
  match indices with
  | [] => ScanNone
  | i :: rest =>
      if (i mod 2 =? 0)%nat && is_messageKey (keyvals !! i)
      then match keyvals !! (i + 1)%nat with
           | Some (IString s) => ScanMsg s
           | _ => ScanPanic
           end
      else scan_from keyvals rest
  end.

Definition scan (keyvals : list iface) : Scan :=
  scan_from keyvals (seq 0 (length keyvals)).

(** The update of [r.occurrences] in the loop. *)
Definition count_occurrence (occ : gmap string occurrence) (msg : string)
    : gmap string occurrence :=
  match occ !! msg with
  | Some v => <[msg := {| lastSeen := lastSeen v; current := uint32 (current v + 1) |}]> occ
  | None => <[msg := {| lastSeen := 0; current := 1 |}]> occ
  end.

Inductive LogResult : Type :=
| LogPanic
| LogReturn (err : option error).

(** [rateLimitedLogger.Log]; [allow] is the answer of [r.limiter.Allow()]. *)
Definition Log (r : rateLimitedLogger) (allow : bool) (keyvals : list iface)
    : LogResult * rateLimitedLogger :=
  match scan keyvals with
  | ScanPanic => (LogPanic, r)
  | sc =>
      let msg := match sc with ScanMsg s => s | _ => "" end in
      let occ := match sc with
                 | ScanMsg s => count_occurrence (occurrences r) s
                 | _ => occurrences r
                 end in
      if allow then
        if decide (msg ≠ "") then
          match occ !! msg with
          | Some o =>
              let ctx := [IString "occurred"; IUint32 (current o);
                          IString "since last seen";
                          IUint32 (uint32 (current o - lastSeen o))] in
              (LogReturn (logger_Log r ctx keyvals),
               {| logger_Log := logger_Log r;
                  occurrences := <[msg := {| lastSeen := current o;
                                             current := current o |}]> occ;
                  written := written r ++ [(ctx, keyvals)] |})
          | None => (LogPanic, r)
          end
        else
          (LogReturn (logger_Log r [] keyvals),
           {| logger_Log := logger_Log r; occurrences := occ;
              written := written r ++ [([], keyvals)] |})
      else
        (LogReturn None,
         {| logger_Log := logger_Log r; occurrences := occ;
            written := written r |})
  end.

(** A sequence of calls of [Log], each with the answer of the limiter; a
    panic ends the program. *)
Fixpoint Log_all (r : rateLimitedLogger) (calls : list (bool * list iface))
    : option rateLimitedLogger :=
  match calls with
  | [] => Some r
  | call :: rest =>
      match Log r call.1 call.2 with
      | (LogPanic, _) => None
      | (LogReturn _, r') => Log_all r' rest
      end
  end.

(** The first key-value pair with the key [msg], looked for pair by pair. *)
Fixpoint first_msg (keyvals : list iface) : Scan :=
  match keyvals with
  | [] => ScanNone
  | [k] => if is_messageKey (Some k) then ScanPanic else ScanNone
  | k :: v :: rest =>
      if is_messageKey (Some k)
      then match v with
           | IString s => ScanMsg s
           | _ => ScanPanic
           end
      else first_msg rest
  end.

(** The calls that carry the message. *)
Definition carries (msg : string) (call : bool * list iface) : bool :=
  match scan call.2 with
  | ScanMsg s => String.eqb s msg
  | _ => false
  end.

Definition count_msg (msg : string) (calls : list (bool * list iface)) : Z :=
  Z.of_nat (length (filter (λ call, carries msg call = true) calls)).

(** The calls that carry the message since the last one of them that the
    limiter let through. *)
Definition since_msg (msg : string) (calls : list (bool * list iface)) : Z :=
  foldl (λ k call, if carries msg call then (if call.1 then 0 else k + 1) else k)
        0 calls.

(** * Properties *)

(** ** Gauges *)

Lemma tx_get_Inc g l l' :
  tx_get (tx_Inc g l) l' = tx_get g l' + (if decide (l = l') then 1 else 0).
Proof.
  unfold tx_Inc, tx_Add, tx_get. simpl.
  rewrite lookup_insert. case_decide; simplify_eq; simpl; [done | lia].
Qed.

Lemma tx_get_iter_Inc g l l' n :
  tx_get (Nat.iter n (λ g, tx_Inc g l) g) l'
  = tx_get g l' + (if decide (l = l') then Z.of_nat n else 0).
Proof.
  induction n as [|n IH]; [case_decide; simpl; lia|].
  rewrite Nat.iter_succ, tx_get_Inc, IH. case_decide; lia.
Qed.

(** ** Deleting a list of keys from a map *)


Lemma lookup_delete_all {V} (ks : list N) (m : gmap N V) k :
  delete_all ks m !! k = if decide (k ∈ ks) then None else m !! k.
Proof.
  unfold delete_all. revert m. induction ks as [|a ks IH]; intros m; cbn [foldl].
  - case_decide as H; [by inversion H | done].
  - rewrite IH. destruct (decide (k = a)) as [->|Hne].
    + rewrite lookup_delete_eq. rewrite (decide_True (P := a ∈ a :: ks)) by left.
      by case_decide.
    + rewrite lookup_delete_ne by done.
      case_decide as H1; case_decide as H2; try done.
      * exfalso. apply H2. by right.
      * apply elem_of_cons in H2 as [?|?]; done.
Qed.

Lemma size_delete_all {V} (ks : list N) (m : gmap N V) :
  NoDup ks → (∀ k, k ∈ ks → is_Some (m !! k)) →
  (size (delete_all ks m) + length ks = size m)%nat.
Proof.
  unfold delete_all. revert m. induction ks as [|a ks IH]; intros m Hnd Hin; simpl.
  - lia.
  - apply NoDup_cons in Hnd as [Ha Hnd].
    destruct (Hin a) as [x Hx]; [by left|].
    assert (size m ≠ 0)%nat as Hnz.
    { intros H0. apply map_size_empty_inv in H0. subst m.
      by rewrite lookup_empty in Hx. }
    pose proof (map_size_delete_Some a m (ltac:(eauto))) as Hs.
    rewrite <- (IH (delete a m)) in Hs; [lia | done |].
    intros k Hk. rewrite lookup_delete_ne; [apply Hin; by right|].
    intros ->. done.
Qed.

(** ** Loops that drop entries and count them

    The loops of the filters that range over [metas], drop the entries a test
    selects and count each drop in a gauge, all have the same shape. *)
Section drop_loop.
Context (drops : N * nat → bool) (g : syncMetrics → syncMetrics).
Context (body : gmap N nat * syncMetrics → N * nat → gmap N nat * syncMetrics).
Hypothesis body_eq : ∀ st e,
  body st e = if drops e then (delete e.1 st.1, g st.2) else st.

Lemma drop_loop_fold kvs st :
  foldl body st kvs
  = (delete_all (filter (λ e, drops e) kvs).*1 st.1,
     Nat.iter (length (filter (λ e, drops e) kvs)) g st.2).
Proof.
  revert st. induction kvs as [|e kvs IH]; intros [m μ]; [done|].
  cbn [foldl]. rewrite IH, body_eq.
  destruct (drops e) eqn:He.
  - rewrite filter_cons_True by (by rewrite He).
    rewrite fmap_cons. cbn [length fst snd].
    by rewrite Nat.iter_succ_r.
  - rewrite filter_cons_False; [done|]. rewrite He. by intros [].
Qed.

Lemma drop_loop_lookup (metas : gmap N nat) μ id :
  (foldl body (metas, μ) (map_to_list metas)).1 !! id
  = match metas !! id with
    | Some p => if drops (id, p) then None else Some p
    | None => None
    end.
Proof.
  rewrite drop_loop_fold. simpl. rewrite lookup_delete_all.
  case_decide as Hin.
  - apply list_elem_of_fmap in Hin as ([k p] & -> & Hin).
    apply list_elem_of_filter in Hin as [Hd Hin].
    apply elem_of_map_to_list in Hin. simpl. rewrite Hin.
    by destruct (drops (k, p)).
  - destruct (metas !! id) as [p|] eqn:Hp; [|done].
    destruct (drops (id, p)) eqn:Hd; [|done].
    exfalso. apply Hin. apply list_elem_of_fmap. exists (id, p). split; [done|].
    apply list_elem_of_filter. split; [by rewrite Hd|].
    by apply elem_of_map_to_list.
Qed.

Lemma drop_loop_count (metas : gmap N nat) μ :
  (foldl body (metas, μ) (map_to_list metas)).2
  = Nat.iter (size metas - size (foldl body (metas, μ) (map_to_list metas)).1) g μ.
Proof.
  rewrite drop_loop_fold. simpl. f_equal.
  set (ks := (filter (λ e, drops e) (map_to_list metas)).*1).
  assert (size (delete_all ks metas) + length ks = size metas)%nat as Hs.
  { apply size_delete_all.
    - subst ks. eapply NoDup_fmap_fst.
      + intros k x y Hx Hy.
        apply list_elem_of_filter in Hx as [_ Hx], Hy as [_ Hy].
        apply elem_of_map_to_list in Hx, Hy. congruence.
      + apply NoDup_filter, NoDup_map_to_list.
    - intros k Hk. subst ks.
      apply list_elem_of_fmap in Hk as ([k' p] & -> & Hin).
      apply list_elem_of_filter in Hin as [_ Hin].
      apply elem_of_map_to_list in Hin. eauto. }
  subst ks. rewrite length_fmap in Hs. lia.
Qed.
End drop_loop.

(** ** ConsistencyDelayMetaFilter *)



Lemma ConsistencyDelay_body_eq f now h st e :
  ConsistencyDelay_body f now h st e
  = if cd_drops f now h e then (delete e.1 st.1, count_tooFresh st.2) else st.
Proof.
  unfold ConsistencyDelay_body, cd_drops.
  destruct (h !! e.2) as [meta|]; [|done]. by destruct (tooFresh f now e.1 meta).
Qed.

Lemma ConsistencyDelay_Filter_lookup f now h (metas : gmap N nat) μ id :
  (ConsistencyDelayMetaFilter_Filter f now h metas μ).1 !! id
  = match metas !! id with
    | Some p => if cd_drops f now h (id, p) then None else Some p
    | None => None
    end.
Proof.
  unfold ConsistencyDelayMetaFilter_Filter.
  apply (drop_loop_lookup _ _ _ (ConsistencyDelay_body_eq f now h)).
Qed.

Lemma synced_iter_count n label μ :
  synced (Nat.iter n (λ μ, with_synced μ (tx_Inc (synced μ) label)) μ)
  = Nat.iter n (λ g, tx_Inc g label) (synced μ).
Proof. induction n as [|n IH]; [done|]. rewrite !Nat.iter_succ. simpl. by rewrite IH. Qed.

Lemma ConsistencyDelay_Filter_count f now h (metas : gmap N nat) μ label :
  let r := ConsistencyDelayMetaFilter_Filter f now h metas μ in
  tx_get (synced r.2) label
  = tx_get (synced μ) label
    + (if decide (tooFreshMeta = label) then Z.of_nat (size metas - size r.1) else 0).
Proof.
  intros r. subst r. unfold ConsistencyDelayMetaFilter_Filter.
  rewrite (drop_loop_count _ _ _ (ConsistencyDelay_body_eq f now h)) at 1.
  unfold count_tooFresh. rewrite synced_iter_count. apply tx_get_iter_Inc.
Qed.

Lemma ulid_Time_range id : 0 ≤ ulid_Time id < 2 ^ 48.
Proof.
  unfold ulid_Time. split; [apply N2Z.is_nonneg|].
  assert ((id / 2 ^ 80) mod 2 ^ 48 < 2 ^ 48)%N as H by (by apply N.mod_lt).
  revert H. generalize ((id / 2 ^ 80) mod 2 ^ 48)%N. intros n H.
  change (2 ^ 48) with (Z.of_N (2 ^ 48)). by apply N2Z.inj_lt.
Qed.

Lemma delay_ms_range d :
  0 ≤ d < 2 ^ 63 → 0 ≤ d ÷ Millisecond < 2 ^ 63.
Proof.
  intros Hd. unfold Millisecond. rewrite Z.quot_div_nonneg by lia. split.
  - apply Z.div_pos; lia.
  - apply Z.div_lt_upper_bound; lia.
Qed.

(** The unsigned subtraction of a later from an earlier instant wraps. *)
Lemma uint64_sub_future now t :
  0 ≤ now < 2 ^ 64 → now < t < 2 ^ 64 →
  uint64 (uint64 now - t) = 2 ^ 64 - (t - now).
Proof.
  intros Hn Ht. unfold uint64. rewrite (Z.mod_small now) by lia.
  replace (now - t) with ((2 ^ 64 - (t - now)) + (-1) * 2 ^ 64) by lia.
  rewrite Z.mod_add by lia. apply Z.mod_small. lia.
Qed.

Lemma delay_ms_nonneg d :
  - Millisecond < d < 2 ^ 63 → 0 ≤ d ÷ Millisecond < 2 ^ 63.
Proof.
  intros Hd. destruct (Z.le_gt_cases 0 d) as [Hpos|Hneg].
  - apply delay_ms_range. lia.
  - replace d with (- (- d)) by lia. rewrite Z.quot_opp_l by done.
    rewrite Z.quot_small by lia. lia.
Qed.

Lemma tooFresh_future f now id meta :
  - Millisecond < consistencyDelay f < 2 ^ 63 → 0 ≤ now < 2 ^ 64 →
  now < ulid_Time id →
  tooFresh f now id meta = false.
Proof.
  intros Hd Hn Ht. unfold tooFresh.
  pose proof (ulid_Time_range id) as Hr.
  pose proof (delay_ms_nonneg _ Hd) as Hms.
  rewrite uint64_sub_future by lia.
  unfold uint64. rewrite (Z.mod_small (_ ÷ _)) by lia.
  rewrite bool_decide_eq_false_2; [done|]. lia.
Qed.

(** For a block that is not stamped in the future, the test is the one the
    filter is meant to make. *)
Lemma tooFresh_past f now id meta :
  0 ≤ consistencyDelay f < 2 ^ 63 → 0 ≤ now < 2 ^ 64 → ulid_Time id ≤ now →
  tooFresh f now id meta = true
  ↔ now - consistencyDelay f ÷ Millisecond < ulid_Time id
    ∧ Thanos_Source meta ≠ BucketRepairSource
    ∧ Thanos_Source meta ≠ CompactorSource
    ∧ Thanos_Source meta ≠ CompactorRepairSource.
Proof.
  intros Hd Hn Ht. unfold tooFresh.
  pose proof (ulid_Time_range id) as Hr.
  pose proof (delay_ms_range _ Hd) as Hms.
  unfold uint64. rewrite (Z.mod_small now) by lia.
  rewrite (Z.mod_small (now - _)) by lia.
  rewrite (Z.mod_small (_ ÷ _)) by lia.
  rewrite !andb_true_iff, !negb_true_iff, bool_decide_eq_true.
  rewrite !String.eqb_neq. intuition lia.
Qed.

(** X5.  On blocks that are not stamped in the future the filter does what it is
    meant to: it removes the blocks newer than [now - consistencyDelay] that
    do not come from a trusted source, and keeps the others as they are. *)
Lemma ConsistencyDelay_Filter_past f now h (metas : gmap N nat) μ id p meta :
  0 ≤ consistencyDelay f < 2 ^ 63 → 0 ≤ now < 2 ^ 64 →
  metas !! id = Some p → h !! p = Some meta → ulid_Time id ≤ now →
  (ConsistencyDelayMetaFilter_Filter f now h metas μ).1 !! id = None
  ↔ now - consistencyDelay f ÷ Millisecond < ulid_Time id
    ∧ Thanos_Source meta ≠ BucketRepairSource
    ∧ Thanos_Source meta ≠ CompactorSource
    ∧ Thanos_Source meta ≠ CompactorRepairSource.
Proof.
  intros Hd Hn Hid Hp Ht. rewrite ConsistencyDelay_Filter_lookup, Hid.
  unfold cd_drops. cbn. rewrite Hp. rewrite <- (tooFresh_past f now id meta) by done.
  by destruct (tooFresh f now id meta).
Qed.

(** C10.  A block whose ULID is stamped later than [ulid.Now()] makes the
    unsigned subtraction wrap around to [2^64 - (id.Time() - now)], at least
    [2^64 - 2^48].  When the configured delay is greater than minus one
    millisecond, so that [uint64(f.consistencyDelay/time.Millisecond)] is the
    delay in milliseconds and not itself a wrapped negative number, the
    filter keeps the block whatever its source, and the [too-fresh] gauge
    grows by the number of blocks the filter removed, of which it is none.
    The delay is an int64 [time.Duration] and [now] a uint64. *)
Theorem ConsistencyDelay_future_block_kept
    f now h (metas : gmap N nat) μ id p :
  - Millisecond < consistencyDelay f < 2 ^ 63 →
  0 ≤ now < 2 ^ 64 →
  metas !! id = Some p →
  now < ulid_Time id →
  let r := ConsistencyDelayMetaFilter_Filter f now h metas μ in
  uint64 (uint64 now - ulid_Time id) = 2 ^ 64 - (ulid_Time id - now)
  ∧ 2 ^ 64 - 2 ^ 48 < uint64 (uint64 now - ulid_Time id)
  ∧ r.1 !! id = Some p
  ∧ tx_get (synced r.2) tooFreshMeta
    = tx_get (synced μ) tooFreshMeta + Z.of_nat (size metas - size r.1).
Proof.
  intros Hd Hn Hp Ht r.
  pose proof (ulid_Time_range id) as Hr.
  rewrite uint64_sub_future by lia.
  split; [done|]. split; [lia|]. split.
  - subst r. rewrite ConsistencyDelay_Filter_lookup, Hp.
    unfold cd_drops. simpl. destruct (h !! p); [|done].
    by rewrite tooFresh_future.
  - subst r. rewrite ConsistencyDelay_Filter_count. by rewrite decide_True.
Qed.

Lemma ConsistencyDelay_future_block_kept_witness :
  let r := ConsistencyDelayMetaFilter_Filter
             {| consistencyDelay := 1800 * 1000 * Millisecond |} 1000
             [future_meta] {[ulid_MustNew 2000 := 0%nat]} newSyncMetrics in
  uint64 (uint64 1000 - ulid_Time (ulid_MustNew 2000))
  = 2 ^ 64 - (ulid_Time (ulid_MustNew 2000) - 1000)
  ∧ 2 ^ 64 - 2 ^ 48 < uint64 (uint64 1000 - ulid_Time (ulid_MustNew 2000))
  ∧ r.1 !! ulid_MustNew 2000 = Some 0%nat
  ∧ tx_get (synced r.2) tooFreshMeta
    = tx_get (synced newSyncMetrics) tooFreshMeta
      + Z.of_nat (size ({[ulid_MustNew 2000 := 0%nat]} : gmap N nat) - size r.1).
Proof.
  apply (ConsistencyDelay_future_block_kept
           {| consistencyDelay := 1800 * 1000 * Millisecond |} 1000
           [future_meta] {[ulid_MustNew 2000 := 0%nat]} newSyncMetrics
           (ulid_MustNew 2000) 0%nat).
  - vm_compute. split; reflexivity.
  - vm_compute. split; [discriminate | reflexivity].
  - reflexivity.
  - vm_compute. reflexivity.
Defined.

(** A delay of minus one millisecond: [uint64(f.consistencyDelay /
    time.Millisecond)] is [uint64(-1) = 2^64 - 1], every wrapped difference
    but the largest is below it, and the block stamped one second in the
    future, coming from a sidecar, is removed and counted as too fresh. *)
Lemma ConsistencyDelay_negative_delay_drops_future_block :
  let now := 1000 in
  let f := {| consistencyDelay := - Millisecond |} in
  let id := ulid_MustNew 2000 in
  let r := ConsistencyDelayMetaFilter_Filter f now [future_meta]
             {[id := 0%nat]} newSyncMetrics in
  now < ulid_Time id
  ∧ uint64 (consistencyDelay f ÷ Millisecond) = 2 ^ 64 - 1
  ∧ uint64 (uint64 now - ulid_Time id) = 2 ^ 64 - 1000
  ∧ r.1 !! id = None
  ∧ tx_get (synced r.2) tooFreshMeta = 1.
Proof. vm_compute. repeat split; reflexivity. Qed.

(** C8.  The filter at a block stamped one second in the future, coming from
    a sidecar, with a delay of 30 minutes: its creation time is newer than
    [now - consistencyDelay], yet the block is kept and [too-fresh] stays 0. *)
Theorem ConsistencyDelay_future_block_not_dropped :
  let now := 1000 in
  let f := {| consistencyDelay := 1800 * 1000 * Millisecond |} in
  let id := ulid_MustNew 2000 in
  let r := ConsistencyDelayMetaFilter_Filter f now [future_meta]
             {[id := 0%nat]} newSyncMetrics in
  now - consistencyDelay f ÷ Millisecond < ulid_Time id
  ∧ Thanos_Source future_meta ≠ BucketRepairSource
  ∧ Thanos_Source future_meta ≠ CompactorSource
  ∧ Thanos_Source future_meta ≠ CompactorRepairSource
  ∧ r.1 !! id = Some 0%nat
  ∧ tx_get (synced r.2) tooFreshMeta = 0.
Proof. vm_compute. repeat split; try discriminate; reflexivity. Qed.

(** ** IgnoreDeletionMarkFilter *)











(** ** Loading descriptors *)



Lemma load_outcome_eq s bkt w id :
  load_outcome s bkt w id
  = match bkt_Exists bkt id with
    | ExistsError err => classify (LoadFailed (Wrap err ""))
    | ExistsOk false => OutNotFound
    | ExistsOk true =>
        match cached s !! id with
        | Some _ => OutLoaded
        | None =>
            match local_hit s w id with
            | Some _ => OutLoaded
            | None => remote_outcome bkt id
            end
        end
    end.
Proof.
  unfold load_outcome, loadMeta, local_hit, remote_outcome.
  destruct (bkt_Exists bkt id) as [e|[|]]; [done| |done].
  destruct (cached s !! id) as [p|]; [done|].
  destruct (decide (cacheDir s = "")) as [Hc|Hc].
  - destruct (bkt_Get bkt id) as [?|?|?|[?|m]]; try done.
    by destruct (decide (Version m ≠ MetaVersion1)).
  - destruct (disk w !! id) as [[m0|e0]|]; [done| |];
      (destruct (bkt_Get bkt id) as [?|?|?|[?|m]]; try done;
       by destruct (decide (Version m ≠ MetaVersion1))).
Qed.

Lemma local_hit_loadMeta s bkt w id' id :
  local_hit s (loadMeta s bkt id' w).2 id = local_hit s w id
  ∨ (local_hit s w id = None ∧ bkt_Exists bkt id = ExistsOk true
     ∧ cached s !! id = None ∧ remote_outcome bkt id = OutLoaded
     ∧ is_Some (local_hit s (loadMeta s bkt id' w).2 id)).
Proof.
  unfold loadMeta, local_hit, remote_outcome.
  destruct (decide (cacheDir s = "")) as [Hc|Hc]; [by left|].
  destruct (bkt_Exists bkt id') as [e'|[|]] eqn:He; [by left| |by left].
  destruct (cached s !! id') as [p'|] eqn:Hp; [by left|].
  destruct (decide (id = id')) as [->|Hne].
  - rewrite He, Hp.
    destruct (disk w !! id') as [[m0|e0]|] eqn:Hd; cbn; rewrite ?Hd; [by left| |].
    + destruct (bkt_Get bkt id') as [?|?|?|[?|m]]; cbn;
        rewrite ?lookup_delete_eq; try by left.
      destruct (decide (Version m ≠ MetaVersion1)); cbn;
        rewrite ?lookup_delete_eq, ?lookup_insert_eq; [by left|].
      right. eauto.
    + destruct (bkt_Get bkt id') as [?|?|?|[?|m]]; cbn;
        rewrite ?Hd; try by left.
      destruct (decide (Version m ≠ MetaVersion1)); cbn;
        rewrite ?Hd, ?lookup_insert_eq; [by left|].
      right. eauto.
  - left.
    destruct (disk w !! id') as [[m0|e0]|] eqn:Hd; cbn; [done| |].
    + destruct (bkt_Get bkt id') as [?|?|?|[?|m]]; cbn;
        rewrite ?lookup_delete_ne by done; try done.
      destruct (decide (Version m ≠ MetaVersion1)); cbn;
        by rewrite ?lookup_insert_ne, ?lookup_delete_ne by done.
    + destruct (bkt_Get bkt id') as [?|?|?|[?|m]]; cbn; try done.
      destruct (decide (Version m ≠ MetaVersion1)); cbn;
        by rewrite ?lookup_insert_ne by done.
Qed.

(** How the load of [id] ends does not depend on the loads made before it: a
    load only adds to the heap and touches the cache entry of its own block,
    and there it replaces nothing that would change the outcome. *)
Lemma load_outcome_stable s bkt w id' id :
  load_outcome s bkt (loadMeta s bkt id' w).2 id = load_outcome s bkt w id.
Proof.
  rewrite !load_outcome_eq.
  destruct (local_hit_loadMeta s bkt w id' id) as [->|(H1 & H2 & H3 & H4 & [m H5])];
    [done|].
  by rewrite H1, H2, H3, H4, H5.
Qed.


Lemma tx_get_ResetTx g l : tx_get (ResetTx g) l = 0.
Proof.
  unfold tx_get, ResetTx. simpl.
  destruct (list_to_map _ !! l) as [z|] eqn:Hz; [|done].
  apply elem_of_list_to_map_2, list_elem_of_fmap in Hz as (? & [= _ ->] & _). done.
Qed.


(** One step of a worker, by the outcome of the load. *)
Lemma worker_body_outcome s bkt c id :
  let c' := worker_body s bkt c id in
  c_world c' = (loadMeta s bkt id (c_world c)).2
  ∧ match load_outcome s bkt (c_world c) id with
    | OutLoaded =>
        (∃ p, c_metas c' = <[id := p]> (c_metas c))
        ∧ c_partial c' = c_partial c ∧ c_metaErrs c' = c_metaErrs c
        ∧ c_synced c' = c_synced c
    | OutFailed =>
        c_metas c' = c_metas c ∧ c_partial c' = c_partial c
        ∧ (∃ err, c_metaErrs c' = c_metaErrs c ++ [err])
        ∧ c_synced c' = tx_Inc (c_synced c) failedMeta
    | o =>
        c_metas c' = c_metas c
        ∧ (∃ err, c_partial c' = <[id := err]> (c_partial c))
        ∧ c_metaErrs c' = c_metaErrs c
        ∧ c_synced c' = tx_Inc (c_synced c) (default "" (outcome_label o))
    end.
Proof.
  unfold worker_body, load_outcome.
  destruct (loadMeta s bkt id (c_world c)) as [[p|err] w']; simpl.
  - eauto 10.
  - destruct (Cause err); simpl; eauto 10.
Qed.






Lemma count_outcome_snoc s bkt w o ids id :
  count_outcome s bkt w o (ids ++ [id])
  = (count_outcome s bkt w o ids + if decide (load_outcome s bkt w id = o) then 1 else 0)%nat.
Proof.
  unfold count_outcome. rewrite filter_app, length_app. f_equal.
  rewrite filter_cons. case_decide; done.
Qed.

Lemma collect_inv_holds s bkt w ids :
  collect_inv s bkt w ids (foldl (worker_body s bkt) (collect_init s w) ids).
Proof.
  induction ids as [|id ids IH] using rev_ind.
  - split; simpl.
    + done.
    + intros id. rewrite lookup_empty, elem_of_nil. split; [by intros [??]|tauto].
    + intros id. rewrite lookup_empty, elem_of_nil. split; [by intros [??]|tauto].
    + done.
    + intros o label _. apply tx_get_ResetTx.
  - rewrite foldl_snoc. set (c := foldl (worker_body s bkt) (collect_init s w) ids) in *.
    destruct IH as [Ho Hm Hp He Hs].
    destruct (worker_body_outcome s bkt c id) as [Hw Hcase].
    rewrite Ho in Hcase.
    set (c' := worker_body s bkt c id) in *.
    assert (∀ o label, outcome_label o = Some label →
              ∀ l0, c_synced c' = tx_Inc (c_synced c) l0 →
              (∀ o', outcome_label o' = Some l0 → o' = load_outcome s bkt w id) →
              outcome_label (load_outcome s bkt w id) = Some l0 →
              tx_get (c_synced c') label = Z.of_nat (count_outcome s bkt w o (ids ++ [id])))
      as Hcount.
    { intros o label Hl l0 -> Hinj Hl0. rewrite tx_get_Inc, (Hs o label Hl).
      rewrite count_outcome_snoc.
      destruct (decide (l0 = label)) as [->|Hne].
      - rewrite (Hinj o Hl). rewrite decide_True by done. lia.
      - rewrite decide_False; [lia|]. intros Heq. rewrite Heq in Hl0. congruence. }
    split.
    + intros id0. rewrite Hw, load_outcome_stable. apply Ho.
    + intros id0. rewrite elem_of_app, list_elem_of_singleton.
      destruct (load_outcome s bkt w id) eqn:Hid;
        [destruct Hcase as ([p Hp'] & _) | destruct Hcase as (Hm' & _) ..].
      * rewrite Hp', lookup_insert. case_decide as Hd.
        -- subst. split; [eauto|]. intros _. eauto.
        -- rewrite Hm. (intuition (subst; eauto; congruence)).
      * rewrite Hm', Hm. (intuition (subst; eauto; congruence)).
      * rewrite Hm', Hm. (intuition (subst; eauto; congruence)).
      * rewrite Hm', Hm. (intuition (subst; eauto; congruence)).
    + intros id0. rewrite elem_of_app, list_elem_of_singleton.
      destruct (load_outcome s bkt w id) eqn:Hid;
        [destruct Hcase as (_ & Hp' & _)
        |destruct Hcase as (_ & [err Hp'] & _)
        |destruct Hcase as (_ & [err Hp'] & _)
        |destruct Hcase as (_ & Hp' & _)].
      * rewrite Hp', Hp. (intuition (subst; eauto; congruence)).
      * rewrite Hp', lookup_insert. case_decide as Hd.
        -- subst. split; [eauto|]. intros _. eauto.
        -- rewrite Hp. (intuition (subst; eauto; congruence)).
      * rewrite Hp', lookup_insert. case_decide as Hd.
        -- subst. split; [eauto|]. intros _. eauto.
        -- rewrite Hp. (intuition (subst; eauto; congruence)).
      * rewrite Hp', Hp. (intuition (subst; eauto; congruence)).
    + rewrite count_outcome_snoc.
      destruct (load_outcome s bkt w id) eqn:Hid;
        [destruct Hcase as (_ & _ & He' & _)
        |destruct Hcase as (_ & _ & He' & _)
        |destruct Hcase as (_ & _ & He' & _)
        |destruct Hcase as (_ & _ & [err He'] & _)];
        rewrite He', ?length_app, He; simpl; lia.
    + intros o label Hl.
      destruct (load_outcome s bkt w id) eqn:Hid.
      * destruct Hcase as (_ & _ & _ & Hs'). rewrite Hs', (Hs o label Hl).
        rewrite count_outcome_snoc, Hid.
        rewrite decide_False; [lia|]. intros <-. done.
      * destruct Hcase as (_ & _ & _ & Hs').
        apply (Hcount o label Hl _ Hs'); [|done].
        by intros [] [=].
      * destruct Hcase as (_ & _ & _ & Hs').
        apply (Hcount o label Hl _ Hs'); [|done].
        by intros [] [=].
      * destruct Hcase as (_ & _ & _ & Hs').
        apply (Hcount o label Hl _ Hs'); [|done].
        by intros [] [=].
Qed.

Lemma collect_inv_collect s bkt w : collect_inv s bkt w (bkt_Iter bkt) (collect s bkt w).
Proof. apply collect_inv_holds. Qed.

(** ** Fetch *)


Lemma run_filters_shrinking fs incompleteView metas m w :
  Forall shrinking fs →
  fr_err (run_filters fs incompleteView metas m w) = None →
  fr_metas (run_filters fs incompleteView metas m w) ⊆ metas.
Proof.
  intros Hfs. revert metas m w.
  induction Hfs as [|f fs Hf _ IH]; intros metas m w; simpl; [done|].
  destruct (fr_err (f metas m incompleteView w)) eqn:He.
  - by rewrite He.
  - intros H. etrans; [by apply IH|]. apply Hf.
Qed.

Lemma Fetch_cached s bkt w :
  cached (ret_fetcher (Fetch s bkt w))
  = match bkt_Iter_err bkt with
    | Some _ => cached s
    | None => if bool_decide (0 < length (c_metaErrs (collect s bkt w)))%nat
              then cached s else c_metas (collect s bkt w)
    end.
Proof.
  unfold Fetch. destruct (bkt_Iter_err bkt); [done|].
  by destruct (fr_err _).
Qed.

Lemma collect_no_errs s bkt w :
  c_metaErrs (collect s bkt w) = []
  ↔ ∀ id, id ∈ bkt_Iter bkt → load_outcome s bkt w id ≠ OutFailed.
Proof.
  destruct (collect_inv_collect s bkt w) as [_ _ _ He _].
  rewrite <- length_zero_iff_nil, He. unfold count_outcome.
  rewrite length_zero_iff_nil. split.
  - intros Hnil id Hin Hf.
    assert (id ∈ filter (λ id, load_outcome s bkt w id = OutFailed) (bkt_Iter bkt)) as H
      by (by apply list_elem_of_filter).
    rewrite Hnil in H. by inversion H.
  - intros H. apply elem_of_nil_inv. intros id Hin.
    apply list_elem_of_filter in Hin as [Hf Hin]. by apply (H id).
Qed.

Lemma incompleteView_iff s bkt w :
  bool_decide (0 < length (c_metaErrs (collect s bkt w)))%nat = true
  ↔ ∃ id, id ∈ bkt_Iter bkt ∧ load_outcome s bkt w id = OutFailed.
Proof.
  rewrite bool_decide_eq_true. split.
  - intros Hlen.
    destruct (collect_inv_collect s bkt w) as [_ _ _ He _].
    rewrite He in Hlen. unfold count_outcome in Hlen.
    destruct (filter _ _) as [|id l] eqn:Hf; [simpl in Hlen; lia|].
    assert (id ∈ id :: l) as Hin by left. rewrite <- Hf in Hin.
    apply list_elem_of_filter in Hin as [? ?]. eauto.
  - intros (id & Hin & Hf).
    destruct (c_metaErrs (collect s bkt w)) eqn:He; [|simpl; lia].
    by destruct (proj1 (collect_no_errs s bkt w) He id Hin).
Qed.

(** C1, amended.  A [Fetch] in which some load failed with an error that is
    neither not-found nor corrupted leaves [cached] as it was.  A [Fetch]
    whose enumeration of the bucket succeeded and in which no load failed
    that way replaces [cached] with the map [metas] as the workers left it,
    before any filter ran: the blocks seen whose load succeeded. *)
Theorem Fetch_cache_update s bkt w :
  let r := Fetch s bkt w in
  ((∃ id, id ∈ bkt_Iter bkt ∧ load_outcome s bkt w id = OutFailed) →
   cached (ret_fetcher r) = cached s)
  ∧ (bkt_Iter_err bkt = None →
     (∀ id, id ∈ bkt_Iter bkt → load_outcome s bkt w id ≠ OutFailed) →
     cached (ret_fetcher r) = c_metas (collect s bkt w)
     ∧ ∀ id, is_Some (cached (ret_fetcher r) !! id)
             ↔ id ∈ bkt_Iter bkt ∧ load_outcome s bkt w id = OutLoaded).
Proof.
  intros r. subst r. rewrite Fetch_cached. split.
  - intros Hex. apply incompleteView_iff in Hex. rewrite Hex.
    by destruct (bkt_Iter_err bkt).
  - intros -> Hall. apply (proj2 (collect_no_errs s bkt w)) in Hall.
    rewrite Hall. simpl.
    split; [done|]. apply (inv_metas _ _ _ _ _ (collect_inv_collect s bkt w)).
Qed.

Lemma Fetch_partial s bkt w :
  let r := Fetch s bkt w in
  (returned_maps r → ret_partial r = c_partial (collect s bkt w))
  ∧ (¬ returned_maps r → ret_partial r = ∅ ∧ ret_metas r = ∅).
Proof.
  unfold returned_maps, Fetch. simpl.
  destruct (bkt_Iter_err bkt) as [e|]; simpl.
  - split; [|done]. intros [?|[? ?]]; done.
  - destruct (fr_err _) as [e|]; simpl.
    + split; [|done]. intros [?|[? ?]]; done.
    + split; [done|]. intros H. exfalso. apply H.
      case_bool_decide; eauto.
Qed.

Lemma Fetch_metas_subseteq s bkt w :
  Forall shrinking (filters s) →
  ret_metas (Fetch s bkt w) ⊆ c_metas (collect s bkt w).
Proof.
  intros Hfs. unfold Fetch.
  destruct (bkt_Iter_err bkt) as [e|]; simpl; [apply map_empty_subseteq|].
  destruct (fr_err _) as [e|] eqn:He; simpl; [apply map_empty_subseteq|].
  by apply run_filters_shrinking.
Qed.

Lemma classic_returned r : returned_maps r ∨ ¬ returned_maps r.
Proof.
  unfold returned_maps. destruct (ret_err r) as [e|]; [|by left; left].
  destruct e as [| | | | |e msg]; try (right; intros [?|[? ?]]; done).
  destruct (decide (msg = "incomplete view")) as [->|Hne];
    [|right; intros [?|[? ?]]; congruence].
  destruct e; try (right; intros [?|[? ?]]; done). left; right; eauto.
Qed.

(** C7.  When [Fetch] hands its maps back, with no error or with the error
    of an incomplete view, the [partial] it returns holds exactly the blocks
    seen whose load ended in not-found or corrupted.  When it gives up, on an
    error of the enumeration or of a filter, it returns nil maps.  With
    filters that only take entries out of [metas], no block is in both of
    the maps returned. *)
Theorem Fetch_metas_partial s bkt w :
  let r := Fetch s bkt w in
  (returned_maps r →
   ∀ id, is_Some (ret_partial r !! id)
         ↔ id ∈ bkt_Iter bkt
           ∧ (load_outcome s bkt w id = OutNotFound
              ∨ load_outcome s bkt w id = OutCorrupted))
  ∧ (¬ returned_maps r → ret_metas r = ∅ ∧ ret_partial r = ∅)
  ∧ (Forall shrinking (filters s) →
     ∀ id, ¬ (is_Some (ret_metas r !! id) ∧ is_Some (ret_partial r !! id))).
Proof.
  intros r. set (c := collect s bkt w).
  destruct (collect_inv_collect s bkt w) as [_ Hm Hp _ _]. fold c in Hm, Hp.
  destruct (Fetch_partial s bkt w) as [Hret Habort]. fold r c in Hret, Habort.
  assert (∀ id, ¬ (is_Some (c_metas c !! id) ∧ is_Some (c_partial c !! id))) as Hdis.
  { intros id [[_ H1]%Hm [_ [H2|H2]]%Hp]; congruence. }
  split_and!.
  - intros Hr id. rewrite (Hret Hr). apply Hp.
  - intros Hr. destruct (Habort Hr). done.
  - intros Hfs id [[p Hid] Hpid].
    pose proof (Fetch_metas_subseteq s bkt w Hfs) as Hsub. fold r c in Hsub.
    destruct (classic_returned r) as [Hr|Hr].
    + rewrite (Hret Hr) in Hpid. apply (Hdis id). split; [|done].
      eapply lookup_weaken in Hid; [|done]. eauto.
    + destruct (Habort Hr) as [Hempty _]. rewrite Hempty, lookup_empty in Hpid.
      by destruct Hpid.
Qed.

(** ** The filters only take entries out of [metas] *)

Lemma ConsistencyDelay_filter_shrinking f now :
  shrinking (ConsistencyDelay_filter f now).
Proof.
  intros metas m b w. simpl. apply map_subseteq_spec. intros id p.
  rewrite ConsistencyDelay_Filter_lookup.
  destruct (metas !! id) as [q|]; [|done]. by destruct (cd_drops _ _ _ _).
Qed.

Lemma ReplicaLabelRemover_filter_shrinking r :
  shrinking (ReplicaLabelRemover_filter r).
Proof. by intros metas m b w. Qed.

Lemma IgnoreDeletionMark_range_subseteq env ids st :
  ms_metas (IgnoreDeletionMark_range env ids st).2 ⊆ ms_metas st.
Proof.
  revert st. induction ids as [|id ids IH]; intros st; cbn; [done|].
  destruct (ReadDeletionMark env id) as [dm| |e|e]; [|by apply IH..|done].
  destruct (since_exceeds env _ _).
  - etrans; [apply IH|]. apply delete_subseteq.
  - etrans; [apply IH|]. done.
Qed.

Lemma IgnoreDeletionMark_filter_shrinking env :
  shrinking (IgnoreDeletionMark_filter env).
Proof.
  intros metas m b w. unfold IgnoreDeletionMark_filter. cbn [fr_metas].
  apply (IgnoreDeletionMark_range_subseteq env _ (mkMarkState _ metas m)).
Qed.

Lemma dedup_drops_subseteq ids st :
  ds_metas (foldl dedup_drop st ids) ⊆ ds_metas st.
Proof.
  revert st. induction ids as [|id ids IH]; intros st; cbn [foldl]; [done|].
  etrans; [apply IH|]. apply delete_subseteq.
Qed.

Lemma DeduplicateFilter_Filter_subseteq f h metas m :
  ds_metas (DeduplicateFilter_Filter f h metas m) ⊆ metas.
Proof.
  unfold DeduplicateFilter_Filter.
  set (st0 := {| ds_filter := f; ds_metas := metas; ds_synced := synced m |}).
  change metas with (ds_metas st0) at 2. generalize st0. clear st0.
  induction (map_to_list (metasByResolution h metas)) as [|e l IH];
    intros st; cbn [foldl]; [done|].
  etrans; [apply IH|]. apply dedup_drops_subseteq.
Qed.

Lemma Deduplicate_filter_shrinking : shrinking Deduplicate_filter.
Proof. intros metas m b w. apply DeduplicateFilter_Filter_subseteq. Qed.


(** ** A descriptor of an unsupported version *)

Lemma lookup_subseteq_None {V} (m1 m2 : gmap N V) id :
  m1 ⊆ m2 → m2 !! id = None → m1 !! id = None.
Proof.
  intros Hsub Hn. destruct (m1 !! id) as [x|] eqn:Hx; [|done].
  eapply lookup_weaken in Hx; [|done]. congruence.
Qed.

(** C2, amended.  When [loadMeta] gets as far as parsing a [meta.json] and
    its version is not the supported one, the load ends in an error that is
    neither of the sentinels: the worker counts the block in
    [synced{state=failed}] (not in [corrupted-meta-json]), adds the error to
    [metaErrs], and puts the block in neither map; the view is incomplete,
    [Fetch] returns an error and leaves [cached] as it was. *)
Theorem version_mismatch_is_failed s bkt w id m :
  id ∈ bkt_Iter bkt →
  bkt_Exists bkt id = ExistsOk true →
  cached s !! id = None →
  local_hit s w id = None →
  bkt_Get bkt id = GetContent (Unmarshaled m) →
  Version m ≠ MetaVersion1 →
  let c := collect s bkt w in
  let r := Fetch s bkt w in
  (loadMeta s bkt id w).1 = LoadFailed (Errorf "unexpected meta file version")
  ∧ c_metas c !! id = None
  ∧ c_partial c !! id = None
  ∧ ret_partial r !! id = None
  ∧ (0 < length (c_metaErrs c))%nat
  ∧ 1 ≤ tx_get (c_synced c) failedMeta
  ∧ tx_get (c_synced c) corruptedMeta
    = Z.of_nat (count_outcome s bkt w OutCorrupted (bkt_Iter bkt))
  ∧ load_outcome s bkt w id ≠ OutCorrupted
  ∧ is_Some (ret_err r)
  ∧ cached (ret_fetcher r) = cached s.
Proof.
  intros Hin Hex Hc Hl Hget Hv c r.
  assert ((loadMeta s bkt id w).1 = LoadFailed (Errorf "unexpected meta file version"))
    as Hload.
  { unfold loadMeta, local_hit in *. rewrite Hex, Hc, Hget.
    destruct (decide (cacheDir s = "")) as [?|?].
    - by rewrite decide_True.
    - destruct (disk w !! id) as [[?|?]|]; [done| |]; by rewrite decide_True. }
  assert (load_outcome s bkt w id = OutFailed) as Hout.
  { unfold load_outcome. by rewrite Hload. }
  destruct (collect_inv_collect s bkt w) as [_ Hm Hp He Hs]. fold c in Hm, Hp, He, Hs.
  assert (c_metas c !! id = None) as Hmn.
  { apply eq_None_not_Some. intros H. apply Hm in H as [_ H]. congruence. }
  assert (c_partial c !! id = None) as Hpn.
  { apply eq_None_not_Some. intros H. apply Hp in H as [_ [H|H]]; congruence. }
  assert (0 < count_outcome s bkt w OutFailed (bkt_Iter bkt))%nat as Hpos.
  { unfold count_outcome.
    assert (id ∈ filter (λ id, load_outcome s bkt w id = OutFailed) (bkt_Iter bkt)) as H
      by (by apply list_elem_of_filter).
    destruct (filter _ _); [by inversion H | simpl; lia]. }
  assert (bool_decide (0 < length (c_metaErrs c))%nat = true) as Hinc.
  { apply bool_decide_eq_true. lia. }
  split_and!; try done.
  - destruct (Fetch_partial s bkt w) as [Hret Habort]. fold r in Hret, Habort.
    destruct (classic_returned r) as [Hr|Hr].
    + by rewrite (Hret Hr).
    + destruct (Habort Hr) as [-> _]. apply lookup_empty.
  - lia.
  - rewrite (Hs OutFailed failedMeta eq_refl). lia.
  - apply (Hs OutCorrupted corruptedMeta eq_refl).
  - congruence.
  - subst r. unfold Fetch. fold c. destruct (bkt_Iter_err bkt); [by eexists|].
    rewrite Hinc. destruct (fr_err _); by eexists.
  - subst r. rewrite Fetch_cached. fold c. rewrite Hinc.
    by destruct (bkt_Iter_err bkt).
Qed.

(** ** Fetch at sample inputs *)

Lemma Fetch_cache_update_witness :
  cached (ret_fetcher (Fetch sample_fetcher flaky_bucket sample_world))
  = cached sample_fetcher
  ∧ cached (ret_fetcher (Fetch sample_fetcher sample_bucket sample_world))
    = c_metas (collect sample_fetcher sample_bucket sample_world).
Proof.
  split.
  - apply (proj1 (Fetch_cache_update sample_fetcher flaky_bucket sample_world)).
    exists 2%N. split; [|reflexivity]. right. left.
  - apply (proj2 (Fetch_cache_update sample_fetcher sample_bucket sample_world)).
    + reflexivity.
    + intros id Hin.
      repeat (apply elem_of_cons in Hin as [->|Hin]; [vm_compute; discriminate|]).
      by apply elem_of_nil in Hin.
Defined.

(** Counterexample to C1 without the condition on the enumeration: here the
    enumeration of the bucket fails, no load ended in a transient error, and
    [cached] is left as it was instead of being replaced with the map the
    workers filled. *)
Lemma Fetch_cache_kept_on_iter_error :
  let r1 := Fetch sample_fetcher sample_bucket sample_world in
  let s := ret_fetcher r1 in
  let w := ret_world r1 in
  let r2 := Fetch s cancelled_bucket w in
  Forall (λ id, load_outcome s cancelled_bucket w id ≠ OutFailed)
         (bkt_Iter cancelled_bucket)
  ∧ cached (ret_fetcher r2) = cached s
  ∧ cached (ret_fetcher r2) ≠ c_metas (collect s cancelled_bucket w).
Proof.
  split; [|split].
  - repeat constructor; vm_compute; discriminate.
  - vm_compute. reflexivity.
  - intros H. apply (f_equal (λ m : gmap N nat, m !! 2%N)) in H.
    vm_compute in H. discriminate.
Qed.

Lemma version_mismatch_is_failed_witness :
  let c := collect sample_fetcher version2_bucket sample_world in
  let r := Fetch sample_fetcher version2_bucket sample_world in
  (loadMeta sample_fetcher version2_bucket 5 sample_world).1
  = LoadFailed (Errorf "unexpected meta file version")
  ∧ c_metas c !! 5%N = None
  ∧ c_partial c !! 5%N = None
  ∧ ret_partial r !! 5%N = None
  ∧ (0 < length (c_metaErrs c))%nat
  ∧ 1 ≤ tx_get (c_synced c) failedMeta
  ∧ tx_get (c_synced c) corruptedMeta
    = Z.of_nat (count_outcome sample_fetcher version2_bucket sample_world
                  OutCorrupted (bkt_Iter version2_bucket))
  ∧ load_outcome sample_fetcher version2_bucket sample_world 5 ≠ OutCorrupted
  ∧ is_Some (ret_err r)
  ∧ cached (ret_fetcher r) = cached sample_fetcher.
Proof.
  apply (version_mismatch_is_failed sample_fetcher version2_bucket sample_world
           5%N (sample_meta 5 2)).
  - right. left.
  - reflexivity.
  - reflexivity.
  - reflexivity.
  - reflexivity.
  - vm_compute. discriminate.
Defined.

(** Counterexample to C2 with [corrupted-meta] and [partial] in it: the block
    whose [meta.json] has version 2 is not in [partial],
    [synced{state=corrupted-meta-json}] reads 0 and [synced{state=failed}]
    reads 1 once the gauges are submitted, and the view is incomplete. *)
Lemma version_mismatch_not_corrupted :
  let r := Fetch sample_fetcher version2_bucket sample_world in
  bkt_Get version2_bucket 5 = GetContent (Unmarshaled (sample_meta 5 2))
  ∧ Version (sample_meta 5 2) ≠ MetaVersion1
  ∧ ret_partial r !! 5%N = None
  ∧ tx_active (synced (metrics (ret_fetcher r))) !! corruptedMeta = Some 0
  ∧ tx_active (synced (metrics (ret_fetcher r))) !! failedMeta = Some 1
  ∧ ret_err r
    = Some (Wrap (MultiError [Errorf "unexpected meta file version"]) "incomplete view").
Proof. vm_compute. split_and!; try reflexivity. discriminate. Qed.

Lemma Fetch_metas_partial_witness :
  let r := Fetch sample_fetcher sample_bucket sample_world in
  (∀ id, is_Some (ret_partial r !! id)
         ↔ id ∈ bkt_Iter sample_bucket
           ∧ (load_outcome sample_fetcher sample_bucket sample_world id = OutNotFound
              ∨ load_outcome sample_fetcher sample_bucket sample_world id = OutCorrupted))
  ∧ (∀ id, ¬ (is_Some (ret_metas r !! id) ∧ is_Some (ret_partial r !! id))).
Proof.
  intros r.
  destruct (Fetch_metas_partial sample_fetcher sample_bucket sample_world)
    as (H1 & _ & H3).
  split.
  - apply H1. left. vm_compute. reflexivity.
  - apply H3. repeat constructor.
    + apply ReplicaLabelRemover_filter_shrinking.
    + apply Deduplicate_filter_shrinking.
Defined.

(** When [Fetch] gives up it returns nil maps: block 3 was seen and its load
    ended in not-found, but the enumeration failed afterwards, and the
    [partial] that is returned does not hold it. *)
Lemma Fetch_partial_lost_on_abort :
  let r := Fetch sample_fetcher cancelled_bucket sample_world in
  3%N ∈ bkt_Iter cancelled_bucket
  ∧ load_outcome sample_fetcher cancelled_bucket sample_world 3 = OutNotFound
  ∧ ret_partial r !! 3%N = None.
Proof. split; [right; left | split; reflexivity]. Qed.

(** A filter may put entries into [metas], the map being its to change: after
    one that files the descriptor of block 1 under the ID of block 3 as well,
    whose [meta.json] is missing, block 3 is in both of the maps returned. *)
Example Fetch_maps_meet_after_adding_filter :
  let r := Fetch (NewMetaFetcher 1 "" [adding_filter]) sample_bucket sample_world in
  ret_err r = None
  ∧ is_Some (ret_metas r !! 3%N) ∧ is_Some (ret_partial r !! 3%N).
Proof. vm_compute. split; [reflexivity|]. split; eexists; reflexivity. Qed.

(** C3.  A complete [Fetch] with [ReplicaLabelRemover] among the filters.  The
    descriptor of block 1 is put in [cached] with the labels [ext1] and
    [replica]; when [Fetch] returns, the descriptor [cached] holds has lost
    [replica].  The next [Fetch] is handed the stripped descriptor out of
    [cached] and finds nothing to remove. *)
Theorem cached_meta_mutated_by_modifier :
  let c := collect sample_fetcher sample_bucket sample_world in
  let r := Fetch sample_fetcher sample_bucket sample_world in
  let r' := Fetch (ret_fetcher r) sample_bucket (ret_world r) in
  ret_err r = None
  ∧ cached (ret_fetcher r) = c_metas c
  ∧ cached (ret_fetcher r) !! 1%N = Some 0%nat
  ∧ map_to_list ∘ Thanos_Labels <$> heap (c_world c) !! 0%nat
    = Some [("ext1", "value1"); ("replica", "1")]
  ∧ map_to_list ∘ Thanos_Labels <$> heap (ret_world r) !! 0%nat
    = Some [("ext1", "value1")]
  ∧ tx_get (modified (metrics (ret_fetcher r))) replicaRemovedMeta = 2
  ∧ ret_metas r' !! 1%N = Some 0%nat
  ∧ tx_get (modified (metrics (ret_fetcher r'))) replicaRemovedMeta = 2.
Proof. vm_compute. split_and!; reflexivity. Qed.

(** ** DeduplicateFilter: the tree of sources *)

Lemma Node_ind' (P : Node → Prop) :
  (∀ m children, Forall P children → P (mkNode m children)) → ∀ n, P n.
Proof.
  intros Hstep. fix IH 1. intros [m children]. apply Hstep.
  induction children as [|c cs IHcs]; constructor; [apply IH | apply IHcs].
Qed.

Lemma addNodeBySources_unfold m children add :
  addNodeBySources (mkNode m children) add
  = match add_range add children with
    | Some children' => mkNode m children'
    | None => mkNode m (children ++ [add])
    end.
Proof.
  cbn [addNodeBySources].
  match goal with |- match ?f children with _ => _ end = _ =>
    assert (∀ l, f l = add_range add l) as Heq end.
  { induction l as [|node rest IH]; [done|]. cbn [add_range].
    by rewrite <- IH. }
  by rewrite Heq.
Qed.

Lemma contains_spec s1 s2 :
  contains s1 s2 = true ↔ ∀ a, a ∈ s2 → a ∈ s1.
Proof.
  unfold contains. rewrite forallb_forall. split.
  - intros H a Ha. apply list_elem_of_In in Ha. apply H in Ha.
    apply existsb_exists in Ha as (e & He & Hc).
    unfold ulid_Compare in Hc. destruct (N.compare_spec a e); try done.
    subst. by apply list_elem_of_In.
  - intros H a Ha. apply list_elem_of_In, H in Ha.
    apply existsb_exists. exists a. split; [by apply list_elem_of_In|].
    unfold ulid_Compare. by rewrite N.compare_refl.
Qed.

Lemma covers_trans a b c : covers a b = true → covers b c = true → covers a c = true.
Proof. unfold covers. rewrite !contains_spec. auto. Qed.

Lemma covers_refl a : covers a a = true.
Proof. unfold covers. by apply contains_spec. Qed.

(** The insertion of a leaf keeps the descriptor of the node and adds the
    leaf to what stands below it. *)
Lemma addNodeBySources_below add t :
  Children add = [] →
  node_Meta (addNodeBySources t add) = node_Meta t
  ∧ subtree_metas (addNodeBySources t add) ≡ₚ node_Meta add :: subtree_metas t.
Proof.
  intros Hleaf. induction t as [m children IH] using Node_ind'.
  rewrite addNodeBySources_unfold.
  assert (subtree_metas add = []) as Hsub by (destruct add; simpl in *; by subst).
  assert (match add_range add children with
          | Some children' =>
              flat_map (λ c, node_Meta c :: subtree_metas c) children'
              ≡ₚ node_Meta add :: flat_map (λ c, node_Meta c :: subtree_metas c) children
          | None => True
          end) as Hrange.
  { induction IH as [|node rest [Hm Hs] _ IHrest]; [done|]. cbn [add_range].
    destruct (contains _ _ && contains _ _).
    { cbn [flat_map]. destruct node as [mn cn]. cbn.
      rewrite flat_map_app. cbn. rewrite Hsub. solve_Permutation. }
    destruct (contains _ _).
    { cbn [flat_map]. rewrite Hm, Hs. solve_Permutation. }
    destruct (add_range add rest) as [rest'|]; [|done]. cbn.
    rewrite IHrest. solve_Permutation. }
  destruct (add_range add children) as [children'|]; cbn.
  - done.
  - split; [done|]. rewrite flat_map_app. cbn. rewrite Hsub.
    solve_Permutation.
Qed.

(** The insertion of a leaf at the root: the first child that covers the
    leaf takes it; when there is none, the leaf becomes a child of the
    root. *)
Lemma addNodeBySources_root add root :
  Children add = [] →
  let root' := addNodeBySources root add in
  if existsb (λ c, covers (node_Meta c) (node_Meta add)) (Children root)
  then node_Meta <$> Children root' = node_Meta <$> Children root
       ∧ nonroot_metas root' ≡ₚ node_Meta add :: nonroot_metas root
  else node_Meta <$> Children root' = (node_Meta <$> Children root) ++ [node_Meta add]
       ∧ nonroot_metas root' ≡ₚ nonroot_metas root.
Proof.
  intros Hleaf root'. subst root'. destruct root as [m children].
  rewrite addNodeBySources_unfold. cbn [Children]. unfold nonroot_metas.
  assert (subtree_metas add = []) as Hsub by (destruct add; simpl in *; by subst).
  assert (match add_range add children with
          | Some children' =>
              existsb (λ c, covers (node_Meta c) (node_Meta add)) children = true
              ∧ node_Meta <$> children' = node_Meta <$> children
              ∧ flat_map subtree_metas children'
                ≡ₚ node_Meta add :: flat_map subtree_metas children
          | None => existsb (λ c, covers (node_Meta c) (node_Meta add)) children = false
          end) as Hrange.
  { induction children as [|node rest IH]; [done|]. cbn [add_range existsb].
    unfold covers at 1 3.
    destruct (contains (Compaction_Sources (node_Meta node)) _) eqn:Hc; cbn.
    - destruct (contains (Compaction_Sources (node_Meta add)) _); cbn.
      + split; [done|]. split; [done|].
        destruct node as [mn cn]. cbn. rewrite flat_map_app. cbn.
        rewrite Hsub. solve_Permutation.
      + destruct (addNodeBySources_below add node Hleaf) as [Hm Hs].
        rewrite Hm, Hs. done.
    - destruct (add_range add rest) as [rest'|]; cbn; [|done].
      destruct IH as (He & Hm & Hs). split; [done|]. split; [by rewrite Hm|].
      rewrite Hs. solve_Permutation. }
  destruct (add_range add children) as [children'|]; cbn [Children].
  - destruct Hrange as (-> & Hm & Hs). done.
  - rewrite Hrange. split; [by rewrite fmap_app|].
    rewrite flat_map_app. cbn. by rewrite Hsub, app_nil_r.
Qed.

Lemma descendantIDs_metas n : descendantIDs n = ULID <$> subtree_metas n.
Proof.
  induction n as [m children IH] using Node_ind'. cbn.
  induction IH as [|c cs Hc _ IHcs]; [done|]. cbn.
  by rewrite fmap_app, Hc, IHcs.
Qed.

Lemma getNonRootIDs_metas root : getNonRootIDs root = ULID <$> nonroot_metas root.
Proof.
  unfold getNonRootIDs, nonroot_metas.
  induction (Children root) as [|c cs IH]; [done|]. cbn.
  by rewrite fmap_app, descendantIDs_metas, IH.
Qed.

Lemma existsb_app_bool {A} (f : A → bool) l1 l2 :
  existsb f (l1 ++ l2) = existsb f l1 || existsb f l2.
Proof. induction l1 as [|x l1 IH]; [done|]. cbn. by rewrite IH, orb_assoc. Qed.

Lemma existsb_fmap_bool {A B} (g : A → B) (f : B → bool) l :
  existsb f (g <$> l) = existsb (f ∘ g) l.
Proof. induction l as [|x l IH]; [done|]. cbn. by rewrite IH. Qed.

Lemma existsb_true_elem {A} (f : A → bool) l :
  existsb f l = true ↔ ∃ x, x ∈ l ∧ f x = true.
Proof.
  rewrite existsb_exists. split; intros (x & H1 & H2); exists x;
    by rewrite ?list_elem_of_In in *.
Qed.

Lemma roots_cover_insert root seen m :
  roots_cover root seen →
  roots_cover (addNodeBySources root (NewNode m)) (seen ++ [m])
  ∧ nonroot_metas (addNodeBySources root (NewNode m))
    ≡ₚ nonroot_metas root ++ (if existsb (λ c, covers c m) seen then [m] else []).
Proof.
  intros Hinv.
  pose proof (addNodeBySources_root (NewNode m) root eq_refl) as Hadd.
  cbn [NewNode node_Meta] in Hadd.
  replace (existsb (λ c, covers (node_Meta c) m) (Children root))
    with (existsb (λ c, covers c m) seen) in Hadd
    by (by rewrite <- Hinv, existsb_fmap_bool).
  destruct (existsb (λ c, covers c m) seen) eqn:Hseen.
  - destruct Hadd as [Hroots Hbelow]. split; [|rewrite Hbelow; solve_Permutation].
    intros x. rewrite Hroots, Hinv, existsb_app_bool. cbn. rewrite orb_false_r.
    destruct (covers m x) eqn:Hmx; [|by rewrite orb_false_r].
    rewrite orb_true_r. apply existsb_true_elem in Hseen as (c & Hc & Hcm).
    apply existsb_true_elem. exists c. split; [done|]. by eapply covers_trans.
  - destruct Hadd as [Hroots Hbelow]. split; [|by rewrite Hbelow, app_nil_r].
    intros x. by rewrite Hroots, !existsb_app_bool, Hinv.
Qed.

Lemma build_nonroot root seen metaSlice :
  roots_cover root seen →
  nonroot_metas (build root metaSlice)
  ≡ₚ nonroot_metas root ++ dup_metas seen metaSlice.
Proof.
  unfold build. revert root seen.
  induction metaSlice as [|m rest IH]; intros root seen Hinv; cbn [foldl dup_metas].
  - by rewrite app_nil_r.
  - destruct (roots_cover_insert root seen m Hinv) as [Hinv' Hperm].
    rewrite (IH _ _ Hinv'), Hperm. by rewrite <- app_assoc.
Qed.

(** The IDs [filterForResolution] goes through are those of the descriptors
    of the sorted slice that an earlier one covers. *)
Lemma getNonRootIDs_build metaSlice :
  getNonRootIDs (build (NewNode rootMeta) metaSlice)
  ≡ₚ ULID <$> dup_metas [] metaSlice.
Proof.
  rewrite getNonRootIDs_metas. apply fmap_Permutation.
  by rewrite (build_nonroot _ []).
Qed.

Lemma dup_metas_elem seen metaSlice m :
  m ∈ dup_metas seen metaSlice
  ↔ ∃ l1 l2, metaSlice = l1 ++ m :: l2
             ∧ existsb (λ c, covers c m) (seen ++ l1) = true.
Proof.
  revert seen. induction metaSlice as [|x rest IH]; intros seen; cbn [dup_metas].
  - split; [by intros ?%elem_of_nil|]. intros ([|??] & ? & ? & _); done.
  - rewrite elem_of_app, IH. split.
    + intros [Hx|(l1 & l2 & -> & Hc)].
      * destruct (existsb _ seen) eqn:Hseen; [|by apply elem_of_nil in Hx].
        apply list_elem_of_singleton in Hx as ->.
        exists [], rest. by rewrite app_nil_r.
      * exists (x :: l1), l2. split; [done|].
        by rewrite <- app_assoc in Hc.
    + intros ([|y l1] & l2 & Heq & Hc); simplify_eq/=.
      * left. rewrite app_nil_r in Hc. rewrite Hc. by left.
      * right. exists l1, l2. split; [done|]. by rewrite <- app_assoc.
Qed.


(** ** DeduplicateFilter: the loop over the duplicates *)

Lemma foldl_flat_map {A B C} (g : A → C → A) (F : B → list C) (a : A) (l : list B) :
  foldl (λ a e, foldl g a (F e)) a l = foldl g a (flat_map F l).
Proof.
  revert a. induction l as [|e l IH]; intros a; [done|].
  cbn. by rewrite foldl_app, IH.
Qed.

Lemma DeduplicateFilter_Filter_eq f h metas m :
  DeduplicateFilter_Filter f h metas m
  = foldl dedup_drop
      {| ds_filter := f; ds_metas := metas; ds_synced := synced m |}
      (all_duplicateULIDs h metas).
Proof.
  unfold DeduplicateFilter_Filter, all_duplicateULIDs, filterForResolution.
  apply (foldl_flat_map dedup_drop
           (λ e, getNonRootIDs (foldl (λ r meta, addNodeBySources r (NewNode meta))
                                      (NewNode rootMeta) (sort_Slice e.2)))).
Qed.

Lemma foldl_dedup_drop ids st :
  ds_metas (foldl dedup_drop st ids) = delete_all ids (ds_metas st)
  ∧ duplicateIDs (ds_filter (foldl dedup_drop st ids))
    = duplicateIDs (ds_filter st) ++ appended_ids ids (ds_metas st)
  ∧ ds_synced (foldl dedup_drop st ids)
    = Nat.iter (length ids) (λ g, tx_Inc g duplicateMeta) (ds_synced st).
Proof.
  revert st. induction ids as [|id ids IH]; intros st; cbn [foldl appended_ids length].
  - by rewrite app_nil_r.
  - destruct (IH (dedup_drop st id)) as (-> & -> & ->). split_and!.
    + done.
    + cbn. destruct (ds_metas st !! id); cbn; [by rewrite <- app_assoc | done].
    + by rewrite Nat.iter_succ_r.
Qed.



(** ** DeduplicateFilter: grouping and sorting *)

Lemma sources_less_spec a b :
  sources_less a b = true
  ↔ (length (Compaction_Sources b) < length (Compaction_Sources a))%nat
    ∨ (length (Compaction_Sources a) = length (Compaction_Sources b)
       ∧ (ULID a < ULID b)%N).
Proof.
  unfold sources_less, ulid_Compare.
  destruct (Z.eqb_spec (Z.of_nat (length (Compaction_Sources a)))
                       (Z.of_nat (length (Compaction_Sources b)))) as [Heq|Hne].
  - destruct (N.compare_spec (ULID a) (ULID b)); cbn; split; try done; try lia.
    all: intros [?|[_ ?]]; lia.
  - rewrite Z.gtb_ltb, Z.ltb_lt. lia.
Qed.

Lemma sources_less_false a b :
  sources_less a b = false
  ↔ (length (Compaction_Sources a) < length (Compaction_Sources b))%nat
    ∨ (length (Compaction_Sources a) = length (Compaction_Sources b)
       ∧ (ULID b <= ULID a)%N).
Proof.
  rewrite <- not_true_iff_false, sources_less_spec. lia.
Qed.

Global Instance sources_le_trans : Transitive sources_le.
Proof. intros a b c. unfold sources_le. rewrite !sources_less_false. lia. Qed.

Global Instance sources_le_total : Total sources_le.
Proof. intros a b. unfold sources_le. rewrite !sources_less_false. lia. Qed.

Lemma sort_Slice_sorted l : StronglySorted sources_le (sort_Slice l).
Proof. apply (StronglySorted_merge_sort sources_le). Qed.

Lemma sort_Slice_perm l : sort_Slice l ≡ₚ l.
Proof. apply (merge_sort_Permutation sources_le). Qed.

(** In a sorted slice, what is sorted before a descriptor stands before it. *)
Lemma sorted_before l1 m l2 c :
  StronglySorted sources_le (l1 ++ m :: l2) →
  c ∈ l1 ++ m :: l2 → sources_less c m = true → c ∈ l1.
Proof.
  intros Hs Hin Hless. apply elem_of_app in Hin as [?|Hin]; [done|].
  apply StronglySorted_app in Hs as (_ & _ & Hs).
  apply elem_of_cons in Hin as [->|Hin].
  - apply sources_less_spec in Hless. lia.
  - apply StronglySorted_cons in Hs as [Hall _].
    rewrite Forall_forall in Hall. specialize (Hall c Hin).
    unfold sources_le in Hall. congruence.
Qed.

(** In a sorted slice of blocks with different IDs, what stands before a
    descriptor is sorted before it. *)
Lemma before_sorted l1 m l2 c :
  StronglySorted sources_le (l1 ++ m :: l2) →
  NoDup (ULID <$> l1 ++ m :: l2) →
  c ∈ l1 → sources_less c m = true.
Proof.
  intros Hs Hnd Hin.
  assert (sources_le c m) as Hle.
  { apply StronglySorted_app in Hs as (Hall & _ & _). apply Hall; [done | by left]. }
  assert (ULID c ≠ ULID m) as Hne.
  { rewrite fmap_app, fmap_cons in Hnd. apply NoDup_app in Hnd as (_ & Hdis & _).
    intros Heq. apply (Hdis (ULID c)); [by apply list_elem_of_fmap_2|].
    rewrite Heq. by left. }
  unfold sources_le in Hle. apply sources_less_false in Hle.
  apply sources_less_spec. lia.
Qed.

Lemma metasByResolution_fold (h : list Meta) (l : list (N * nat))
    (acc : gmap Z (list Meta)) (res : Z) :
  foldl (λ (acc : gmap Z (list Meta)) (e : N * nat),
           match h !! e.2 with
           | Some meta =>
               let res := Thanos_Downsample_Resolution meta in
               <[res := default [] (acc !! res) ++ [meta]]> acc
           | None => acc
           end) acc l !! res
  = match filter (λ m, Thanos_Downsample_Resolution m = res)
                 (omap (λ e : N * nat, h !! e.2) l) with
    | [] => acc !! res
    | fl => Some (default [] (acc !! res) ++ fl)
    end.
Proof.
  revert acc. induction l as [|e l IH]; intros acc; [done|].
  cbn [foldl omap list_omap]. rewrite IH. destruct (h !! e.2) as [meta|]; [|done].
  cbv zeta. destruct (decide (Thanos_Downsample_Resolution meta = res)) as [Heq|Hne].
  - rewrite filter_cons_True by done. rewrite Heq, lookup_insert_eq. cbn.
    destruct (filter _ _); [done|]. by rewrite <- app_assoc.
  - rewrite filter_cons_False by done. by rewrite lookup_insert_ne.
Qed.

Lemma metasByResolution_lookup h metas res :
  metasByResolution h metas !! res
  = match filter (λ m, Thanos_Downsample_Resolution m = res) (derefs h metas) with
    | [] => None
    | fl => Some fl
    end.
Proof.
  unfold metasByResolution, derefs. rewrite metasByResolution_fold.
  rewrite lookup_empty. by destruct (filter _ _).
Qed.

Lemma metasByResolution_slice h metas res metaSlice :
  metasByResolution h metas !! res = Some metaSlice →
  ∀ m, m ∈ metaSlice ↔ m ∈ derefs h metas ∧ Thanos_Downsample_Resolution m = res.
Proof.
  rewrite metasByResolution_lookup. intros H m.
  assert (metaSlice = filter (λ m, Thanos_Downsample_Resolution m = res)
                             (derefs h metas)) as ->.
  { destruct (filter _ _); by simplify_eq. }
  rewrite list_elem_of_filter. tauto.
Qed.

Lemma derefs_elem h (metas : gmap N nat) m :
  m ∈ derefs h metas ↔ ∃ id p, metas !! id = Some p ∧ h !! p = Some m.
Proof.
  unfold derefs. rewrite list_elem_of_omap. split.
  - intros ([id p] & Hin & Hm). apply elem_of_map_to_list in Hin. eauto.
  - intros (id & p & Hid & Hm). exists (id, p). split; [|done].
    by apply elem_of_map_to_list.
Qed.

Lemma derefs_NoDup h (metas : gmap N nat) :
  metas_keyed h metas → NoDup (ULID <$> derefs h metas).
Proof.
  intros Hk. unfold derefs.
  assert (∀ l : list (N * nat),
            (∀ e, e ∈ l → metas !! e.1 = Some e.2) → NoDup l.*1 →
            ULID <$> omap (λ e, h !! e.2) l = l.*1) as Hmap.
  { induction l as [|[id p] l IH]; intros Hl Hnd; [done|].
    apply NoDup_cons in Hnd as [_ Hnd].
    destruct (Hk id p) as (m & Hm & Hid); [apply (Hl (id, p)); by left|].
    cbn. rewrite Hm. cbn. rewrite Hid, IH; [done| |done].
    intros e He. apply Hl. by right. }
  rewrite Hmap.
  - apply NoDup_fst_map_to_list.
  - intros [id p] He. by apply elem_of_map_to_list.
  - apply NoDup_fst_map_to_list.
Qed.

Lemma dominated_spec h (metas : gmap N nat) m :
  dominated h metas m = true
  ↔ ∃ c, c ∈ derefs h metas ∧ dominates c m = true.
Proof.
  unfold dominated. rewrite existsb_true_elem. split.
  - intros ([id p] & Hin & Hd). cbn in Hd.
    destruct (h !! p) as [c|] eqn:Hc; [|done].
    exists c. split; [|done]. apply derefs_elem. exists id, p.
    split; [by apply elem_of_map_to_list | done].
  - intros (c & Hin & Hd). apply derefs_elem in Hin as (id & p & Hid & Hc).
    exists (id, p). split; [by apply elem_of_map_to_list|]. cbn. by rewrite Hc.
Qed.

Lemma NoDup_fmap_eq {A B} (f : A → B) (l : list A) x y :
  NoDup (f <$> l) → x ∈ l → y ∈ l → f x = f y → x = y.
Proof.
  induction l as [|a l IH]; intros Hnd Hx Hy Heq; [by apply elem_of_nil in Hx|].
  rewrite fmap_cons in Hnd. apply NoDup_cons in Hnd as [Ha Hnd].
  apply elem_of_cons in Hx as [->|Hx], Hy as [->|Hy]; [done| | |by apply IH].
  - destruct Ha. rewrite Heq. by apply list_elem_of_fmap_2.
  - destruct Ha. rewrite <- Heq. by apply list_elem_of_fmap_2.
Qed.

(** On a slice of blocks with different IDs [less] has no ties, and every
    sorting algorithm returns the slice [sort_Slice] returns. *)
Lemma sort_Slice_unique l sorted :
  NoDup (ULID <$> l) → sorted ≡ₚ l → StronglySorted sources_le sorted →
  sorted = sort_Slice l.
Proof.
  intros Hnd Hperm Hsorted.
  apply (StronglySorted_unique_strong sources_le);
    [|done|apply sort_Slice_sorted|by rewrite sort_Slice_perm].
  intros x1 x2 Hx1 Hx2 H12 H21. rewrite Hperm in Hx1. rewrite sort_Slice_perm in Hx2.
  apply (NoDup_fmap_eq ULID l); [done..|].
  unfold sources_le in *. apply sources_less_false in H12, H21. lia.
Qed.

(** ** DeduplicateFilter: what is removed *)

Lemma elem_of_flat_map {A B} (F : A → list B) (l : list A) (y : B) :
  y ∈ flat_map F l ↔ ∃ x, x ∈ l ∧ y ∈ F x.
Proof.
  rewrite list_elem_of_In, in_flat_map. split; intros (x & H1 & H2); exists x;
    by rewrite ?list_elem_of_In in *.
Qed.

Lemma slice_NoDup h (metas : gmap N nat) res metaSlice :
  metas_keyed h metas →
  metasByResolution h metas !! res = Some metaSlice →
  NoDup (ULID <$> sort_Slice metaSlice).
Proof.
  intros Hk H. rewrite sort_Slice_perm.
  rewrite metasByResolution_lookup in H.
  assert (metaSlice = filter (λ m, Thanos_Downsample_Resolution m = res)
                             (derefs h metas)) as ->.
  { destruct (filter _ _); by simplify_eq. }
  eapply sublist_NoDup; [by apply (derefs_NoDup h metas)|].
  apply fmap_sublist, sublist_filter.
Qed.

(** The IDs the filter goes through are those of the blocks that another
    block dominates. *)
Lemma all_duplicateULIDs_elem h (metas : gmap N nat) id :
  metas_keyed h metas →
  id ∈ all_duplicateULIDs h metas
  ↔ ∃ m, m ∈ derefs h metas ∧ ULID m = id ∧ dominated h metas m = true.
Proof.
  intros Hk. unfold all_duplicateULIDs. rewrite elem_of_flat_map. split.
  - intros ([res metaSlice] & He & Hid). apply elem_of_map_to_list in He.
    cbn [snd] in Hid. rewrite getNonRootIDs_build in Hid.
    apply list_elem_of_fmap in Hid as (m & -> & Hm).
    apply dup_metas_elem in Hm as (l1 & l2 & Hsplit & Hc). cbn [app] in Hc.
    apply existsb_true_elem in Hc as (c & Hc & Hcov).
    pose proof (sort_Slice_sorted metaSlice) as Hsorted.
    pose proof (slice_NoDup h metas res metaSlice Hk He) as Hnd.
    rewrite Hsplit in Hsorted, Hnd.
    pose proof (before_sorted l1 m l2 c Hsorted Hnd Hc) as Hless.
    assert (∀ x, x ∈ l1 ++ m :: l2 →
              x ∈ derefs h metas ∧ Thanos_Downsample_Resolution x = res) as Hslice.
    { intros x Hx. rewrite <- Hsplit, sort_Slice_perm in Hx.
      by apply (metasByResolution_slice h metas res metaSlice He). }
    destruct (Hslice m) as [Hm Hres]; [apply elem_of_app; right; by left|].
    destruct (Hslice c) as [Hcd Hcres]; [by apply elem_of_app; left|].
    exists m. split_and!; try done. apply dominated_spec. exists c.
    split; [done|]. unfold dominates. rewrite Hless, Hcov, Hres, Hcres.
    by rewrite Z.eqb_refl.
  - intros (m & Hm & <- & Hdom). apply dominated_spec in Hdom as (c & Hc & Hdom).
    unfold dominates in Hdom. apply andb_true_iff in Hdom as [Hdom Hcov].
    apply andb_true_iff in Hdom as [Hres%Z.eqb_eq Hless].
    set (res := Thanos_Downsample_Resolution m) in *.
    set (metaSlice := filter (λ x, Thanos_Downsample_Resolution x = res)
                             (derefs h metas)).
    assert (m ∈ metaSlice) as Hms by (by apply list_elem_of_filter).
    assert (c ∈ metaSlice) as Hcs by (by apply list_elem_of_filter).
    assert (metasByResolution h metas !! res = Some metaSlice) as He.
    { rewrite metasByResolution_lookup. fold metaSlice.
      destruct metaSlice; [by apply elem_of_nil in Hms | done]. }
    exists (res, metaSlice). split; [by apply elem_of_map_to_list|].
    cbn [snd]. rewrite getNonRootIDs_build. apply list_elem_of_fmap_2.
    rewrite <- sort_Slice_perm in Hms, Hcs.
    destruct (list_elem_of_split _ _ Hms) as (l1 & l2 & Hsplit).
    apply dup_metas_elem. exists l1, l2. split; [done|]. cbn [app].
    apply existsb_true_elem. exists c. split; [|done].
    pose proof (sort_Slice_sorted metaSlice) as Hsorted. rewrite Hsplit in Hsorted, Hcs.
    by eapply sorted_before.
Qed.

Lemma DeduplicateFilter_Filter_lookup f h (metas : gmap N nat) mtr id p m :
  metas_keyed h metas →
  metas !! id = Some p → h !! p = Some m →
  ds_metas (DeduplicateFilter_Filter f h metas mtr) !! id
  = if dominated h metas m then None else Some p.
Proof.
  intros Hk Hid Hp. rewrite DeduplicateFilter_Filter_eq.
  destruct (foldl_dedup_drop (all_duplicateULIDs h metas)
    {| ds_filter := f; ds_metas := metas; ds_synced := synced mtr |}) as (-> & _).
  cbn [ds_metas]. rewrite lookup_delete_all.
  assert (id ∈ all_duplicateULIDs h metas ↔ dominated h metas m = true) as Hiff.
  { rewrite (all_duplicateULIDs_elem h metas id Hk). split.
    - intros (m' & Hm' & Hu & Hd). apply derefs_elem in Hm' as (id' & p' & Hid' & Hp').
      destruct (Hk id' p' Hid') as (m'' & ? & ?). simplify_eq. done.
    - intros Hd. exists m. destruct (Hk id p Hid) as (m' & ? & ?). simplify_eq.
      split_and!; try done. apply derefs_elem. eauto. }
  case_decide as Hin.
  - apply Hiff in Hin. by rewrite Hin.
  - destruct (dominated h metas m); [|done]. by destruct Hin; apply Hiff.
Qed.

Lemma sources_less_irrefl m : sources_less m m = false.
Proof. apply sources_less_false. lia. Qed.

Lemma strict_subset_length (s1 s2 : list N) :
  NoDup s1 → strict_subset s1 s2 → (length s1 < length s2)%nat.
Proof.
  intros Hnd [Hsub (y & Hy & Hny)].
  assert (y :: s1 ⊆+ s2) as Hle.
  { apply NoDup_submseteq; [by constructor|].
    intros x [->|Hx]%elem_of_cons; auto. }
  apply submseteq_length in Hle. simpl in Hle. lia.
Qed.

Lemma dominated_outranked h (metas : gmap N nat) m :
  dominated h metas m = true ↔ outranked h metas m.
Proof.
  rewrite dominated_spec. unfold outranked, outranks. split.
  - intros (C & HC & Hd). apply derefs_elem in HC as (idC & pC & HidC & HpC).
    exists idC, pC, C. unfold dominates in Hd. rewrite !andb_true_iff in Hd.
    destruct Hd as [[Hres Hless] Hcov].
    apply Z.eqb_eq in Hres. apply sources_less_spec in Hless.
    unfold covers in Hcov. rewrite contains_spec in Hcov.
    repeat split; done.
  - intros (idC & pC & C & HidC & HpC & Hres & Hsub & Hlen).
    exists C. split; [apply derefs_elem; eauto|].
    unfold dominates. rewrite !andb_true_iff. repeat split.
    + by apply Z.eqb_eq.
    + by apply sources_less_spec.
    + unfold covers. by apply contains_spec.
Qed.

(** C4.  [metas] files every block under the ID its descriptor carries, and
    [A] lists no source twice.  When the sources of [A] are a strict subset
    of the sources of [B], both in [metas] with the same resolution, the
    filter removes [A].  [B] is removed exactly when some block of [metas]
    outranks it, in terms of the source lists as sets: a block of its
    resolution that holds all of its sources and lists more of them, or as
    many and has the smaller ULID; otherwise [B] keeps its entry. *)
Theorem DeduplicateFilter_drops_strict_subset
    f h (metas : gmap N nat) mtr idA pA A idB pB B :
  metas_keyed h metas →
  metas !! idA = Some pA → h !! pA = Some A →
  metas !! idB = Some pB → h !! pB = Some B →
  Thanos_Downsample_Resolution A = Thanos_Downsample_Resolution B →
  NoDup (Compaction_Sources A) →
  strict_subset (Compaction_Sources A) (Compaction_Sources B) →
  let r := DeduplicateFilter_Filter f h metas mtr in
  ds_metas r !! idA = None
  ∧ (ds_metas r !! idB = None ∨ ds_metas r !! idB = Some pB)
  ∧ (ds_metas r !! idB = None ↔ outranked h metas B).
Proof.
  intros Hk HidA HpA HidB HpB Hres Hnd Hss r. subst r.
  rewrite (DeduplicateFilter_Filter_lookup f h metas mtr idA pA A Hk HidA HpA).
  rewrite (DeduplicateFilter_Filter_lookup f h metas mtr idB pB B Hk HidB HpB).
  rewrite <- dominated_outranked.
  split; [|destruct (dominated h metas B); split; [by left|done|by right|done]].
  assert (dominated h metas A = true) as ->; [|done].
  apply dominated_outranked. exists idB, pB, B. split; [done|]. split; [done|].
  split; [done|]. split; [apply Hss|]. left.
  by apply strict_subset_length.
Qed.

(** The filter keeps a block whose sources are a strict subset of those of
    another block of its resolution, when it lists a source twice, so that it
    has as many entries as the other block and the smaller ULID, and when its
    descriptor carries another ULID than the one it is filed under, so that
    [delete(metas, id)] misses it. *)
Lemma DeduplicateFilter_keeps_strict_subset :
  (let r := DeduplicateFilter_Filter NewDeduplicateFilter repeated_heap two_metas
              newSyncMetrics in
   strict_subset [10; 10]%N [10; 11]%N
   ∧ two_metas !! 1%N = Some 0%nat
   ∧ repeated_heap !! 0%nat = Some (dedup_block 1 [10; 10]%N 0)
   ∧ two_metas !! 2%N = Some 1%nat
   ∧ repeated_heap !! 1%nat = Some (dedup_block 2 [10; 11]%N 0)
   ∧ ds_metas r !! 1%N = Some 0%nat)
  ∧ (let r := DeduplicateFilter_Filter NewDeduplicateFilter miskeyed_heap two_metas
                newSyncMetrics in
     strict_subset [10]%N [10; 11]%N
     ∧ miskeyed_heap !! 0%nat = Some (dedup_block 7 [10]%N 0)
     ∧ miskeyed_heap !! 1%nat = Some (dedup_block 2 [10; 11]%N 0)
     ∧ ds_metas r !! 1%N = Some 0%nat
     ∧ tx_get (ds_synced r) duplicateMeta = 1).
Proof.
  assert (∀ l : list N, (∀ x, x ∈ l → x = 10%N) → strict_subset l [10; 11]%N) as Hss.
  { intros l Hl. split.
    - intros x ->%Hl. by left.
    - exists 11%N. split; [right; by left|]. by intros ?%Hl. }
  split.
  - split_and!; try (vm_compute; reflexivity).
    apply Hss. intros x Hx. repeat (apply elem_of_cons in Hx as [->|Hx]; [done|]).
    by apply elem_of_nil in Hx.
  - split_and!; try (vm_compute; reflexivity).
    apply Hss. intros x Hx. repeat (apply elem_of_cons in Hx as [->|Hx]; [done|]).
    by apply elem_of_nil in Hx.
Qed.



(** ** DeduplicateFilter at a sample input *)

Lemma metas_keyed_check h (metas : gmap N nat) :
  forallb (λ e, match h !! e.2 with
                | Some m => (ULID m =? e.1)%N
                | None => false
                end) (map_to_list metas) = true →
  metas_keyed h metas.
Proof.
  rewrite forallb_forall. intros Hall id p Hid.
  apply elem_of_map_to_list, list_elem_of_In, Hall in Hid. cbn in Hid.
  destruct (h !! p) as [m|]; [|done]. apply N.eqb_eq in Hid. eauto.
Qed.

Lemma DeduplicateFilter_drops_strict_subset_witness :
  let r := DeduplicateFilter_Filter NewDeduplicateFilter dedup_heap dedup_metas
             newSyncMetrics in
  ds_metas r !! 2%N = None
  ∧ (ds_metas r !! 1%N = None ∨ ds_metas r !! 1%N = Some 0%nat)
  ∧ (ds_metas r !! 1%N = None
     ↔ outranked dedup_heap dedup_metas (dedup_block 1 [10; 11]%N 0)).
Proof.
  apply (DeduplicateFilter_drops_strict_subset NewDeduplicateFilter dedup_heap
           dedup_metas newSyncMetrics
           2%N 1%nat (dedup_block 2 [10]%N 0)
           1%N 0%nat (dedup_block 1 [10; 11]%N 0)).
  - apply metas_keyed_check. vm_compute. reflexivity.
  - reflexivity.
  - reflexivity.
  - reflexivity.
  - reflexivity.
  - reflexivity.
  - repeat constructor. by intros ?%elem_of_nil.
  - split.
    + intros x ->%list_elem_of_singleton. by left.
    + exists 11%N. split; [right; left|].
      by intros ?%list_elem_of_singleton.
Defined.


(** The filter on the four sample blocks: block 2 goes, the blocks of other
    sources or of another resolution stay. *)
Example DeduplicateFilter_sample :
  let r := DeduplicateFilter_Filter NewDeduplicateFilter dedup_heap dedup_metas
             newSyncMetrics in
  ds_metas r !! 1%N = Some 0%nat ∧ ds_metas r !! 2%N = None
  ∧ ds_metas r !! 3%N = Some 2%nat ∧ ds_metas r !! 4%N = Some 3%nat
  ∧ DuplicateIDs (ds_filter r) = [2%N]
  ∧ tx_get (ds_synced r) duplicateMeta = 1.
Proof. vm_compute. split_and!; reflexivity. Qed.

(** Two fetches of a bucket that does not change, with the deduplication as
    the only filter: the ID of the duplicate is listed twice. *)
Example DuplicateIDs_after_two_fetches :
  let bkt := {| bkt_Iter := [1; 2; 3]%N; bkt_Iter_err := None;
                bkt_Exists := λ _, ExistsOk true;
                bkt_Get := λ id,
                  GetContent (Unmarshaled
                    (dedup_block id (if decide (id = 1%N) then [10; 11]%N
                                     else if decide (id = 2%N) then [10]%N
                                     else [12]%N) 0)) |} in
  let s := NewMetaFetcher 4 "" [Deduplicate_filter] in
  let r1 := Fetch s bkt sample_world in
  let r2 := Fetch (ret_fetcher r1) bkt (ret_world r1) in
  DuplicateIDs (dedupFilter (ret_world r1)) = [2%N]
  ∧ DuplicateIDs (dedupFilter (ret_world r2)) = [2%N; 2%N]
  ∧ ret_metas r1 = ret_metas r2.
Proof. vm_compute. split_and!; reflexivity. Qed.

(** * Further properties *)

(** ** TimePartitionMetaFilter *)

Lemma TimePartition_body_eq f h st e :
  TimePartition_body f h st e
  = if tp_drops f h e
    then (delete e.1 st.1, count_in timeExcludedMeta st.2)
    else st.
Proof.
  unfold TimePartition_body, tp_drops.
  destruct (h !! e.2) as [m|]; [|done]. by destruct (inTimePartition f m).
Qed.

(** X1.  [TimePartitionMetaFilter.Filter] keeps a block exactly when its time
    range meets the partition ([MaxTime >= minTime] and [MinTime <= maxTime]),
    keeps the pointer it had, and counts every block it removes, and nothing
    else, in [synced{state=time-excluded}]. *)
Theorem TimePartition_Filter_spec f h (metas : gmap N nat) μ :
  let r := TimePartitionMetaFilter_Filter f h metas μ in
  (∀ id p m, metas !! id = Some p → h !! p = Some m →
     r.1 !! id = (if decide (minTime f ≤ MaxTime m ∧ MinTime m ≤ maxTime f)
                  then Some p else None))
  ∧ (∀ id, metas !! id = None → r.1 !! id = None)
  ∧ (∀ label, tx_get (synced r.2) label
              = tx_get (synced μ) label
                + (if decide (timeExcludedMeta = label)
                   then Z.of_nat (size metas - size r.1) else 0)).
Proof.
  intros r. subst r. unfold TimePartitionMetaFilter_Filter. split_and!.
  - intros id p m Hid Hp.
    rewrite (drop_loop_lookup _ _ _ (TimePartition_body_eq f h)), Hid.
    unfold tp_drops, inTimePartition. cbn. rewrite Hp.
    destruct (Z.geb_spec (MaxTime m) (minTime f)), (Z.leb_spec (MinTime m) (maxTime f));
      cbn; case_decide; try done; lia.
  - intros id Hid.
    by rewrite (drop_loop_lookup _ _ _ (TimePartition_body_eq f h)), Hid.
  - intros label.
    rewrite (drop_loop_count _ _ _ (TimePartition_body_eq f h)) at 1.
    unfold count_in. rewrite synced_iter_count. apply tx_get_iter_Inc.
Qed.

Lemma TimePartition_Filter_spec_witness :
  let r := TimePartitionMetaFilter_Filter {| minTime := 8000000; maxTime := 9000000 |}
             [sample_meta 1 1] {[1%N := 0%nat]} newSyncMetrics in
  r.1 !! 1%N = None.
Proof.
  intros r.
  destruct (TimePartition_Filter_spec {| minTime := 8000000; maxTime := 9000000 |}
              [sample_meta 1 1] {[1%N := 0%nat]} newSyncMetrics) as (H & _ & _).
  subst r. rewrite (H 1%N 0%nat (sample_meta 1 1)); reflexivity.
Defined.

(** ** LabelShardedMetaFilter *)

Lemma LabelSharded_body_eq f h st e :
  LabelSharded_body f h st e
  = if ls_drops f h e
    then (delete e.1 st.1, count_in labelExcludedMeta st.2)
    else st.
Proof.
  unfold LabelSharded_body, ls_drops. by destruct (h !! e.2) as [m|].
Qed.

(** X2.  [LabelShardedMetaFilter.Filter] removes a block exactly when
    relabelling its label vector leaves no label, and counts the blocks it
    removes in [synced{state=label-excluded}].  The vector is never empty: it
    starts with [__block_id]; so a relabelling that returns nothing only for
    the empty vector removes no block. *)
Theorem LabelSharded_Filter_spec f h (metas : gmap N nat) μ :
  let r := LabelShardedMetaFilter_Filter f h metas μ in
  (∀ id p m, metas !! id = Some p → h !! p = Some m →
     r.1 !! id = (if decide (relabel_Process f (shard_labels f id m) = [])
                  then None else Some p))
  ∧ (∀ label, tx_get (synced r.2) label
              = tx_get (synced μ) label
                + (if decide (labelExcludedMeta = label)
                   then Z.of_nat (size metas - size r.1) else 0))
  ∧ ((∀ lbls, relabel_Process f lbls = [] → lbls = []) →
     r.1 = metas ∧ synced r.2 = synced μ).
Proof.
  intros r. subst r. unfold LabelShardedMetaFilter_Filter.
  assert (∀ id p m, metas !! id = Some p → h !! p = Some m →
            ls_drops f h (id, p)
            = bool_decide (relabel_Process f (shard_labels f id m) = [])) as Hd.
  { intros id p m _ Hp. unfold ls_drops. cbn. rewrite Hp.
    apply bool_decide_ext. apply length_zero_iff_nil. }
  split_and!.
  - intros id p m Hid Hp.
    rewrite (drop_loop_lookup _ _ _ (LabelSharded_body_eq f h)), Hid.
    rewrite (Hd id p m Hid Hp). by case_bool_decide; case_decide.
  - intros label.
    rewrite (drop_loop_count _ _ _ (LabelSharded_body_eq f h)) at 1.
    unfold count_in. rewrite synced_iter_count. apply tx_get_iter_Inc.
  - intros Hne.
    assert (filter (λ e, ls_drops f h e) (map_to_list metas) = []) as Hnil.
    { apply elem_of_nil_inv. intros [id p] [Hdr Hin]%list_elem_of_filter.
      apply elem_of_map_to_list in Hin. unfold ls_drops in Hdr. cbn in Hdr.
      destruct (h !! p) as [m|]; [|done].
      apply bool_decide_unpack, length_zero_iff_nil, Hne in Hdr. done. }
    rewrite (drop_loop_fold _ _ _ (LabelSharded_body_eq f h)), Hnil. done.
Qed.

Lemma LabelSharded_Filter_spec_witness :
  let f := {| relabel_Process := λ lbls, lbls; ulid_String := λ _, "01" |} in
  let r := LabelShardedMetaFilter_Filter f [sample_meta 1 1] {[1%N := 0%nat]}
             newSyncMetrics in
  r.1 = {[1%N := 0%nat]} ∧ synced r.2 = synced newSyncMetrics.
Proof.
  intros f r.
  destruct (LabelSharded_Filter_spec f [sample_meta 1 1] {[1%N := 0%nat]}
              newSyncMetrics) as (_ & _ & H).
  apply H. intros lbls Hl. exact Hl.
Defined.

(** ** ConsistencyDelayMetaFilter *)

(** X3.  A block that comes from the compactor, from a compactor repair or
    from a bucket repair is never removed by the consistency delay, however
    fresh it is and whatever the delay. *)
Theorem ConsistencyDelay_trusted_kept f now h (metas : gmap N nat) μ id p m :
  metas !! id = Some p → h !! p = Some m →
  Thanos_Source m = BucketRepairSource ∨ Thanos_Source m = CompactorSource
  ∨ Thanos_Source m = CompactorRepairSource →
  (ConsistencyDelayMetaFilter_Filter f now h metas μ).1 !! id = Some p.
Proof.
  intros Hid Hp Hsrc. rewrite ConsistencyDelay_Filter_lookup, Hid.
  unfold cd_drops, tooFresh. cbn. rewrite Hp.
  destruct Hsrc as [Hs|[Hs|Hs]]; rewrite Hs; cbn; by rewrite ?andb_false_r.
Qed.

Lemma ConsistencyDelay_trusted_kept_witness :
  (ConsistencyDelayMetaFilter_Filter {| consistencyDelay := 1800 * 1000 * Millisecond |}
     1000 [dedup_block (ulid_MustNew 999) [1%N] 0] {[ulid_MustNew 999 := 0%nat]}
     newSyncMetrics).1 !! ulid_MustNew 999 = Some 0%nat.
Proof.
  apply (ConsistencyDelay_trusted_kept _ _ _ _ _ _ _ (dedup_block (ulid_MustNew 999) [1%N] 0)).
  - reflexivity.
  - reflexivity.
  - right. left. reflexivity.
Defined.

(** X4.  A consistency delay below one millisecond (zero included) is no
    delay: the division by [time.Millisecond] truncates it to 0, and the
    filter removes nothing and counts nothing. *)
Theorem ConsistencyDelay_below_millisecond f now h (metas : gmap N nat) μ :
  0 ≤ consistencyDelay f < Millisecond →
  ConsistencyDelayMetaFilter_Filter f now h metas μ = (metas, μ).
Proof.
  intros Hd. unfold ConsistencyDelayMetaFilter_Filter.
  rewrite (drop_loop_fold _ _ _ (ConsistencyDelay_body_eq f now h)).
  assert (filter (λ e, cd_drops f now h e) (map_to_list metas) = []) as ->; [|done].
  apply elem_of_nil_inv. intros [id p] [Hdr _]%list_elem_of_filter.
  unfold cd_drops, tooFresh in Hdr. cbn in Hdr. destruct (h !! p) as [m|]; [|done].
  rewrite Z.quot_small in Hdr by done.
  rewrite bool_decide_eq_false_2 in Hdr; [done|].
  unfold uint64. pose proof (Z.mod_pos_bound (now mod 2 ^ 64 - ulid_Time id) (2 ^ 64)).
  rewrite (Z.mod_small 0) by lia. lia.
Qed.

Lemma ConsistencyDelay_below_millisecond_witness :
  ConsistencyDelayMetaFilter_Filter {| consistencyDelay := 999999 |} 1000
    [sample_meta (ulid_MustNew 1000) 1] {[ulid_MustNew 1000 := 0%nat]} newSyncMetrics
  = ({[ulid_MustNew 1000 := 0%nat]}, newSyncMetrics).
Proof.
  apply (ConsistencyDelay_below_millisecond {| consistencyDelay := 999999 |}).
  vm_compute. split; [discriminate | reflexivity].
Defined.

Lemma ConsistencyDelay_Filter_past_witness :
  (ConsistencyDelayMetaFilter_Filter {| consistencyDelay := 1800 * 1000 * Millisecond |}
     3000 [future_meta] {[ulid_MustNew 2000 := 0%nat]} newSyncMetrics).1
    !! ulid_MustNew 2000 = None
  ↔ 3000 - (1800 * 1000 * Millisecond) ÷ Millisecond < ulid_Time (ulid_MustNew 2000)
    ∧ Thanos_Source future_meta ≠ BucketRepairSource
    ∧ Thanos_Source future_meta ≠ CompactorSource
    ∧ Thanos_Source future_meta ≠ CompactorRepairSource.
Proof.
  apply (ConsistencyDelay_Filter_past
           {| consistencyDelay := 1800 * 1000 * Millisecond |} 3000
           [future_meta] {[ulid_MustNew 2000 := 0%nat]} newSyncMetrics
           (ulid_MustNew 2000) 0%nat future_meta).
  - vm_compute. split; [discriminate | reflexivity].
  - vm_compute. split; [discriminate | reflexivity].
  - reflexivity.
  - reflexivity.
  - vm_compute. discriminate.
Defined.

(** ** IgnoreDeletionMarkFilter *)

Lemma IgnoreDeletionMark_range_delay env ids st :
  delay (ms_filter (IgnoreDeletionMark_range env ids st).2) = delay (ms_filter st).
Proof.
  revert st. induction ids as [|id ids IH]; intros st; cbn; [done|].
  destruct (ReadDeletionMark env id) as [dm| |e|e]; [|by apply IH..|done].
  destruct (since_exceeds env _ _); by rewrite IH.
Qed.

Lemma IgnoreDeletionMark_range_ok env ids st st' :
  IgnoreDeletionMark_range env ids st = (None, st') →
  ms_metas st' = delete_all (filter (λ id, mark_expired env (delay (ms_filter st)) id) ids)
                            (ms_metas st)
  ∧ ms_metrics st'
    = Nat.iter (length (filter (λ id, mark_expired env (delay (ms_filter st)) id) ids))
               (count_in markedForDeletionMeta) (ms_metrics st).
Proof.
  revert st. induction ids as [|id ids IH]; intros st H; cbn in H.
  - by inversion H.
  - destruct (mark_expired env (delay (ms_filter st)) id) eqn:Hexp.
    + rewrite filter_cons_True by (by apply Is_true_true).
      unfold mark_expired in Hexp.
      destruct (ReadDeletionMark env id) as [dm| |e|e]; try done.
      cbn in H. rewrite Hexp in H. apply IH in H. cbn in H.
      cbn [length]. rewrite Nat.iter_succ_r. apply H.
    + rewrite filter_cons_False by (intros ?%Is_true_true; congruence).
      unfold mark_expired in Hexp.
      destruct (ReadDeletionMark env id) as [dm| |e|e]; [|by apply IH..|done].
      cbn in H. rewrite Hexp in H. by apply IH in H.
Qed.

Lemma IgnoreDeletionMark_range_err env ids st :
  (IgnoreDeletionMark_range env ids st).1
  = match filter (λ id, mark_fails env id) ids with
    | [] => None
    | id :: _ => match ReadDeletionMark env id with
                 | MarkOtherError e => Some e
                 | _ => None
                 end
    end.
Proof.
  revert st. induction ids as [|id ids IH]; intros st; [done|].
  cbn [IgnoreDeletionMark_range].
  destruct (mark_fails env id) eqn:Hf.
  - rewrite filter_cons_True by (by apply Is_true_true). unfold mark_fails in Hf.
    by destruct (ReadDeletionMark env id).
  - rewrite filter_cons_False by (intros ?%Is_true_true; congruence). unfold mark_fails in Hf.
    destruct (ReadDeletionMark env id) as [dm| |e|e]; [|by apply IH..|done].
    destruct (since_exceeds env _ _); apply IH.
Qed.

(** X6.  When [IgnoreDeletionMarkFilter.Filter] returns nil, it has removed
    from [metas] exactly the blocks whose mark parsed and is older than the
    delay; a block without a mark, with a mark that does not parse, or with a
    mark still within the delay keeps its entry; and
    [synced{state=marked-for-deletion}] has grown by the number of blocks
    removed. *)
Theorem IgnoreDeletionMark_Filter_metas env f (metas : gmap N nat) μ :
  let r := IgnoreDeletionMarkFilter_Filter env f metas μ in
  r.1 = None →
  (∀ id, ms_metas r.2 !! id
         = if mark_expired env (delay f) id then None else metas !! id)
  ∧ (∀ label, tx_get (synced (ms_metrics r.2)) label
              = tx_get (synced μ) label
                + (if decide (markedForDeletionMeta = label)
                   then Z.of_nat (size metas - size (ms_metas r.2)) else 0)).
Proof.
  intros r Hnil. subst r. unfold IgnoreDeletionMarkFilter_Filter in *.
  destruct (IgnoreDeletionMark_range _ _ _) as [e st'] eqn:Hr. cbn in Hnil. subst e.
  apply IgnoreDeletionMark_range_ok in Hr as [Hm Hc]. cbn in Hm, Hc. cbn [snd].
  set (ks := filter (λ id, mark_expired env (delay f) id) (map_to_list metas).*1) in *.
  assert (∀ id, id ∈ ks ↔ mark_expired env (delay f) id = true ∧ is_Some (metas !! id))
    as Hks.
  { intros id. unfold ks. rewrite list_elem_of_filter, list_elem_of_fmap.
    rewrite Is_true_true. split.
    - intros [? ([k p] & -> & Hin)]. apply elem_of_map_to_list in Hin. eauto.
    - intros [? [p Hp]]. split; [done|]. exists (id, p).
      split; [done|]. by apply elem_of_map_to_list. }
  split.
  - intros id. rewrite Hm, lookup_delete_all. case_decide as Hin.
    + apply Hks in Hin as [-> _]. done.
    + destruct (mark_expired env (delay f) id) eqn:He; [|done].
      destruct (metas !! id) eqn:Hid; [|done]. destruct Hin. apply Hks. eauto.
  - intros label. rewrite Hc. unfold count_in. rewrite synced_iter_count.
    rewrite tx_get_iter_Inc. case_decide; [|done]. do 2 f_equal.
    assert (size (delete_all ks metas) + length ks = size metas)%nat as Hs.
    { apply size_delete_all.
      - apply NoDup_filter, NoDup_fst_map_to_list.
      - intros k Hk. by apply Hks in Hk as [_ ?]. }
    rewrite Hm. lia.
Qed.

Lemma IgnoreDeletionMark_Filter_metas_witness :
  let r := IgnoreDeletionMarkFilter_Filter mark_env_example
             (NewIgnoreDeletionMarkFilter (100 * 1000000000))
             mark_metas_example newSyncMetrics in
  (∀ id, ms_metas r.2 !! id
         = if mark_expired mark_env_example (100 * 1000000000) id
           then None else mark_metas_example !! id)
  ∧ (∀ label, tx_get (synced (ms_metrics r.2)) label
              = tx_get (synced newSyncMetrics) label
                + (if decide (markedForDeletionMeta = label)
                   then Z.of_nat (size mark_metas_example - size (ms_metas r.2))
                   else 0)).
Proof.
  apply (IgnoreDeletionMark_Filter_metas mark_env_example
           (NewIgnoreDeletionMarkFilter (100 * 1000000000))
           mark_metas_example newSyncMetrics).
  vm_compute. reflexivity.
Defined.

(** X7.  [IgnoreDeletionMarkFilter.Filter] returns an error exactly when
    reading the mark of some block of [metas] fails with an error other than
    not-found or a parse error, and the error it returns is the one of such a
    block; a mark that does not parse never makes the filter fail. *)
Theorem IgnoreDeletionMark_Filter_error env f (metas : gmap N nat) μ :
  let r := IgnoreDeletionMarkFilter_Filter env f metas μ in
  (is_Some r.1
   ↔ ∃ id e, is_Some (metas !! id) ∧ ReadDeletionMark env id = MarkOtherError e)
  ∧ (∀ e, r.1 = Some e →
       ∃ id, is_Some (metas !! id) ∧ ReadDeletionMark env id = MarkOtherError e).
Proof.
  intros r. subst r. unfold IgnoreDeletionMarkFilter_Filter.
  rewrite IgnoreDeletionMark_range_err.
  assert (∀ id, id ∈ (map_to_list metas).*1 ↔ is_Some (metas !! id)) as Hkeys.
  { intros id. rewrite list_elem_of_fmap. split.
    - intros ([k p] & -> & Hin). apply elem_of_map_to_list in Hin. eauto.
    - intros [p Hp]. exists (id, p). split; [done|]. by apply elem_of_map_to_list. }
  destruct (filter _ _) as [|id l] eqn:Hf.
  - split.
    + split; [by intros [? ?]|]. intros (id & e & Hid & Hr).
      assert (id ∈ filter (λ id, mark_fails env id) (map_to_list metas).*1) as Hin.
      { apply list_elem_of_filter. split; [|by apply Hkeys].
        unfold mark_fails. by rewrite Hr. }
      rewrite Hf in Hin. by apply elem_of_nil in Hin.
    + done.
  - assert (id ∈ filter (λ id, mark_fails env id) (map_to_list metas).*1) as Hin
      by (rewrite Hf; left).
    apply list_elem_of_filter in Hin as [Hfail Hin]. apply Hkeys in Hin.
    unfold mark_fails in Hfail.
    destruct (ReadDeletionMark env id) as [dm| |e|e] eqn:Hr; try done.
    split.
    + split; [eauto|]. by eexists.
    + intros e' [= <-]. eauto.
Qed.

(** ** ReplicaLabelRemover *)

Lemma set_Thanos_Labels_id m : set_Thanos_Labels m (Thanos_Labels m) = m.
Proof. by destruct m. Qed.

Lemma lookup_strip_labels ls (l : gmap string string) k :
  strip_labels ls l !! k = if decide (k ∈ ls) then None else l !! k.
Proof.
  unfold strip_labels. revert l. induction ls as [|a ls IH]; intros l; cbn [foldl].
  - case_decide as H; [by inversion H | done].
  - rewrite IH. destruct (decide (k = a)) as [->|Hne].
    + rewrite lookup_delete_eq. rewrite (decide_True (P := a ∈ a :: ls)) by left.
      by case_decide.
    + rewrite lookup_delete_ne by done.
      case_decide as H1; case_decide as H2; try done.
      * exfalso. apply H2. by right.
      * apply elem_of_cons in H2 as [?|?]; done.
Qed.

Lemma strip_meta_idemp ls m : strip_meta ls (strip_meta ls m) = strip_meta ls m.
Proof.
  unfold strip_meta, set_Thanos_Labels. cbn. f_equal.
  apply map_eq. intros k. rewrite !lookup_strip_labels. by case_decide.
Qed.

Lemma ReplicaLabelRemover_inner_fold p ls (st : Heap * syncMetrics) :
  (foldl (ReplicaLabelRemover_inner p) st ls).1
  = match st.1 !! p with
    | Some m => <[p := strip_meta ls m]> st.1
    | None => st.1
    end.
Proof.
  revert st. induction ls as [|k ls IH]; intros [h μ]; cbn [foldl fst].
  - destruct (h !! p) as [m|] eqn:Hp; [|done].
    unfold strip_meta, strip_labels. cbn [foldl].
    by rewrite set_Thanos_Labels_id, list_insert_id.
  - rewrite IH. unfold ReplicaLabelRemover_inner. cbn [fst snd].
    destruct (h !! p) as [m|] eqn:Hp; cbn [fst]; [|by rewrite ?Hp].
    destruct (Thanos_Labels m !! k) as [v|] eqn:Hk; cbn [fst].
    + rewrite list_lookup_insert_eq by (by eapply lookup_lt_Some).
      by rewrite list_insert_insert_eq.
    + rewrite ?Hp. unfold strip_meta, strip_labels. cbn [foldl].
      by rewrite (delete_id _ _ Hk).
Qed.

Lemma ReplicaLabelRemover_Modify_fold ls (es : list (N * nat)) (h : Heap) μ p :
  (foldl (λ st e, foldl (ReplicaLabelRemover_inner e.2) st ls) (h, μ) es).1 !! p
  = if decide (p ∈ es.*2) then strip_meta ls <$> h !! p else h !! p.
Proof.
  revert h μ. induction es as [|[id q] es IH]; intros h μ; cbn [foldl snd].
  - case_decide as H; [by inversion H | done].
  - destruct (foldl (ReplicaLabelRemover_inner q) (h, μ) ls) as [h1 μ1] eqn:E.
    rewrite IH.
    assert (h1 !! p = if decide (p = q) then strip_meta ls <$> h !! p else h !! p)
      as Hh1.
    { pose proof (ReplicaLabelRemover_inner_fold q ls (h, μ)) as Hf.
      rewrite E in Hf. cbn [fst] in Hf. rewrite Hf.
      destruct (h !! q) as [m|] eqn:Hq.
      - destruct (decide (p = q)) as [Hpq|Hpq].
        + subst p. rewrite Hq. cbn.
          by rewrite list_lookup_insert_eq by (by eapply lookup_lt_Some).
        + by rewrite list_lookup_insert_ne.
      - destruct (decide (p = q)) as [Hpq|Hpq]; [subst p; by rewrite Hq | done]. }
    rewrite Hh1. rewrite fmap_cons. cbn [snd].
    destruct (decide (p = q)) as [->|Hne].
    + rewrite (decide_True (P := q ∈ q :: es.*2)) by left.
      destruct (decide (q ∈ es.*2)); [|done].
      destruct (h !! q) as [m|]; cbn; [|done]. by rewrite strip_meta_idemp.
    + destruct (decide (p ∈ es.*2)) as [H1|H1];
        destruct (decide (p ∈ q :: es.*2)) as [H2|H2]; try done.
      * exfalso. apply H2. by right.
      * apply elem_of_cons in H2 as [?|?]; done.
Qed.

Lemma ReplicaLabelRemover_Modify_length r (h : Heap) (metas : gmap N nat) μ :
  length (ReplicaLabelRemover_Modify r h metas μ).1 = length h.
Proof.
  unfold ReplicaLabelRemover_Modify.
  assert (∀ q, (foldl (λ st e, foldl (ReplicaLabelRemover_inner e.2) st
                                  (replicaLabels r)) (h, μ) (map_to_list metas)).1 !! q
               = if decide (q ∈ (map_to_list metas).*2)
                 then strip_meta (replicaLabels r) <$> h !! q else h !! q) as Hl.
  { intros q. apply ReplicaLabelRemover_Modify_fold. }
  apply Nat.le_antisymm.
  - apply Nat.nlt_ge. intros Hlt.
    destruct (lookup_lt_is_Some_2 _ _ Hlt) as [x Hx].
    rewrite Hl in Hx. rewrite (lookup_ge_None_2 h (length h)) in Hx by lia.
    by case_decide.
  - apply Nat.nlt_ge. intros Hlt.
    destruct (lookup_lt_is_Some_2 _ _ Hlt) as [x Hx].
    pose proof (Hl (length
      (foldl (λ st e, foldl (ReplicaLabelRemover_inner e.2) st (replicaLabels r))
             (h, μ) (map_to_list metas)).1)) as Hq.
    rewrite lookup_ge_None_2 in Hq by lia. rewrite Hx in Hq.
    by case_decide.
Qed.

(** X8.  [ReplicaLabelRemover.Modify] reaches the descriptors through the
    pointers of [metas] and nothing else: a descriptor some entry of [metas]
    points to loses exactly the replica labels and keeps every other label
    and every other field; a descriptor no entry points to is left as it
    was; and no descriptor is added or dropped. *)
Theorem ReplicaLabelRemover_Modify_spec r (h : Heap) (metas : gmap N nat) μ p :
  let h' := (ReplicaLabelRemover_Modify r h metas μ).1 in
  length h' = length h
  ∧ ((∃ id, metas !! id = Some p) →
     ∀ m, h !! p = Some m →
       ∃ m', h' !! p = Some m'
         ∧ (∀ k, Thanos_Labels m' !! k
                 = if decide (k ∈ replicaLabels r) then None
                   else Thanos_Labels m !! k)
         ∧ set_Thanos_Labels m' (Thanos_Labels m) = m)
  ∧ ((∀ id, metas !! id ≠ Some p) → h' !! p = h !! p).
Proof.
  intros h'. subst h'. unfold ReplicaLabelRemover_Modify.
  assert (∀ q, (foldl (λ st e, foldl (ReplicaLabelRemover_inner e.2) st
                                  (replicaLabels r)) (h, μ) (map_to_list metas)).1 !! q
               = if decide (q ∈ (map_to_list metas).*2)
                 then strip_meta (replicaLabels r) <$> h !! q else h !! q) as Hl.
  { intros q. apply ReplicaLabelRemover_Modify_fold. }
  split; [|split].
  - apply (ReplicaLabelRemover_Modify_length r h metas μ).
  - intros [id Hid] m Hm. rewrite Hl, Hm.
    rewrite decide_True.
    + eexists. split; [done|]. split.
      * intros k. cbn. apply lookup_strip_labels.
      * by destruct m.
    + apply list_elem_of_fmap. exists (id, p). split; [done|].
      by apply elem_of_map_to_list.
  - intros Hno. rewrite Hl. rewrite decide_False; [done|].
    intros ([id q] & -> & Hin)%list_elem_of_fmap.
    apply elem_of_map_to_list in Hin. by apply (Hno id).
Qed.

Lemma total_labels_insert (h : Heap) p m m' :
  h !! p = Some m →
  (total_labels (<[p := m']> h) + size (Thanos_Labels m)
   = total_labels h + size (Thanos_Labels m'))%nat.
Proof.
  unfold total_labels. revert p. induction h as [|x h IH]; intros [|p] Hp;
    simplify_eq/=; [lia|].
  specialize (IH p Hp). lia.
Qed.

Lemma ReplicaLabelRemover_inner_count p (st : Heap * syncMetrics) k :
  Z.of_nat (total_labels (ReplicaLabelRemover_inner p st k).1)
    + removed (ReplicaLabelRemover_inner p st k).2
  = Z.of_nat (total_labels st.1) + removed st.2.
Proof.
  destruct st as [h μ]. unfold ReplicaLabelRemover_inner. cbn [fst snd].
  destruct (h !! p) as [m|] eqn:Hp; [|done].
  destruct (Thanos_Labels m !! k) as [v|] eqn:Hk; [|done]. cbn [fst snd].
  pose proof (total_labels_insert h p m
    (set_Thanos_Labels m (delete k (Thanos_Labels m))) Hp) as Ht.
  cbn [Thanos_Labels set_Thanos_Labels] in Ht.
  pose proof (map_size_delete_Some k (Thanos_Labels m) (ltac:(eauto))) as Hs.
  assert (size (Thanos_Labels m) ≠ 0)%nat as Hnz.
  { intros H0. apply map_size_empty_inv in H0. rewrite H0 in Hk.
    by rewrite lookup_empty in Hk. }
  unfold removed, with_modified. cbn [modified].
  rewrite tx_get_Inc. rewrite decide_True by done. lia.
Qed.

Lemma ReplicaLabelRemover_inner_fold_count p ls (st : Heap * syncMetrics) :
  let st' := foldl (ReplicaLabelRemover_inner p) st ls in
  Z.of_nat (total_labels st'.1) + removed st'.2
    = Z.of_nat (total_labels st.1) + removed st.2
  ∧ removed st.2 ≤ removed st'.2
  ∧ synced st'.2 = synced st.2.
Proof.
  revert st. induction ls as [|k ls IH]; intros st; cbn [foldl]; [done|].
  destruct (IH (ReplicaLabelRemover_inner p st k)) as (H1 & H2 & H3).
  pose proof (ReplicaLabelRemover_inner_count p st k) as Hc.
  assert (removed st.2 ≤ removed (ReplicaLabelRemover_inner p st k).2
          ∧ synced (ReplicaLabelRemover_inner p st k).2 = synced st.2) as [H4 H5].
  { destruct st as [h0 μ0]. unfold ReplicaLabelRemover_inner. cbn [fst snd].
    destruct (h0 !! p) as [m|]; [|done].
    destruct (Thanos_Labels m !! k); [|done]. cbn [fst snd].
    unfold removed, with_modified. cbn [modified synced].
    rewrite tx_get_Inc. rewrite decide_True by done. split; [lia|done]. }
  split; [lia|]. split; [lia|congruence].
Qed.

Lemma ReplicaLabelRemover_fold_count ls (es : list (N * nat)) (st : Heap * syncMetrics) :
  let st' := foldl (λ st e, foldl (ReplicaLabelRemover_inner e.2) st ls) st es in
  Z.of_nat (total_labels st'.1) + removed st'.2
    = Z.of_nat (total_labels st.1) + removed st.2
  ∧ removed st.2 ≤ removed st'.2
  ∧ synced st'.2 = synced st.2.
Proof.
  revert st. induction es as [|e es IH]; intros st; cbn [foldl]; [done|].
  destruct (IH (foldl (ReplicaLabelRemover_inner e.2) st ls)) as (H1 & H2 & H3).
  destruct (ReplicaLabelRemover_inner_fold_count e.2 ls st) as (H4 & H5 & H6).
  split; [lia|]. split; [lia|congruence].
Qed.

(** X9.  The gauge [modified] of [ReplicaLabelRemover.Modify] counts label
    deletions: what it gains for [replica-label-removed] is the number of
    external labels the descriptors have lost, whatever pointers the entries
    of [metas] share and however often a label is listed.  The gauges of
    [synced] are not touched. *)
Theorem ReplicaLabelRemover_Modify_count r (h : Heap) (metas : gmap N nat) μ :
  let st := ReplicaLabelRemover_Modify r h metas μ in
  removed st.2 = removed μ + (Z.of_nat (total_labels h) - Z.of_nat (total_labels st.1))
  ∧ (total_labels st.1 ≤ total_labels h)%nat
  ∧ synced st.2 = synced μ.
Proof.
  intros st. subst st. unfold ReplicaLabelRemover_Modify.
  destruct (ReplicaLabelRemover_fold_count (replicaLabels r) (map_to_list metas) (h, μ))
    as (H1 & H2 & H3).
  cbn [fst snd] in *. split; [lia|]. split; [lia|done].
Qed.

Lemma ReplicaLabelRemover_Modify_clean ls (es : list (N * nat)) (h : Heap) μ :
  (∀ e m k, e ∈ es → h !! e.2 = Some m → k ∈ ls → Thanos_Labels m !! k = None) →
  foldl (λ st e, foldl (ReplicaLabelRemover_inner e.2) st ls) (h, μ) es = (h, μ).
Proof.
  intros Hclean.
  assert (∀ p ls', (∀ m k, h !! p = Some m → k ∈ ls' → Thanos_Labels m !! k = None) →
            foldl (ReplicaLabelRemover_inner p) (h, μ) ls' = (h, μ)) as Hin.
  { intros p ls'. induction ls' as [|k ls' IH]; intros Hc; cbn [foldl]; [done|].
    assert (ReplicaLabelRemover_inner p (h, μ) k = (h, μ)) as ->.
    { unfold ReplicaLabelRemover_inner. cbn [fst snd].
      destruct (h !! p) as [m|] eqn:Hp; [|done].
      rewrite (Hc m k); [done|done|by left]. }
    apply IH. intros m k' Hm Hk'. apply Hc; [done|by right]. }
  induction es as [|e es IH]; cbn [foldl]; [done|].
  rewrite Hin.
  - apply IH. intros e' m k He'. apply Hclean. by right.
  - intros m k. apply Hclean. by left.
Qed.

(** X10.  [ReplicaLabelRemover.Modify] is idempotent on the heap it leaves:
    run again over the same [metas], it changes no descriptor and counts
    nothing, because the first run has already taken the replica labels out
    of the objects themselves. *)
Theorem ReplicaLabelRemover_Modify_idempotent r (h : Heap) (metas : gmap N nat) μ μ' :
  let h' := (ReplicaLabelRemover_Modify r h metas μ).1 in
  ReplicaLabelRemover_Modify r h' metas μ' = (h', μ').
Proof.
  intros h'. unfold ReplicaLabelRemover_Modify at 1.
  apply ReplicaLabelRemover_Modify_clean.
  intros [id p] m k He Hm Hk. cbn [snd] in Hm.
  subst h'. unfold ReplicaLabelRemover_Modify in Hm.
  rewrite ReplicaLabelRemover_Modify_fold in Hm.
  rewrite decide_True in Hm.
  - destruct (h !! p) as [m0|]; [|done]. cbn in Hm. simplify_eq.
    cbn. rewrite lookup_strip_labels. by rewrite decide_True.
  - apply list_elem_of_fmap. by exists (id, p).
Qed.

(** ** DeduplicateFilter *)

(** X11.  [metas] files every block under the ID its descriptor carries.  The
    filter removes a block exactly when another block of [metas] with the same
    resolution holds all of its sources and either has more sources or has as
    many and the smaller ULID; a block it does not remove keeps its
    pointer. *)
Theorem DeduplicateFilter_removes_iff f h (metas : gmap N nat) mtr id p m :
  metas_keyed h metas →
  metas !! id = Some p → h !! p = Some m →
  let r := DeduplicateFilter_Filter f h metas mtr in
  (ds_metas r !! id = None ∨ ds_metas r !! id = Some p)
  ∧ (ds_metas r !! id = None
     ↔ ∃ idC pC C,
         metas !! idC = Some pC ∧ h !! pC = Some C
         ∧ Thanos_Downsample_Resolution C = Thanos_Downsample_Resolution m
         ∧ (∀ x, x ∈ Compaction_Sources m → x ∈ Compaction_Sources C)
         ∧ ((length (Compaction_Sources m) < length (Compaction_Sources C))%nat
            ∨ (length (Compaction_Sources C) = length (Compaction_Sources m)
               ∧ (idC < id)%N))).
Proof.
  intros Hk Hid Hp r. subst r.
  rewrite (DeduplicateFilter_Filter_lookup f h metas mtr id p m Hk Hid Hp).
  destruct (Hk id p Hid) as (m' & Hm' & Hu). simplify_eq.
  destruct (dominated h metas m) eqn:Hdom.
  - split; [by left|]. split; [intros _|done].
    apply dominated_spec in Hdom as (C & HC & Hd).
    apply derefs_elem in HC as (idC & pC & HidC & HpC).
    destruct (Hk idC pC HidC) as (C' & HC' & HuC). simplify_eq.
    exists (ULID C), pC, C.
    unfold dominates in Hd. rewrite !andb_true_iff in Hd.
    destruct Hd as [[Hres Hless] Hcov].
    apply Z.eqb_eq in Hres. apply sources_less_spec in Hless.
    unfold covers in Hcov. rewrite contains_spec in Hcov.
    repeat split; try done.
  - split; [by right|]. split; [done|].
    intros (idC & pC & C & HidC & HpC & Hres & Hsub & Hlen).
    destruct (Hk idC pC HidC) as (C' & HC' & HuC). simplify_eq.
    assert (dominated h metas m = true) as Hd; [|congruence].
    apply dominated_spec. exists C. split.
    + apply derefs_elem. eauto.
    + unfold dominates. rewrite !andb_true_iff. repeat split.
      * by apply Z.eqb_eq.
      * by apply sources_less_spec.
      * unfold covers. by apply contains_spec.
Qed.

Lemma DeduplicateFilter_removes_iff_witness :
  let r := DeduplicateFilter_Filter NewDeduplicateFilter dedup_heap dedup_metas
             newSyncMetrics in
  (ds_metas r !! 2%N = None ∨ ds_metas r !! 2%N = Some 1%nat)
  ∧ (ds_metas r !! 2%N = None
     ↔ ∃ idC pC C,
         dedup_metas !! idC = Some pC ∧ dedup_heap !! pC = Some C
         ∧ Thanos_Downsample_Resolution C
           = Thanos_Downsample_Resolution (dedup_block 2 [10]%N 0)
         ∧ (∀ x, x ∈ Compaction_Sources (dedup_block 2 [10]%N 0)
                 → x ∈ Compaction_Sources C)
         ∧ ((length (Compaction_Sources (dedup_block 2 [10]%N 0))
             < length (Compaction_Sources C))%nat
            ∨ (length (Compaction_Sources C)
               = length (Compaction_Sources (dedup_block 2 [10]%N 0))
               ∧ (idC < 2)%N))).
Proof.
  apply (DeduplicateFilter_removes_iff NewDeduplicateFilter dedup_heap dedup_metas
           newSyncMetrics 2%N 1%nat (dedup_block 2 [10]%N 0)).
  - apply metas_keyed_check. vm_compute. reflexivity.
  - reflexivity.
  - reflexivity.
Defined.





(** X13.  The function handed to [sort.Slice] orders descriptors by the
    number of their sources, most first, and by ULID among equals: on a slice
    whose descriptors have distinct ULIDs it leaves no ties, so whatever
    algorithm sorts the slice arrives at the same order, which begins with a
    descriptor of the most sources. *)
Theorem sort_Slice_order l sorted :
  NoDup (ULID <$> l) → sorted ≡ₚ l → StronglySorted sources_le sorted →
  sorted = sort_Slice l
  ∧ ∀ m rest, sorted = m :: rest →
      ∀ c, c ∈ l → (length (Compaction_Sources c)
                    ≤ length (Compaction_Sources m))%nat.
Proof.
  intros Hnd Hperm Hsorted. split; [by apply sort_Slice_unique|].
  intros m rest -> c Hc. rewrite <- Hperm in Hc.
  apply StronglySorted_cons in Hsorted as [Hall _].
  apply elem_of_cons in Hc as [->|Hc]; [done|].
  rewrite Forall_forall in Hall. specialize (Hall c Hc).
  unfold sources_le in Hall. apply sources_less_false in Hall. lia.
Qed.

Lemma sort_Slice_order_witness :
  [dedup_block 1 [10; 11]%N 0; dedup_block 2 [10]%N 0; dedup_block 3 [12]%N 0]
  = sort_Slice [dedup_block 3 [12]%N 0; dedup_block 2 [10]%N 0;
                dedup_block 1 [10; 11]%N 0]
  ∧ ∀ m rest,
      [dedup_block 1 [10; 11]%N 0; dedup_block 2 [10]%N 0; dedup_block 3 [12]%N 0]
      = m :: rest →
      ∀ c, c ∈ [dedup_block 3 [12]%N 0; dedup_block 2 [10]%N 0;
                dedup_block 1 [10; 11]%N 0] →
           (length (Compaction_Sources c) ≤ length (Compaction_Sources m))%nat.
Proof.
  apply (sort_Slice_order
           [dedup_block 3 [12]%N 0; dedup_block 2 [10]%N 0; dedup_block 1 [10; 11]%N 0]
           [dedup_block 1 [10; 11]%N 0; dedup_block 2 [10]%N 0; dedup_block 3 [12]%N 0]).
  - apply (bool_decide_unpack _). vm_compute. exact I.
  - solve_Permutation.
  - repeat constructor; vm_compute; reflexivity.
Defined.

(** ** Fetch: every block directory is accounted for *)

Lemma tx_get_Set g l v l' :
  tx_get (tx_Set g l v) l' = if decide (l = l') then v else tx_get g l'.
Proof.
  unfold tx_Set, tx_get. simpl.
  rewrite lookup_insert. by case_decide.
Qed.

Lemma size_dom_filter {V} (m : gmap N V) (ids : list N) (P : N → Prop)
    `{∀ x, Decision (P x)} :
  NoDup ids → (∀ id, is_Some (m !! id) ↔ id ∈ ids ∧ P id) →
  size m = length (filter P ids).
Proof.
  intros Hnd Hdom.
  rewrite <- (length_map_to_list m), <- (length_fmap fst).
  apply Permutation_length, NoDup_Permutation.
  - apply NoDup_fst_map_to_list.
  - by apply NoDup_filter.
  - intros id. rewrite list_elem_of_filter, list_elem_of_fmap. split.
    + intros ([id' v] & -> & Hin). apply elem_of_map_to_list in Hin.
      cbn. apply and_comm, Hdom. eauto.
    + intros [HP Hin]. destruct (proj2 (Hdom id) (conj Hin HP)) as [v Hv].
      exists (id, v). split; [done|]. by apply elem_of_map_to_list.
Qed.

Lemma count_outcome_total s bkt w ids :
  (count_outcome s bkt w OutLoaded ids + count_outcome s bkt w OutNotFound ids
   + count_outcome s bkt w OutCorrupted ids + count_outcome s bkt w OutFailed ids
   = length ids)%nat.
Proof.
  unfold count_outcome. induction ids as [|id ids IH]; [done|].
  rewrite !filter_cons. cbn [length].
  destruct (load_outcome s bkt w id);
    repeat (case_decide; try done); cbn [length]; lia.
Qed.

Lemma count_outcome_partial s bkt w ids :
  length (filter (λ id, load_outcome s bkt w id = OutNotFound
                        ∨ load_outcome s bkt w id = OutCorrupted) ids)
  = (count_outcome s bkt w OutNotFound ids
     + count_outcome s bkt w OutCorrupted ids)%nat.
Proof.
  unfold count_outcome. induction ids as [|id ids IH]; [done|].
  rewrite !filter_cons. cbn [length].
  destruct (load_outcome s bkt w id);
    repeat (case_decide; try done); cbn [length]; try lia;
    exfalso; intuition congruence.
Qed.

(** X14.  A [Fetch] without filters whose [Iter] succeeds, over block
    directories that are listed once each, accounts for every directory
    exactly once in the gauges it publishes: [loaded] is the size of the
    returned [metas], [no-meta] and [corrupted] add up to the size of the
    returned [partial], and together with [failed] they sum to the number of
    block directories, whether the view is complete or not. *)
Theorem Fetch_accounting s bkt w :
  bkt_Iter_err bkt = None → NoDup (bkt_Iter bkt) → filters s = [] →
  let r := Fetch s bkt w in
  let g := synced (metrics (ret_fetcher r)) in
  published g loadedMeta = Z.of_nat (size (ret_metas r))
  ∧ published g noMeta + published g corruptedMeta
    = Z.of_nat (size (ret_partial r))
  ∧ published g loadedMeta + published g noMeta + published g corruptedMeta
    + published g failedMeta
    = Z.of_nat (length (bkt_Iter bkt)).
Proof.
  intros Hiter Hnd Hfs r g.
  destruct (collect_inv_collect s bkt w) as [_ Hm Hp He Hs].
  pose proof (size_dom_filter _ _ _ Hnd Hm) as Hsm.
  pose proof (size_dom_filter _ _ _ Hnd Hp) as Hsp.
  rewrite count_outcome_partial in Hsp.
  pose proof (count_outcome_total s bkt w (bkt_Iter bkt)) as Htot.
  pose proof (Hs OutNotFound noMeta eq_refl) as Hnf.
  pose proof (Hs OutCorrupted corruptedMeta eq_refl) as Hco.
  pose proof (Hs OutFailed failedMeta eq_refl) as Hfa.
  fold (count_outcome s bkt w OutLoaded (bkt_Iter bkt)) in Hsm.
  assert (∀ l, published g l
               = if decide (loadedMeta = l)
                 then Z.of_nat (size (c_metas (collect s bkt w)))
                 else tx_get (c_synced (collect s bkt w)) l) as Hpub.
  { intros l. subst g r. unfold Fetch. rewrite Hiter, Hfs. cbn [run_filters fr_err].
    cbn. unfold published. cbn.
    case_bool_decide; cbn; rewrite lookup_insert; by case_decide. }
  assert (ret_metas r = c_metas (collect s bkt w)
          ∧ ret_partial r = c_partial (collect s bkt w)) as [-> ->].
  { subst r. unfold Fetch. by rewrite Hiter, Hfs. }
  rewrite !Hpub.
  rewrite decide_True by done. rewrite !decide_False by done.
  lia.
Qed.

Lemma Fetch_accounting_witness :
  let r := Fetch (NewMetaFetcher 1 "" []) sample_bucket sample_world in
  let g := synced (metrics (ret_fetcher r)) in
  published g loadedMeta = Z.of_nat (size (ret_metas r))
  ∧ published g noMeta + published g corruptedMeta
    = Z.of_nat (size (ret_partial r))
  ∧ published g loadedMeta + published g noMeta + published g corruptedMeta
    + published g failedMeta
    = Z.of_nat (length (bkt_Iter sample_bucket)).
Proof.
  apply (Fetch_accounting (NewMetaFetcher 1 "" []) sample_bucket sample_world).
  - reflexivity.
  - apply (bool_decide_unpack _). vm_compute. exact I.
  - reflexivity.
Defined.

(** ** The heap of descriptors *)

Lemma loadMeta_heap s bkt id w :
  let r := loadMeta s bkt id w in
  dedupFilter r.2 = dedupFilter w ∧ markFilter r.2 = markFilter w
  ∧ match r.1 with
    | Loaded p =>
        (cached s !! id = Some p ∧ r.2 = w)
        ∨ (cached s !! id = None ∧ p = length (heap w)
           ∧ ∃ m, heap r.2 = heap w ++ [m]
                  ∧ (local_hit s w id = Some m
                     ∨ (local_hit s w id = None
                        ∧ bkt_Get bkt id = GetContent (Unmarshaled m)
                        ∧ Version m = MetaVersion1)))
    | LoadFailed _ => heap r.2 = heap w
    end.
Proof.
  unfold loadMeta, local_hit, alloc.
  destruct (bkt_Exists bkt id) as [e|[|]]; [done| |done].
  destruct (cached s !! id) as [p|] eqn:Hc; cbn; [by eauto|].
  destruct (decide (cacheDir s = "")) as [Hd|Hd].
  - destruct (bkt_Get bkt id) as [e|e|e|[e|m]]; cbn; try done.
    destruct (decide (Version m ≠ MetaVersion1)) as [Hv|Hv]; cbn; [done|].
    split; [done|]. split; [done|]. right. split; [done|]. split; [done|].
    exists m. split; [done|].
    right. split; [done|]. split; [done|]. by apply dec_stable.
  - destruct (disk w !! id) as [[m0|e0]|] eqn:Hdisk; cbn.
    + split; [done|]. split; [done|]. right. split; [done|]. split; [done|].
      exists m0. split; [done|]. by left.
    + destruct (bkt_Get bkt id) as [e|e|e|[e|m]]; cbn; try done.
      destruct (decide (Version m ≠ MetaVersion1)) as [Hv|Hv]; cbn; [done|].
      split; [done|]. split; [done|]. right. split; [done|]. split; [done|].
      exists m. split; [done|].
      right. split; [done|]. split; [done|]. by apply dec_stable.
    + destruct (bkt_Get bkt id) as [e|e|e|[e|m]]; cbn; try done.
      destruct (decide (Version m ≠ MetaVersion1)) as [Hv|Hv]; cbn; [done|].
      split; [done|]. split; [done|]. right. split; [done|]. split; [done|].
      exists m. split; [done|].
      right. split; [done|]. split; [done|]. by apply dec_stable.
Qed.

(** X16.  A descriptor [loadMeta] does not find in [cached] is a fresh
    object behind a pointer that was not in use, and no descriptor that was
    there is touched.  Its content is what the local cache directory yields
    for the block or, when that yields nothing, the descriptor the bucket
    returned, of version 1: the version is tested on this path only.  The
    filter objects are left as they are. *)
Theorem loadMeta_fresh_load s bkt id w p w' :
  cached s !! id = None →
  loadMeta s bkt id w = (Loaded p, w') →
  p = length (heap w)
  ∧ dedupFilter w' = dedupFilter w ∧ markFilter w' = markFilter w
  ∧ ∃ m, heap w' = heap w ++ [m]
      ∧ (local_hit s w id = Some m
         ∨ (local_hit s w id = None
            ∧ bkt_Get bkt id = GetContent (Unmarshaled m)
            ∧ Version m = MetaVersion1)).
Proof.
  intros Hc Hload.
  pose proof (loadMeta_heap s bkt id w) as H. cbn zeta in H.
  rewrite Hload in H. cbn [fst snd] in H.
  destruct H as (Hd & Hm & [[Hc' _]|(_ & -> & m & Hh & Hsrc)]); [congruence|].
  split; [done|]. split; [done|]. split; [done|]. by exists m.
Qed.

Lemma loadMeta_fresh_load_witness :
  let s := NewMetaFetcher 1 "/var/thanos" [] in
  let w' := (loadMeta s sample_bucket 1%N sample_world).2 in
  0%nat = length (heap sample_world)
  ∧ dedupFilter w' = dedupFilter sample_world
  ∧ markFilter w' = markFilter sample_world
  ∧ ∃ m, heap w' = heap sample_world ++ [m]
      ∧ (local_hit s sample_world 1%N = Some m
         ∨ (local_hit s sample_world 1%N = None
            ∧ bkt_Get sample_bucket 1%N = GetContent (Unmarshaled m)
            ∧ Version m = MetaVersion1)).
Proof.
  apply (loadMeta_fresh_load (NewMetaFetcher 1 "/var/thanos" []) sample_bucket
           1%N sample_world 0%nat).
  - reflexivity.
  - vm_compute. reflexivity.
Defined.

Lemma metas_live_lt (h : Heap) (metas : gmap N nat) :
  metas_live h metas ↔ ∀ id p, metas !! id = Some p → (p < length h)%nat.
Proof.
  unfold metas_live. split; intros H id p Hid.
  - by apply lookup_lt_is_Some, (H id).
  - by apply lookup_lt_is_Some, (H id).
Qed.

Lemma worker_body_live s bkt c id n :
  (∀ id p, cached s !! id = Some p → (p < n)%nat) →
  (n ≤ length (heap (c_world c)))%nat →
  (∀ id p, c_metas c !! id = Some p → (p < length (heap (c_world c)))%nat) →
  let c' := worker_body s bkt c id in
  (n ≤ length (heap (c_world c')))%nat
  ∧ (∀ id p, c_metas c' !! id = Some p → (p < length (heap (c_world c')))%nat).
Proof.
  intros Hcached Hn Hlive.
  pose proof (loadMeta_heap s bkt id (c_world c)) as H. cbn zeta in H.
  unfold worker_body.
  destruct (loadMeta s bkt id (c_world c)) as [[p|err] w'] eqn:E; cbn [fst snd] in H.
  - destruct H as (_ & _ & [[Hc ->]|(_ & -> & m & Hh & _)]); cbn.
    + split; [done|]. intros id' p' Hl.
      apply lookup_insert_Some in Hl as [[<- <-]|[_ Hl]]; [|by eapply Hlive].
      apply Hcached in Hc. lia.
    + rewrite Hh, length_app. cbn. split; [lia|]. intros id' p' Hl.
      apply lookup_insert_Some in Hl as [[<- <-]|[_ Hl]]; [lia|].
      apply Hlive in Hl. lia.
  - destruct H as (_ & _ & Hh).
    destruct (Cause err); cbn; rewrite Hh; done.
Qed.

Lemma collect_live s bkt w :
  metas_live (heap w) (cached s) →
  (length (heap w) ≤ length (heap (c_world (collect s bkt w))))%nat
  ∧ metas_live (heap (c_world (collect s bkt w))) (c_metas (collect s bkt w)).
Proof.
  intros Hc. rewrite metas_live_lt in Hc. rewrite metas_live_lt.
  unfold collect.
  assert (∀ ids c,
    (length (heap w) ≤ length (heap (c_world c)))%nat →
    (∀ id p, c_metas c !! id = Some p → (p < length (heap (c_world c)))%nat) →
    let c' := foldl (worker_body s bkt) c ids in
    (length (heap w) ≤ length (heap (c_world c')))%nat
    ∧ (∀ id p, c_metas c' !! id = Some p → (p < length (heap (c_world c')))%nat))
    as Hfold.
  { induction ids as [|id ids IH]; intros c Hn Hl; cbn [foldl]; [done|].
    destruct (worker_body_live s bkt c id (length (heap w)) Hc Hn Hl) as [Hn' Hl'].
    by apply IH. }
  apply Hfold; cbn; [done|]. intros id p Hl. by rewrite lookup_empty in Hl.
Qed.

Lemma run_filters_heap fs incompleteView metas m w :
  Forall heap_growing fs →
  (length (heap w)
   ≤ length (heap (fr_world (run_filters fs incompleteView metas m w))))%nat.
Proof.
  intros Hfs. revert metas m w.
  induction Hfs as [|f fs Hf _ IH]; intros metas m w; cbn [run_filters]; [done|].
  cbn zeta. specialize (Hf metas m incompleteView w).
  destruct (fr_err (f metas m incompleteView w)); [done|].
  etrans; [exact Hf | apply IH].
Qed.

(** X15.  [Fetch] leaves no dangling pointer.  When the entries of [cached]
    point to descriptors of the heap and the filters only take entries out of
    [metas] and drop no descriptor, then after [Fetch], whatever way it ends,
    the entries of the returned [metas] and of the new [cached] point to
    descriptors of the heap, and the heap has not shrunk: the condition on
    [cached] holds again for the next [Fetch]. *)
Theorem Fetch_no_dangling s bkt w :
  metas_live (heap w) (cached s) →
  Forall shrinking (filters s) → Forall heap_growing (filters s) →
  let r := Fetch s bkt w in
  metas_live (heap (ret_world r)) (ret_metas r)
  ∧ metas_live (heap (ret_world r)) (cached (ret_fetcher r))
  ∧ (length (heap w) ≤ length (heap (ret_world r)))%nat.
Proof.
  intros Hc Hsh Hgr r.
  destruct (collect_live s bkt w Hc) as [Hlen Hlive].
  pose proof (Fetch_metas_subseteq s bkt w Hsh) as Hsub.
  pose proof (Fetch_cached s bkt w) as Hcached.
  fold r in Hsub, Hcached.
  assert (length (heap (c_world (collect s bkt w))) ≤ length (heap (ret_world r)))%nat
    as Hw.
  { subst r. unfold Fetch. destruct (bkt_Iter_err bkt) as [e|]; [done|].
    cbn zeta.
    match goal with
    | |- context [run_filters ?fs ?b ?ms ?m ?w1] =>
        pose proof (run_filters_heap fs b ms m w1 Hgr) as Hrf;
        assert (heap w1 = heap (c_world (collect s bkt w))) as Hw1
    end.
    { case_bool_decide; [done|]. by case_decide. }
    rewrite Hw1 in Hrf.
    by destruct (fr_err _). }
  rewrite metas_live_lt in Hc, Hlive. rewrite !metas_live_lt.
  split; [|split; [|lia]].
  - intros id p Hid. pose proof (lookup_weaken _ _ _ _ Hid Hsub) as Hid'.
    apply Hlive in Hid'. lia.
  - rewrite Hcached. intros id p Hid.
    destruct (bkt_Iter_err bkt); [apply Hc in Hid; lia|].
    case_bool_decide; [apply Hc in Hid; lia|]. apply Hlive in Hid. lia.
Qed.

Lemma ReplicaLabelRemover_filter_heap r : heap_growing (ReplicaLabelRemover_filter r).
Proof.
  intros metas m b w. unfold ReplicaLabelRemover_filter. cbn.
  by rewrite ReplicaLabelRemover_Modify_length.
Qed.

Lemma Deduplicate_filter_heap : heap_growing Deduplicate_filter.
Proof. by intros metas m b w. Qed.

Lemma Fetch_no_dangling_witness :
  let r := Fetch sample_fetcher sample_bucket sample_world in
  metas_live (heap (ret_world r)) (ret_metas r)
  ∧ metas_live (heap (ret_world r)) (cached (ret_fetcher r))
  ∧ (length (heap sample_world) ≤ length (heap (ret_world r)))%nat.
Proof.
  apply (Fetch_no_dangling sample_fetcher sample_bucket sample_world).
  - intros id p Hid. change (cached sample_fetcher) with (∅ : gmap N nat) in Hid.
    by rewrite lookup_empty in Hid.
  - repeat constructor.
    + apply ReplicaLabelRemover_filter_shrinking.
    + apply Deduplicate_filter_shrinking.
  - apply Forall_cons. split; [apply ReplicaLabelRemover_filter_heap|].
    apply Forall_cons. split; [apply Deduplicate_filter_heap | constructor].
Defined.

(** ** Fetch: the gauges of [modified] *)



(** ** Fetch against a bucket that has not changed *)

Lemma run_filters_store fs incompleteView metas m w :
  Forall keeps_store fs →
  heap (fr_world (run_filters fs incompleteView metas m w)) = heap w
  ∧ disk (fr_world (run_filters fs incompleteView metas m w)) = disk w.
Proof.
  intros Hfs. revert metas m w.
  induction Hfs as [|f fs Hf _ IH]; intros metas m w; cbn [run_filters]; [done|].
  cbn zeta. destruct (Hf metas m incompleteView w) as [Hh Hd].
  destruct (fr_err (f metas m incompleteView w)); [done|].
  destruct (IH (fr_metas (f metas m incompleteView w))
               (fr_metrics (f metas m incompleteView w))
               (fr_world (f metas m incompleteView w))) as [Hh' Hd'].
  split; congruence.
Qed.

(** A [Fetch] whose enumeration succeeds and whose loads do not fail. *)
Lemma Fetch_complete s bkt w :
  bkt_Iter_err bkt = None → c_metaErrs (collect s bkt w) = [] →
  let c := collect s bkt w in
  let r := Fetch s bkt w in
  cached (ret_fetcher r) = c_metas c
  ∧ cacheDir (ret_fetcher r) = cacheDir s
  ∧ filters (ret_fetcher r) = filters s
  ∧ ∃ m1, ret_world r = fr_world (run_filters (filters s) false (c_metas c) m1
                                     (cleanup s c))
      ∧ (fr_err (run_filters (filters s) false (c_metas c) m1 (cleanup s c)) = None
         → ret_err r = None
           ∧ ret_metas r = fr_metas (run_filters (filters s) false (c_metas c) m1
                                       (cleanup s c))).
Proof.
  intros Hiter Herrs c r. subst r. unfold Fetch. rewrite Hiter. fold c.
  unfold c in Herrs |- *. rewrite Herrs. fold c. cbn [length].
  rewrite bool_decide_eq_false_2 by lia. cbn zeta.
  fold (cleanup s c).
  set (m1 := with_synced _ (c_synced c)).
  destruct (fr_err (run_filters (filters s) false (c_metas c) m1 (cleanup s c)))
    as [e|] eqn:He; cbn.
  - split; [done|]. split; [done|]. split; [done|].
    exists m1. split; [done|]. by rewrite He.
  - split; [done|]. split; [done|]. split; [done|].
    exists m1. split; [done|]. by rewrite He.
Qed.

Lemma Fetch_ok_inv s bkt w :
  ret_err (Fetch s bkt w) = None →
  bkt_Iter_err bkt = None ∧ c_metaErrs (collect s bkt w) = [].
Proof.
  unfold Fetch. destruct (bkt_Iter_err bkt) as [e|]; [done|].
  cbn zeta. destruct (fr_err _); [done|]. cbn.
  case_bool_decide as Hlen; [done|]. intros _. split; [done|].
  destruct (c_metaErrs _); [done|]. cbn in Hlen. lia.
Qed.

Lemma local_hit_cleanup s c s' w' id :
  cacheDir s' = cacheDir s → disk w' = disk (cleanup s c) →
  local_hit s (c_world c) id = None → local_hit s' w' id = None.
Proof.
  unfold local_hit, cleanup. intros -> ->.
  destruct (decide (cacheDir s = "")) as [Hc|Hc]; [done|]. cbn [disk with_disk].
  destruct (disk (c_world c) !! id) as [[m|e]|] eqn:Hd; [done| |].
  - intros _.
    destruct (filter _ (disk (c_world c)) !! id) as [[m'|e']|] eqn:Hf; [|done..].
    apply map_lookup_filter_Some in Hf as [Hf _]. congruence.
  - intros _.
    destruct (filter _ (disk (c_world c)) !! id) as [x|] eqn:Hf; [|done].
    apply map_lookup_filter_Some in Hf as [Hf _]. congruence.
Qed.

(** A second run of the workers, from a fetcher whose [cached] is the map the
    first run filled, in surroundings whose cache directory yields nothing
    that the one the first run left did not yield: every block is found as
    the first run found it, every descriptor comes out of [cached] and
    nothing is allocated. *)
Lemma collect_again s bkt w s1 w1 :
  c_metaErrs (collect s bkt w) = [] →
  cached s1 = c_metas (collect s bkt w) →
  (∀ id, local_hit s (c_world (collect s bkt w)) id = None
         → local_hit s1 w1 id = None) →
  (∀ id, id ∈ bkt_Iter bkt →
         load_outcome s1 bkt w1 id = load_outcome s bkt w id)
  ∧ c_metas (collect s1 bkt w1) = c_metas (collect s bkt w)
  ∧ c_metaErrs (collect s1 bkt w1) = []
  ∧ heap (c_world (collect s1 bkt w1)) = heap w1
  ∧ dedupFilter (c_world (collect s1 bkt w1)) = dedupFilter w1
  ∧ markFilter (c_world (collect s1 bkt w1)) = markFilter w1.
Proof.
  intros Herrs Hcached Hlocal.
  set (c1 := collect s bkt w) in *.
  destruct (collect_inv_collect s bkt w) as [Ho1 Hm1 _ _ _]. fold c1 in Ho1, Hm1.
  pose proof (proj1 (collect_no_errs s bkt w) Herrs) as Hnofail.
  assert (∀ id, id ∈ bkt_Iter bkt →
            load_outcome s1 bkt w1 id = load_outcome s bkt w id) as Hout.
  { intros id Hin. rewrite <- (Ho1 id).
    rewrite (load_outcome_eq s1), (load_outcome_eq s).
    destruct (bkt_Exists bkt id) as [e|[|]] eqn:Hex; [done| |done].
    rewrite Hcached.
    destruct (c_metas c1 !! id) as [p|] eqn:Hp.
    - assert (load_outcome s bkt (c_world c1) id = OutLoaded) as Ho
        by (rewrite Ho1; apply Hm1; eauto).
      rewrite (load_outcome_eq s), Hex in Ho. done.
    - assert (load_outcome s bkt (c_world c1) id ≠ OutLoaded) as Ho.
      { rewrite Ho1. intros Ho.
        destruct (proj2 (Hm1 id) (conj Hin Ho)) as [? ?]. congruence. }
      rewrite (load_outcome_eq s), Hex in Ho.
      destruct (cached s !! id); [done|].
      destruct (local_hit s (c_world c1) id) eqn:Hl; [done|].
      by rewrite (Hlocal id Hl). }
  assert (∀ ids, (∀ id, id ∈ ids → id ∈ bkt_Iter bkt) →
            let c := foldl (worker_body s1 bkt) (collect_init s1 w1) ids in
            heap (c_world c) = heap w1
            ∧ dedupFilter (c_world c) = dedupFilter w1
            ∧ markFilter (c_world c) = markFilter w1
            ∧ ∀ id p, c_metas c !! id = Some p → cached s1 !! id = Some p)
    as Hrun.
  { induction ids as [|id ids IH] using rev_ind; intros Hids; [done|].
    rewrite foldl_snoc. cbn zeta.
    destruct IH as (IHh & IHd & IHk & IHm);
      [intros ? ?; apply Hids, elem_of_app; by left|].
    destruct (collect_inv_holds s1 bkt w1 ids) as [Ho2 _ _ _ _].
    set (c := foldl (worker_body s1 bkt) (collect_init s1 w1) ids) in *.
    assert (id ∈ bkt_Iter bkt) as Hin
      by (apply Hids, elem_of_app; right; by left).
    pose proof (loadMeta_heap s1 bkt id (c_world c)) as Hload. cbn zeta in Hload.
    pose proof (Ho2 id) as Ho. rewrite (Hout id Hin) in Ho.
    unfold load_outcome at 1 in Ho.
    unfold worker_body.
    destruct (loadMeta s1 bkt id (c_world c)) as [[p|err] w'] eqn:E;
      cbn [fst snd] in *.
    - destruct Hload as (Hd & Hk & [[Hc ->]|(Hc & _)]).
      + cbn. split; [done|]. split; [done|]. split; [done|]. intros id' p' Hl.
        apply lookup_insert_Some in Hl as [[<- <-]|[_ Hl]]; [done | by apply IHm].
      + exfalso. cbn in Ho.
        destruct (proj2 (Hm1 id) (conj Hin (eq_sym Ho))) as [q Hq].
        rewrite Hcached in Hc. congruence.
    - destruct Hload as (Hd & Hk & Hh).
      destruct (Cause err); cbn; (split; [congruence|]);
        (split; [congruence|]); (split; [congruence|]); done. }
  assert (heap (c_world (collect s1 bkt w1)) = heap w1
          ∧ dedupFilter (c_world (collect s1 bkt w1)) = dedupFilter w1
          ∧ markFilter (c_world (collect s1 bkt w1)) = markFilter w1
          ∧ ∀ id p, c_metas (collect s1 bkt w1) !! id = Some p
                    → cached s1 !! id = Some p) as (Hh2 & Hd2 & Hk2 & Hm2)
    by exact (Hrun (bkt_Iter bkt) (λ _ H, H)).
  destruct (collect_inv_collect s1 bkt w1) as [_ Hdom2 _ _ _].
  split; [done|]. split; [|split; [|done]].
  - apply map_eq. intros id.
    destruct (c_metas (collect s1 bkt w1) !! id) as [p|] eqn:Hp.
    + rewrite <- Hcached. symmetry. by apply Hm2.
    + destruct (c_metas c1 !! id) as [q|] eqn:Hq; [|done]. exfalso.
      destruct (proj1 (Hm1 id) (ltac:(eauto))) as [Hin Hl].
      rewrite <- (Hout id Hin) in Hl.
      destruct (proj2 (Hdom2 id) (conj Hin Hl)) as [? ?]. congruence.
  - apply collect_no_errs. intros id Hin. rewrite (Hout id Hin). by apply Hnofail.
Qed.

(** X18.  A [Fetch] that ended without error has brought the fetcher to a
    steady state.  With filters that leave the heap and the local cache
    directory alone, a second [Fetch] against the same bucket finds every
    block in the state the first one found it in, takes every descriptor from
    [cached], allocates nothing and leaves the heap and [cached] as they
    are, and, when there are no filters, returns the same map of the same
    pointers without error. *)
Theorem Fetch_steady s bkt w :
  Forall keeps_store (filters s) →
  let r1 := Fetch s bkt w in
  ret_err r1 = None →
  let r2 := Fetch (ret_fetcher r1) bkt (ret_world r1) in
  (∀ id, id ∈ bkt_Iter bkt →
     load_outcome (ret_fetcher r1) bkt (ret_world r1) id = load_outcome s bkt w id)
  ∧ cached (ret_fetcher r2) = cached (ret_fetcher r1)
  ∧ heap (ret_world r2) = heap (ret_world r1)
  ∧ (filters s = [] → ret_err r2 = None ∧ ret_metas r2 = ret_metas r1).
Proof.
  intros Hfs r1 Hok r2.
  destruct (Fetch_ok_inv s bkt w Hok) as [Hiter Herrs].
  destruct (Fetch_complete s bkt w Hiter Herrs)
    as (Hcached & Hdir & Hfilters & m1 & Hworld & Hret).
  fold r1 in Hcached, Hdir, Hfilters, Hworld, Hret.
  set (c1 := collect s bkt w) in *.
  set (s1 := ret_fetcher r1) in *. set (w1 := ret_world r1) in *.
  destruct (run_filters_store (filters s) false (c_metas c1) m1 (cleanup s c1) Hfs)
    as [Hheap Hdisk].
  rewrite <- Hworld in Hheap, Hdisk.
  destruct (collect_again s bkt w s1 w1 Herrs Hcached) as
    (Hout & Hmetas & Herrs2 & Hh2 & _ & _).
  { intros id. by apply (local_hit_cleanup s c1 s1 w1 id). }
  set (c2 := collect s1 bkt w1) in *.
  destruct (Fetch_complete s1 bkt w1 Hiter Herrs2)
    as (Hcached2 & _ & _ & m2 & Hworld2 & Hret2).
  fold r2 c2 in Hcached2, Hworld2, Hret2.
  assert (Forall keeps_store (filters s1)) as Hfs1 by (by rewrite Hfilters).
  destruct (run_filters_store (filters s1) false (c_metas c2) m2 (cleanup s1 c2) Hfs1)
    as [Hheap2 _].
  rewrite <- Hworld2 in Hheap2.
  assert (heap (cleanup s1 c2) = heap (c_world c2)) as Hcl2.
  { unfold cleanup. by case_decide. }
  split; [done|]. split; [by rewrite Hcached2, Hmetas|].
  split; [congruence|].
  intros Hnil. rewrite Hnil in Hret.
  rewrite Hfilters, Hnil in Hret2. cbn in Hret, Hret2.
  destruct (Hret eq_refl) as [_ ->]. destruct (Hret2 eq_refl) as [-> ->].
  split; [done|]. by rewrite Hmetas.
Qed.

Lemma Deduplicate_filter_store : keeps_store Deduplicate_filter.
Proof. by intros metas m b w. Qed.

Lemma Fetch_steady_witness :
  let s := NewMetaFetcher 1 "/var/thanos" [Deduplicate_filter] in
  let r1 := Fetch s sample_bucket sample_world in
  let r2 := Fetch (ret_fetcher r1) sample_bucket (ret_world r1) in
  (∀ id, id ∈ bkt_Iter sample_bucket →
     load_outcome (ret_fetcher r1) sample_bucket (ret_world r1) id
     = load_outcome s sample_bucket sample_world id)
  ∧ cached (ret_fetcher r2) = cached (ret_fetcher r1)
  ∧ heap (ret_world r2) = heap (ret_world r1)
  ∧ (filters s = [] → ret_err r2 = None ∧ ret_metas r2 = ret_metas r1).
Proof.
  apply (Fetch_steady (NewMetaFetcher 1 "/var/thanos" [Deduplicate_filter])
           sample_bucket sample_world).
  - apply Forall_cons. split; [apply Deduplicate_filter_store | constructor].
  - vm_compute. reflexivity.
Defined.

(** ** The duplicates over several runs *)



(** *** What the deduplication depends on *)





(** *** The content of the descriptors a [Fetch] loads *)










(** * The rate-limited logger *)

Lemma scan_from_first_msg (pre keyvals : list iface) :
  (length pre mod 2 = 0)%nat →
  scan_from (pre ++ keyvals) (seq (length pre) (length keyvals))
  = first_msg keyvals.
Proof.
  remember (length keyvals) as n eqn:Hn. revert pre keyvals Hn.
  induction n as [n IH] using lt_wf_ind. intros pre keyvals Hn Hpre.
  destruct keyvals as [|k [|v rest]]; cbn [length] in Hn; subst n.
  - done.
  - cbn [seq scan_from first_msg]. rewrite Hpre. cbn [Nat.eqb andb].
    rewrite lookup_app_r by lia. rewrite Nat.sub_diag. cbn [lookup list_lookup].
    destruct (is_messageKey (Some k)); [|done].
    rewrite lookup_app_r by lia.
    replace (length pre + 1 - length pre)%nat with 1%nat by lia. done.
  - cbn [seq scan_from first_msg]. rewrite Hpre. cbn [Nat.eqb andb].
    rewrite lookup_app_r by lia. rewrite Nat.sub_diag. cbn [lookup list_lookup].
    destruct (is_messageKey (Some k)).
    + rewrite lookup_app_r by lia.
      replace (length pre + 1 - length pre)%nat with 1%nat by lia. done.
    + assert ((S (length pre) mod 2 =? 0)%nat = false) as ->.
      { apply Nat.eqb_neq.
        replace (S (length pre)) with (1 + length pre)%nat by lia.
        rewrite <- Nat.Div0.add_mod_idemp_r, Hpre. done. }
      cbn [andb].
      replace (pre ++ k :: v :: rest) with ((pre ++ [k; v]) ++ rest)
        by (by rewrite <- app_assoc).
      replace (S (S (length pre))) with (length (pre ++ [k; v]))
        by (rewrite length_app; cbn; lia).
      apply (IH (length rest)); [cbn; lia | done |].
      rewrite length_app. cbn [length].
      rewrite <- Nat.Div0.add_mod_idemp_l. by rewrite Hpre.
Qed.

(** X19.  The loop of [Log] looks at the keys only, the values at even
    positions: it takes the value of the first key equal to [msg], whatever
    stands at odd positions and whichever keys follow, and it panics exactly
    when that first key is the last value or its value is not a string. *)
Theorem scan_first_msg keyvals : scan keyvals = first_msg keyvals.
Proof. apply (scan_from_first_msg [] keyvals). done. Qed.

Lemma uint32_idemp z : uint32 (uint32 z) = uint32 z.
Proof. unfold uint32. by rewrite Z.mod_mod. Qed.

Lemma uint32_succ z : uint32 (uint32 z + 1) = uint32 (z + 1).
Proof. unfold uint32. by rewrite Zplus_mod_idemp_l. Qed.

Lemma uint32_sub a b : uint32 (uint32 a - uint32 b) = uint32 (a - b).
Proof. unfold uint32. by rewrite <- Zminus_mod. Qed.

Lemma carries_spec msg call :
  carries msg call = true ↔ scan call.2 = ScanMsg msg.
Proof.
  unfold carries. destruct (scan call.2) as [| |s]; try (split; done).
  rewrite String.eqb_eq. split; congruence.
Qed.

(** What one call leaves in [occurrences]. *)
Lemma Log_step r allow keyvals :
  scan keyvals ≠ ScanPanic →
  ∃ err r', Log r allow keyvals = (LogReturn err, r')
    ∧ logger_Log r' = logger_Log r
    ∧ length (written r') = (length (written r) + if allow then 1 else 0)%nat
    ∧ ∀ m, occurrences r' !! m
           = if carries m (allow, keyvals)
             then let c := match occurrences r !! m with
                           | Some v => uint32 (current v + 1)
                           | None => 1
                           end in
                  Some {| lastSeen := if allow && negb (String.eqb m "") then c
                                      else match occurrences r !! m with
                                           | Some v => lastSeen v
                                           | None => 0
                                           end;
                          current := c |}
             else occurrences r !! m.
Proof.
  intros Hscan. unfold Log, carries. cbn [snd fst].
  destruct (scan keyvals) as [| |s] eqn:Hs; [|done|].
  - destruct allow; cbn.
    + eexists _, _. split; [done|]. split; [done|].
      split; [cbn; rewrite ?length_app; cbn; lia|]. done.
    + eexists _, _. split; [done|]. split; [done|].
      split; [cbn; rewrite ?length_app; cbn; lia|]. done.
  - assert (∀ m, count_occurrence (occurrences r) s !! m
             = if String.eqb s m
               then Some {| lastSeen := match occurrences r !! m with
                                        | Some v => lastSeen v
                                        | None => 0
                                        end;
                            current := match occurrences r !! m with
                                       | Some v => uint32 (current v + 1)
                                       | None => 1
                                       end |}
               else occurrences r !! m) as Hocc.
    { intros m. unfold count_occurrence.
      destruct (String.eqb_spec s m) as [->|Hne].
      - destruct (occurrences r !! m); by rewrite lookup_insert_eq.
      - destruct (occurrences r !! s); by rewrite lookup_insert_ne. }
    destruct allow; cbn [andb].
    + destruct (decide (s ≠ "")) as [Hne|Heq].
      * pose proof (Hocc s) as Hs'. rewrite String.eqb_refl in Hs'. rewrite Hs'.
        eexists _, _. split; [done|]. split; [done|].
        split; [cbn; rewrite ?length_app; cbn; lia|]. cbn [occurrences].
        intros m. destruct (String.eqb_spec s m) as [->|Hsm].
        -- rewrite lookup_insert_eq. cbn.
           destruct (String.eqb_spec m "") as [?|_]; [done|]. done.
        -- rewrite lookup_insert_ne by done. rewrite Hocc.
           by destruct (String.eqb_spec s m).
      * apply dec_stable in Heq. subst s.
        eexists _, _. split; [done|]. split; [done|].
        split; [cbn; rewrite ?length_app; cbn; lia|]. cbn [occurrences].
        intros m. rewrite Hocc. destruct (String.eqb_spec "" m) as [<-|_]; done.
    + eexists _, _. split; [done|]. split; [done|].
      split; [cbn; rewrite ?length_app; cbn; lia|]. cbn [occurrences].
      intros m. rewrite Hocc. by destruct (String.eqb s m).
Qed.

Lemma Log_all_snoc r calls call :
  Log_all r (calls ++ [call])
  = match Log_all r calls with
    | Some r' => match Log r' call.1 call.2 with
                 | (LogPanic, _) => None
                 | (LogReturn _, r'') => Some r''
                 end
    | None => None
    end.
Proof.
  revert r. induction calls as [|c calls IH]; intros r; cbn [app Log_all].
  - by destruct (Log r call.1 call.2) as [[|?] ?].
  - destruct (Log r c.1 c.2) as [[|?] r']; [done|]. apply IH.
Qed.

Lemma Log_panics r allow keyvals :
  (Log r allow keyvals).1 = LogPanic → scan keyvals = ScanPanic.
Proof.
  intros H. destruct (scan keyvals) as [| |s] eqn:Hs; [|done|].
  - destruct (Log_step r allow keyvals) as (err & r' & E & _); [congruence|].
    by rewrite E in H.
  - destruct (Log_step r allow keyvals) as (err & r' & E & _); [congruence|].
    by rewrite E in H.
Qed.

Lemma since_msg_zero m calls : count_msg m calls = 0 → since_msg m calls = 0.
Proof.
  unfold count_msg, since_msg.
  induction calls as [|c calls IHc] using rev_ind; [done|]. intros Hinv.
  rewrite filter_app, length_app, filter_cons, filter_nil in Hinv.
  rewrite foldl_snoc. destruct (carries m c) eqn:Hcc.
  - rewrite (decide_True (P := true = true)) in Hinv by done. cbn in Hinv. lia.
  - apply IHc.
    rewrite (decide_False (P := false = true)) in Hinv by done.
    cbn in Hinv. lia.
Qed.

(** What the calls so far leave in [occurrences]. *)
Lemma Log_all_inv lg calls r :
  Log_all (Limit lg) calls = Some r →
  logger_Log r = lg
  ∧ length (written r) = length (filter (λ call, call.1 = true) calls)
  ∧ ∀ m, match occurrences r !! m with
         | Some o =>
             0 < count_msg m calls
             ∧ current o = uint32 (count_msg m calls)
             ∧ lastSeen o = if String.eqb m "" then 0
                            else uint32 (count_msg m calls - since_msg m calls)
         | None => count_msg m calls = 0
         end.
Proof.
  revert r. induction calls as [|call calls IH] using rev_ind; intros r Hrun.
  - cbn in Hrun. simplify_eq. split; [done|]. split; [done|]. intros m.
    unfold Limit. cbn [occurrences]. by rewrite lookup_empty.
  - rewrite Log_all_snoc in Hrun.
    destruct (Log_all (Limit lg) calls) as [r0|]; [|done].
    destruct (IH r0 eq_refl) as (Hlg & Hwr & Hinv).
    assert (∀ r', length (written r')
                  = (length (written r0) + if call.1 then 1 else 0)%nat →
              length (written r')
              = length (filter (λ call, call.1 = true) (calls ++ [call]))) as Hlen.
    { intros r' ->. rewrite filter_app, length_app, filter_cons, filter_nil, Hwr.
      destruct call.1; [by rewrite decide_True | by rewrite decide_False]. }
    destruct (scan call.2) as [| |s] eqn:Hs.
    + destruct (Log_step r0 call.1 call.2) as (err & r' & E & Hlg' & Hwr' & Hocc);
        [congruence|].
      rewrite E in Hrun. simplify_eq. split; [congruence|].
      split; [by apply Hlen|]. intros m.
      rewrite Hocc. unfold count_msg, since_msg.
      rewrite filter_app, length_app, foldl_snoc, filter_cons, filter_nil.
      destruct call as [allow keyvals]. cbn [fst snd] in *.
      assert (carries m (allow, keyvals) = false) as Hc.
      { unfold carries. cbn [snd]. by rewrite Hs. }
      rewrite Hc. rewrite (decide_False (P := false = true)) by done.
      cbn [length].
      rewrite Nat.add_0_r. apply Hinv.
    + unfold Log in Hrun. rewrite Hs in Hrun. done.
    + destruct (Log_step r0 call.1 call.2) as (err & r' & E & Hlg' & Hwr' & Hocc);
        [congruence|].
      rewrite E in Hrun. simplify_eq. split; [congruence|].
      split; [by apply Hlen|]. intros m.
      rewrite Hocc. specialize (Hinv m). unfold count_msg, since_msg in *.
      rewrite filter_app, length_app, foldl_snoc, filter_cons, filter_nil.
      destruct call as [allow keyvals]. cbn [fst snd] in *.
      destruct (carries m (allow, keyvals)) eqn:Hc.
      * rewrite decide_True by done. cbn [length].
        rewrite Nat2Z.inj_add. cbn zeta. cbn [lastSeen current].
        set (n := Z.of_nat (length (filter (λ call, carries m call = true) calls)))
          in *.
        set (k := foldl _ 0 calls) in *.
        change (Z.of_nat 1) with 1.
        destruct (occurrences r0 !! m) as [o|].
        -- destruct Hinv as (Hpos & Hcur & Hls). rewrite Hcur, uint32_succ.
           split; [lia|]. split; [done|]. rewrite Hls.
           destruct (String.eqb m ""); cbn [negb andb].
           ++ by rewrite andb_false_r.
           ++ rewrite andb_true_r. destruct allow.
              ** f_equal. lia.
              ** f_equal. lia.
        -- rewrite Hinv. split; [lia|]. split; [done|].
           destruct (String.eqb m ""); cbn [negb andb].
           ++ by rewrite andb_false_r.
           ++ rewrite andb_true_r. destruct allow; [done|].
              assert (k = 0) as ->; [|done].
              by apply since_msg_zero.
      * rewrite (decide_False (P := false = true)) by done.
        cbn [length].
        rewrite Nat.add_0_r. apply Hinv.
Qed.

(** X20.  [Log] counts before it asks the limiter: after any calls that did
    not panic, [occurrences] has an entry for a message exactly when some call
    carried it, its [current] is the number of the calls that carried it, let
    through or not, as a uint32; and the wrapped logger has been handed one
    line for each call the limiter let through. *)
Theorem Log_counts lg calls r msg :
  Log_all (Limit lg) calls = Some r →
  (occurrences r !! msg = None ↔ count_msg msg calls = 0)
  ∧ (∀ o, occurrences r !! msg = Some o
          → current o = uint32 (count_msg msg calls))
  ∧ length (written r) = length (filter (λ call, call.1 = true) calls).
Proof.
  intros Hrun. destruct (Log_all_inv lg calls r Hrun) as (_ & Hwr & Hinv).
  specialize (Hinv msg). split; [|split; [|done]].
  - destruct (occurrences r !! msg) as [o|]; [|done].
    destruct Hinv as [Hpos _]. split; [done | lia].
  - intros o Ho. rewrite Ho in Hinv. tauto.
Qed.

Lemma Log_counts_witness :
  let lg := λ _ _, None in
  let calls := [(true, [IString "msg"; IString "sync failed"]);
                (false, [IString "level"; IString "msg";
                         IString "msg"; IString "sync failed"]);
                (false, [IString "msg"; IString "retry"])] in
  ∃ r, Log_all (Limit lg) calls = Some r
    ∧ (occurrences r !! "sync failed" = None ↔ count_msg "sync failed" calls = 0)
    ∧ (∀ o, occurrences r !! "sync failed" = Some o
            → current o = uint32 (count_msg "sync failed" calls))
    ∧ length (written r) = length (filter (λ call, call.1 = true) calls).
Proof.
  eexists. split; [vm_compute; reflexivity|].
  apply (Log_counts (λ _ _, None)
           [(true, [IString "msg"; IString "sync failed"]);
            (false, [IString "level"; IString "msg";
                     IString "msg"; IString "sync failed"]);
            (false, [IString "msg"; IString "retry"])]).
  vm_compute. reflexivity.
Defined.

(** X21.  The line [Log] writes for a message when the limiter lets it
    through: the wrapped logger is handed the key-values unchanged, with
    [occurred] bound to the number of calls that carried the message so far,
    this one included, and [since last seen] bound to the number of those
    calls since the last one that was let through, both as uint32. *)
Theorem Log_since_last_seen lg calls r keyvals msg :
  Log_all (Limit lg) calls = Some r →
  scan keyvals = ScanMsg msg → msg ≠ "" →
  let ctx := [IString "occurred"; IUint32 (uint32 (count_msg msg calls + 1));
              IString "since last seen";
              IUint32 (uint32 (since_msg msg calls + 1))] in
  ∃ r', Log r true keyvals = (LogReturn (lg ctx keyvals), r')
        ∧ written r' = written r ++ [(ctx, keyvals)]
        ∧ occurrences r' !! msg
          = Some {| lastSeen := uint32 (count_msg msg calls + 1);
                    current := uint32 (count_msg msg calls + 1) |}.
Proof.
  intros Hrun Hscan Hne ctx.
  destruct (Log_all_inv lg calls r Hrun) as (Hlg & _ & Hinv).
  specialize (Hinv msg).
  assert (String.eqb msg "" = false) as Hneb by (by apply String.eqb_neq).
  rewrite Hneb in Hinv.
  unfold Log. rewrite Hscan. rewrite decide_True by done.
  unfold count_occurrence.
  destruct (occurrences r !! msg) as [o|] eqn:Ho.
  - destruct Hinv as (_ & Hcur & Hls).
    rewrite lookup_insert_eq. cbn [current lastSeen].
    rewrite Hcur, Hls, uint32_succ, uint32_sub, Hlg.
    replace (count_msg msg calls + 1 - (count_msg msg calls - since_msg msg calls))
      with (since_msg msg calls + 1) by lia.
    eexists. split; [done|]. split; [done|]. cbn [occurrences].
    by rewrite lookup_insert_eq.
  - rewrite lookup_insert_eq. cbn [current lastSeen].
    rewrite Hlg. subst ctx. rewrite (since_msg_zero msg calls Hinv), Hinv.
    eexists. split; [done|]. split; [done|]. cbn [occurrences].
    by rewrite lookup_insert_eq.
Qed.

Lemma Log_since_last_seen_witness :
  let lg := λ _ _, None in
  let calls := [(true, [IString "msg"; IString "sync failed"]);
                (false, [IString "msg"; IString "sync failed"]);
                (false, [IString "msg"; IString "sync failed"])] in
  let keyvals := [IString "msg"; IString "sync failed"; IString "err"; IOther 0] in
  let ctx := [IString "occurred"; IUint32 (uint32 (count_msg "sync failed" calls + 1));
              IString "since last seen";
              IUint32 (uint32 (since_msg "sync failed" calls + 1))] in
  ∃ r, Log_all (Limit lg) calls = Some r
    ∧ ∃ r', Log r true keyvals = (LogReturn (lg ctx keyvals), r')
        ∧ written r' = written r ++ [(ctx, keyvals)]
        ∧ occurrences r' !! "sync failed"
          = Some {| lastSeen := uint32 (count_msg "sync failed" calls + 1);
                    current := uint32 (count_msg "sync failed" calls + 1) |}.
Proof.
  eexists. split; [vm_compute; reflexivity|].
  apply (Log_since_last_seen (λ _ _, None)
           [(true, [IString "msg"; IString "sync failed"]);
            (false, [IString "msg"; IString "sync failed"]);
            (false, [IString "msg"; IString "sync failed"])]).
  - vm_compute. reflexivity.
  - vm_compute. reflexivity.
  - done.
Defined.

(** X22.  [Log] panics exactly when the first key [msg] is the last value of
    the call or is followed by a value that is not a string; it panics before
    it counts, asks the limiter or writes, so the logger is left as it was.
    The lookup [r.occurrences[msg]] after the limiter never yields nil. *)
Theorem Log_panic_iff r allow keyvals :
  ((Log r allow keyvals).1 = LogPanic ↔ first_msg keyvals = ScanPanic)
  ∧ ((Log r allow keyvals).1 = LogPanic → (Log r allow keyvals).2 = r).
Proof.
  rewrite <- (scan_from_first_msg [] keyvals) by done.
  change (scan_from ([] ++ keyvals) (seq (length []) (length keyvals)))
    with (scan keyvals).
  split; [split|].
  - apply Log_panics.
  - intros H. unfold Log. by rewrite H.
  - intros H. apply Log_panics in H. unfold Log. by rewrite H.
Qed.
